(** * Phillips' two-level quasi-geostrophic model

    A shallow embedding of [phillips_model.py] and the properties of its
    numerical core: the middle-square generator, the zonal-mean/anomaly
    decomposition of a layered field, the two relaxation solvers, the
    explicit tendency, and the time stepping with its adaptive step.

    Conventions of the embedding.
    - A Python float is an exact rational kept in lowest terms ([Qc]):
      rounding, overflow and the floating-point traps enabled by
      [np.seterr] are outside the model.  A property that rests on an exact
      cancellation says so ("in exact arithmetic").
    - Division is that of the field, with [x / 0 = 0].  The solvers divide by
      constants of their parameters only; where a theorem ranges over these
      parameters it assumes the denominators nonzero, since the compiled
      code raises [ZeroDivisionError] on a zero one.
    - A numpy array of shape [(nx+1, ny+1)] is a list of [nx+1] rows, one per
      longitude index [i], each a list of [ny+1] values indexed by the
      latitude [j]; [a[i,j]] is [get a i j].  The loops of the source only
      touch indices inside the arrays, which is where [get] and [aset] agree
      with numpy.
    - Code that mutates its arguments in place returns the new contents. *)

From Stdlib Require Import ZArith QArith Qcanon Qcabs List Bool Lia Lqa Permutation.
Import ListNotations.
Local Open Scope Qc_scope.

(** ** Numbers *)

(** A float literal of the source. *)
Definition lit (q : Q) : Qc := Q2Qc q.
Arguments lit q%_Q.

(** [float(z)] for a Python integer and for a loop index. *)
Definition of_Z (z : Z) : Qc := Q2Qc (inject_Z z).
Definition of_nat (n : nat) : Qc := of_Z (Z.of_nat n).

Definition Qcltb (x y : Qc) : bool :=
  match x ?= y with Lt => true | _ => false end.

(** Python's [max(a, b)]: the first argument unless the second is greater. *)
Definition pymax (a b : Qc) : Qc := if Qcltb a b then b else a.

(** [x**2]. *)
Definition sq (x : Qc) : Qc := x * x.

(** [np.sum] and [.mean()] of a flat sequence of values. *)
Definition sum (l : list Qc) : Qc := fold_left Qcplus l 0.
Definition mean (l : list Qc) : Qc := sum l / of_nat (length l).

(** [x % m == 0] for floats: [x] is a whole multiple of [m]. *)
Definition is_multiple (x m : Qc) : bool :=
  Pos.eqb (Qden (this (x / m))) 1.

(** ** The middle-square generator *)

(** [msq_rand]: Python integers are unbounded, [//] and [%] round towards
    minus infinity like [Z.div] and [Z.modulo]. *)
Definition msq_rand (x : Z) : Z := ((x * x) / 10 ^ 5) mod 10 ^ 10.

(** The decimal digit of weight [10^k]. *)
Definition digit (n : Z) (k : nat) : Z := (n / 10 ^ Z.of_nat k) mod 10.

(** The number written with the [len] digits of [n] that start at weight
    [10^lo]. *)
Fixpoint digits_value (n : Z) (lo len : nat) : Z :=
  match len with
  | O => 0
  | S len' => digit n lo + 10 * digits_value n (S lo) len'
  end.

(** The seed of [perturb] and the stream drawn from it. *)
Definition seed : Z := 1111111111.

Fixpoint msq_seq (n : nat) : Z :=
  match n with
  | O => seed
  | S n' => msq_rand (msq_seq n')
  end.

(** ** Arrays *)

Definition arr1 := list Qc.
Definition arr2 := list (list Qc).

Fixpoint upd {A : Type} (l : list A) (n : nat) (x : A) : list A :=
  match l, n with
  | [], _ => []
  | _ :: t, O => x :: t
  | h :: t, S n' => h :: upd t n' x
  end.

Fixpoint map2 {A B C : Type} (f : A -> B -> C) (l : list A) (l' : list B) : list C :=
  match l, l' with
  | a :: t, b :: t' => f a b :: map2 f t t'
  | _, _ => []
  end.

Definition get1 (a : arr1) (j : nat) : Qc := nth j a 0.
Definition get (a : arr2) (i j : nat) : Qc := nth j (nth i a []) 0.

(** [a[i,j] = x]. *)
Definition aset (a : arr2) (i j : nat) (x : Qc) : arr2 :=
  upd a i (upd (nth i a []) j x).

(** [np.zeros(n)] and [np.zeros((n, m))]. *)
Definition zeros1 (n : nat) : arr1 := repeat 0 n.
Definition zeros (n m : nat) : arr2 := repeat (zeros1 m) n.

(** [a[:] = c] for a scalar [c]. *)
Definition fill (a : arr2) (c : Qc) : arr2 := map (map (fun _ => c)) a.

(** [a[:,j]], [a[:,j] = c] for a scalar, and [a[:,j] = vals] for a vector. *)
Definition col (a : arr2) (j : nat) : list Qc := map (fun r => nth j r 0) a.
Definition set_col_scalar (a : arr2) (j : nat) (c : Qc) : arr2 :=
  map (fun r => upd r j c) a.
Definition set_col (a : arr2) (j : nat) (vals : list Qc) : arr2 :=
  map2 (fun r x => upd r j x) a vals.

(** Elementwise [a + b] and [a - b] of two arrays of one shape. *)
Definition add2 (a b : arr2) : arr2 := map2 (map2 Qcplus) a b.
Definition sub2 (a b : arr2) : arr2 := map2 (map2 Qcminus) a b.

(** [c * a] for a scalar [c]. *)
Definition scale1 (c : Qc) (a : arr1) : arr1 := map (Qcmult c) a.
Definition scale2 (c : Qc) (a : arr2) : arr2 := map (scale1 c) a.

(** [a] has [n] rows of [m] values. *)
Definition shape (n m : nat) (a : arr2) : Prop :=
  length a = n /\ Forall (fun r => length r = m) a.

(** [for i in range(lo, hi): body]. *)
Definition for_range {St : Type} (lo hi : nat) (body : nat -> St -> St) (s : St) : St :=
  fold_left (fun st i => body i st) (seq lo (hi - lo)%nat) s.

(** A [for] loop whose body may [break]: the body returns the new state and
    whether it left the loop. *)
Fixpoint for_break {St : Type} (body : nat -> St -> St * bool) (its : list nat) (s : St) : St :=
  match its with
  | [] => s
  | i :: rest =>
      let (s', stop) := body i s in
      if stop then s' else for_break body rest s'
  end.

(** The periodic neighbours in longitude. *)
Definition wrap_m (nx i : nat) : nat :=
  let im := (i - 1)%nat in if Nat.eqb im 0 then nx else im.
Definition wrap_p (nx i : nat) : nat :=
  let ip := (i + 1)%nat in if Nat.eqb ip (nx + 1)%nat then 1%nat else ip.

(** ** The grid *)

Module Grid.
Definition L : Qc := lit 6.0e6.
Definition W : Qc := lit 5.0e6.
Definition nx : nat := 16.
Definition ny : nat := 16.
Definition dx : Qc := L / of_nat nx.
Definition dy : Qc := lit 2 * W / of_nat ny.
End Grid.

(** ** Layered fields *)

(** Level 1 and level 3 of a variable: total field, anomaly and zonal
    mean. *)
Record Var : Type := mkVar {
  l1t : arr2;
  l3t : arr2;
  l1 : arr2;
  l3 : arr2;
  l1z : arr1;
  l3z : arr1
}.

(** [Var()]. *)
Definition new_Var : Var :=
  {| l1t := zeros (Grid.nx + 1)%nat (Grid.ny + 1)%nat;
     l3t := zeros (Grid.nx + 1)%nat (Grid.ny + 1)%nat;
     l1 := zeros (Grid.nx + 1)%nat (Grid.ny + 1)%nat;
     l3 := zeros (Grid.nx + 1)%nat (Grid.ny + 1)%nat;
     l1z := zeros1 (Grid.ny + 1)%nat;
     l3z := zeros1 (Grid.ny + 1)%nat |}.

Definition wf_Var (v : Var) : Prop :=
  shape (Grid.nx + 1)%nat (Grid.ny + 1)%nat (l1t v) /\
  shape (Grid.nx + 1)%nat (Grid.ny + 1)%nat (l3t v) /\
  shape (Grid.nx + 1)%nat (Grid.ny + 1)%nat (l1 v) /\
  shape (Grid.nx + 1)%nat (Grid.ny + 1)%nat (l3 v) /\
  length (l1z v) = (Grid.ny + 1)%nat /\
  length (l3z v) = (Grid.ny + 1)%nat.

(** [settot(val)] with a [Var] argument. *)
Definition settot (self val : Var) : Var :=
  {| l1t := l1t val; l3t := l3t val;
     l1 := l1 self; l3 := l3 self; l1z := l1z self; l3z := l3z self |}.

(** [set(val)] with a scalar argument. *)
Definition set_scalar (self : Var) (val : Qc) : Var :=
  {| l1t := l1t self; l3t := l3t self;
     l1 := fill (l1 self) val; l3 := fill (l3 self) val;
     l1z := l1z self; l3z := l3z self |}.

(** [a[1:nx+1,:].mean(axis=0)]. *)
Definition zmean (a : arr2) : arr1 :=
  map (fun j => mean (col (firstn Grid.nx (skipn 1 a)) j)) (seq 0 (Grid.ny + 1)%nat).

Definition calc_zmean (self : Var) : Var :=
  {| l1t := l1t self; l3t := l3t self; l1 := l1 self; l3 := l3 self;
     l1z := zmean (l1t self); l3z := zmean (l3t self) |}.

(** [a - z] with [z] broadcast along the longitude axis. *)
Definition sub_bcast (a : arr2) (z : arr1) : arr2 :=
  map (fun r => map2 Qcminus r z) a.

Definition split (self : Var) : Var :=
  let self := calc_zmean self in
  {| l1t := l1t self; l3t := l3t self;
     l1 := sub_bcast (l1t self) (l1z self);
     l3 := sub_bcast (l3t self) (l3z self);
     l1z := l1z self; l3z := l3z self |}.

(** The recomposition loop written out in [spinup] and [step]:
    [for j in range(ny+1): t[:,j] = a[:,j] + z[j]]. *)
Definition compose_level (t a : arr2) (z : arr1) : arr2 :=
  for_range 0 (Grid.ny + 1)%nat
    (fun j t => set_col t j (map (fun x => x + get1 z j) (col a j))) t.

Definition compose (self : Var) : Var :=
  {| l1t := compose_level (l1t self) (l1 self) (l1z self);
     l3t := compose_level (l3t self) (l3 self) (l3z self);
     l1 := l1 self; l3 := l3 self; l1z := l1z self; l3z := l3z self |}.

(** ** Exceptions *)

Inductive exn : Type :=
| RELAX1_failed (iter : nat) (change maxdiff : Qc)
    (** ["RELAX1 failed {iter} {np.sqrt(change)} {maxdiff}"]: the payload
        keeps [change], of which the message prints the square root. *)
| EKE_too_large
| AttributeError_lu.

(** What a call leaves behind: the data it mutated, and the exception when
    it raised one. *)
Inductive outcome (A : Type) : Type :=
| Normal (a : A)
| Raised (e : exn) (a : A).
Arguments Normal {A} a.
Arguments Raised {A} e a.

Definition data {A : Type} (o : outcome A) : A :=
  match o with Normal a => a | Raised _ a => a end.

Definition raised {A : Type} (o : outcome A) : option exn :=
  match o with Normal _ => None | Raised e _ => Some e end.

(** ** [relax1_nb]: relaxation for the anomaly streamfunction *)

Record Relax1 : Type := mkRelax1 {
  r1_s1 : arr2;
  r1_s3 : arr2;
  r1_iter : nat;
  r1_change : Qc;
  r1_maxdiff : Qc
}.

(** The body of the two inner loops at the point [(i, j)].  The divisor
    [2 + 2*epsq + gamma] depends on the parameters only; the compiled code
    raises [ZeroDivisionError] where it is zero, and the model is meant for
    the other parameters. *)
Definition relax1_nb_point (v1 v3 : arr2) (nx : nat) (epsq gamma : Qc)
    (j i : nat) (st : Relax1) : Relax1 :=
  let jm := (j - 1)%nat in
  let jp := (j + 1)%nat in
  let im := wrap_m nx i in
  let ip := wrap_p nx i in
  let s1 := r1_s1 st in
  let s3 := r1_s3 st in
  let resid := ( get s1 ip j + get s1 im j +
                 epsq * ( get s1 i jp + get s1 i jm ) -
                 get v1 i j + gamma * get s3 i j ) -
               ( lit 2.0 + lit 2.0 * epsq + gamma ) * get s1 i j in
  let resid := resid / ( lit 2.0 + lit 2.0 * epsq + gamma ) in
  let change := r1_change st + sq resid in
  let maxdiff := pymax (r1_maxdiff st) (Qcabs resid) in
  let s1 := aset s1 i j (get s1 i j + resid) in
  let resid := ( get s3 ip j + get s3 im j +
                 epsq * ( get s3 i jp + get s3 i jm ) -
                 get v3 i j + gamma * get s1 i j ) -
               ( lit 2.0 + lit 2.0 * epsq + gamma ) * get s3 i j in
  let resid := resid / ( lit 2.0 + lit 2.0 * epsq + gamma ) in
  let change := change + sq resid in
  let maxdiff := pymax maxdiff (Qcabs resid) in
  let s3 := aset s3 i j (get s3 i j + resid) in
  mkRelax1 s1 s3 (r1_iter st) change maxdiff.

(** The visiting order of the interior points: [j] outermost. *)
Definition interior (nx ny : nat) : list (nat * nat) :=
  flat_map (fun j => map (fun i => (j, i)) (seq 1 nx)) (seq 1 (ny - 1)).

(** One pass of [for iter in range(100)], visiting the points in a given
    order. *)
Definition relax1_sweep (point : nat -> nat -> Relax1 -> Relax1)
    (order : list (nat * nat)) (iter : nat) (st : Relax1) : Relax1 :=
  let st := mkRelax1 (r1_s1 st) (r1_s3 st) iter 0 0 in
  fold_left (fun st p => point (fst p) (snd p) st) order st.

Definition relax1_body (point : nat -> nat -> Relax1 -> Relax1)
    (nx ny : nat) (iter : nat) (st : Relax1) : Relax1 * bool :=
  let st := mkRelax1 (r1_s1 st) (r1_s3 st) iter 0 0 in
  let st := for_range 1 ny (fun j =>
              for_range 1 (nx + 1) (fun i => point j i)) st in
  (st, Qcltb (r1_maxdiff st) (lit 0.5 * lit 3.75e4)).

(** The loop and the test that follows it.  [iter], [change] and [maxdiff]
    are unbound before the loop; [range(100)] is not empty, so the first
    pass binds them. *)
Definition relax1_loop (point : nat -> nat -> Relax1 -> Relax1)
    (nx ny : nat) (s1 s3 : arr2) : Relax1 :=
  for_break (relax1_body point nx ny) (seq 0 100) (mkRelax1 s1 s3 0 0 0).

Definition relax1_finish (st : Relax1) : outcome (arr2 * arr2) :=
  if (100 <=? r1_iter st)%nat
  then Raised (RELAX1_failed (r1_iter st) (r1_change st) (r1_maxdiff st))
              (r1_s1 st, r1_s3 st)
  else Normal (r1_s1 st, r1_s3 st).

Definition relax1_nb (v1 v3 s1 s3 : arr2) (nx ny : nat) (epsq gamma : Qc)
    : outcome (arr2 * arr2) :=
  relax1_finish (relax1_loop (relax1_nb_point v1 v3 nx epsq gamma) nx ny s1 s3).

(** ** [relax2_nb]: relaxation for the anomaly vorticity *)

Record Relax2 : Type := mkRelax2 {
  r2_v1 : arr2;
  r2_v3 : arr2;
  r2_temp1 : arr2;
  r2_temp3 : arr2;
  r2_iter : nat
}.

(** The body of the two inner loops at the point [(i, j)]: the new values
    go to [temp1] and [temp3].  The two divisors depend on the parameters
    only; the compiled code raises [ZeroDivisionError] where one is zero, and
    the model is meant for the other parameters. *)
Definition relax2_nb_point (x1 x3 : arr2) (dt : Qc) (nx : nat) (alpha epsq k : Qc)
    (j i : nat) (st : Relax2) : Relax2 :=
  let jm := (j - 1)%nat in
  let jp := (j + 1)%nat in
  let im := wrap_m nx i in
  let ip := wrap_p nx i in
  let v1 := r2_v1 st in
  let v3 := r2_v3 st in
  let temp1 := aset (r2_temp1 st) i j
      (( alpha * ( get v1 ip j + get v1 im j +
                   epsq * ( get v1 i jp + get v1 i jm ) ) +
         get x1 i j ) /
       ( lit 2 * alpha * (lit 1.0 + epsq) + lit 1.0 )) in
  let temp3 := aset (r2_temp3 st) i j
      (( alpha * ( get v3 ip j + get v3 im j +
                   epsq * ( get v3 i jp + get v3 i jm ) ) +
         get x3 i j ) /
       ( lit 2 * alpha * (lit 1.0 + epsq) + lit 1.0 + lit 1.5 * k * dt )) in
  mkRelax2 v1 v3 temp1 temp3 (r2_iter st).

(** [a[1:,1:]], flattened. *)
Definition tail_block (a : arr2) : list (list Qc) := map (skipn 1) (skipn 1 a).

(** [np.sum((v[1:,1:] - temp[1:,1:])**2)]. *)
Definition change_of (v temp : arr2) : Qc :=
  sum (concat (map2 (map2 (fun a b => sq (a - b))) (tail_block v) (tail_block temp))).

(** [v[:,1:ny] = temp[:,1:ny]]. *)
Definition assign_interior_rows (ny : nat) (v temp : arr2) : arr2 :=
  map2 (fun rv rt => firstn 1 rv ++ firstn (ny - 1) (skipn 1 rt) ++ skipn ny rv)
       v temp.

(** Boundary condition A17: the end rows take the mean of their
    neighbouring row. *)
Definition end_rows (ny : nat) (v : arr2) : arr2 :=
  let v := set_col_scalar v 0 (mean (col v 1)) in
  set_col_scalar v ny (mean (col v (ny - 1))).

(** The point loops of one pass, in a given visiting order. *)
Definition relax2_sweep (point : nat -> nat -> Relax2 -> Relax2)
    (order : list (nat * nat)) (st : Relax2) : Relax2 :=
  fold_left (fun st p => point (fst p) (snd p) st) order st.

Definition relax2_changes (st : Relax2) : Qc * Qc :=
  (change_of (r2_v1 st) (r2_temp1 st), change_of (r2_v3 st) (r2_temp3 st)).

Definition relax2_body (point : nat -> nat -> Relax2 -> Relax2)
    (nx ny : nat) (iter : nat) (st : Relax2) : Relax2 * bool :=
  let st := mkRelax2 (r2_v1 st) (r2_v3 st) (r2_temp1 st) (r2_temp3 st) iter in
  let st := for_range 1 ny (fun j =>
              for_range 1 (nx + 1) (fun i => point j i)) st in
  let change1 := change_of (r2_v1 st) (r2_temp1 st) in
  let v1 := assign_interior_rows ny (r2_v1 st) (r2_temp1 st) in
  let v1 := end_rows ny v1 in
  let change3 := change_of (r2_v3 st) (r2_temp3 st) in
  let v3 := assign_interior_rows ny (r2_v3 st) (r2_temp3 st) in
  let v3 := end_rows ny v3 in
  (mkRelax2 v1 v3 (r2_temp1 st) (r2_temp3 st) iter,
   Qcltb (pymax change1 change3) (lit 1.0)).

Definition relax2_loop (x1 x3 : arr2) (dt : Qc) (nx ny : nat) (alpha epsq k : Qc)
    (v1 v3 : arr2) : Relax2 :=
  let temp1 := zeros (nx + 1) (ny + 1) in
  let temp3 := zeros (nx + 1) (ny + 1) in
  let v1 := fill v1 (lit 0.0) in
  let v3 := fill v3 (lit 0.0) in
  for_break (relax2_body (relax2_nb_point x1 x3 dt nx alpha epsq k) nx ny)
            (seq 0 100) (mkRelax2 v1 v3 temp1 temp3 0).

Definition relax2_nb (v1 v3 x1 x3 : arr2) (dt : Qc) (nx ny : nat) (alpha epsq k : Qc)
    : arr2 * arr2 :=
  let st := relax2_loop x1 x3 dt nx ny alpha epsq k v1 v3 in
  (r2_v1 st, r2_v3 st).

(** ** [xcalc_nb]: the explicit tendency *)

Definition xcalc_nb_point (v1t v3t vm1t vm3t s1t s3t : arr2) (dt : Qc) (nx ny : nat)
    (epsq alpha b c h k gamma : Qc) (j i : nat) (x : arr2 * arr2) : arr2 * arr2 :=
  let jm := (j - 1)%nat in
  let jp := (j + 1)%nat in
  let im := wrap_m nx i in
  let ip := wrap_p nx i in
  let heating := h * of_Z (2 * Z.of_nat j - Z.of_nat ny) / of_nat ny in
  let x1t := aset (fst x) i j
      ( get vm1t i j +
        c * ( (get v1t ip j - get v1t im j) * (get s1t i jp - get s1t i jm) -
              (lit 2 * b + get v1t i jp - get v1t i jm) * (get s1t ip j - get s1t im j) ) +
        alpha * ( get vm1t ip j + get vm1t im j - lit 2 * get vm1t i j +
                  epsq * (get vm1t i jp + get vm1t i jm - lit 2 * get vm1t i j) ) +
        heating ) in
  let x3t := aset (snd x) i j
      ( get vm3t i j +
        c * ( (get v3t ip j - get v3t im j) * (get s3t i jp - get s3t i jm) -
              (lit 2 * b + get v3t i jp - get v3t i jm) * (get s3t ip j - get s3t im j) ) +
        alpha * ( get vm3t ip j + get vm3t im j - lit 2 * get vm3t i j +
                  epsq * (get vm3t i jp + get vm3t i jm - lit 2 * get vm3t i j) ) -
        heating ) in
  let x3t := aset x3t i j
      ( get x3t i j - k * dt * ( lit 1.5 * get vm3t i j - get v1t i j -
                                 lit 4 * gamma * (get s1t i j - get s3t i j) ) ) in
  (x1t, x3t).

Definition xcalc_nb (v1t v3t vm1t vm3t s1t s3t x1t x3t : arr2) (dt : Qc) (nx ny : nat)
    (epsq alpha b c h k gamma : Qc) : arr2 * arr2 :=
  let x1t := fill x1t (lit 0.0) in
  let x3t := fill x3t (lit 0.0) in
  for_range 1 ny (fun j =>
    for_range 1 (nx + 1) (fun i =>
      xcalc_nb_point v1t v3t vm1t vm3t s1t s3t dt nx ny epsq alpha b c h k gamma j i))
    (x1t, x3t).

(** ** Slices of one-dimensional arrays *)

(** [a[lo:hi]], [a[lo:hi] = vals] and [a[lo:hi] = c]. *)
Definition slice (lo hi : nat) (a : arr1) : arr1 := firstn (hi - lo) (skipn lo a).
Definition set_slice (lo hi : nat) (a vals : arr1) : arr1 :=
  firstn lo a ++ firstn (hi - lo) vals ++ skipn hi a.
Definition fill_slice (lo hi : nat) (a : arr1) (c : Qc) : arr1 :=
  set_slice lo hi a (repeat c (hi - lo)).

(** ** The model *)

Module Model.

Definition eps : Qc := Grid.dx / Grid.dy.
Definition epsq : Qc := eps * eps.
Definition heat : Qc := lit 2.0e-3.
Definition lambdasq : Qc := lit 1.5e-12.
Definition rgas : Qc := lit 287.0.
Definition cp : Qc := lit 1004.0.
Definition f0 : Qc := lit 1.0e-4.
Definition beta : Qc := lit 1.6e-11.
Definition p4 : Qc := lit 1.0e5.
Definition p2 : Qc := lit 0.5 * p4.
Definition gamma : Qc := lambdasq * sq Grid.dx.
Definition k : Qc := lit 4.0e-6.

(** Control variables. *)
Definition a : Qc := lit 1.0e5.
Definition accel : Qc := lit 1.0.
Definition noisescale : Qc := lit 7.509e6.
Definition day1 : Qc := lit 131.0.
Definition dt1 : Qc := lit 86400.
Definition day2 : Qc := lit 165.5.
Definition dt2 : Qc := lit 7200.
Definition min_dt : Qc := lit 1800.
Definition variable_step : bool := true.
Definition diag_freq : Qc := lit 3600.

(** The mutable attributes.  [lu] holds [self.lu] and [self.piv], which
    exist only once [calc_zonstream] has run. *)
Record State : Type := mkState {
  v : Var;
  vm : Var;
  s : Var;
  x : Var;
  time : Qc;
  day : Qc;
  dt : Qc;
  first_step : bool;
  lu : option (arr2 * list Z)
}.

(** A model as the class creates it: at rest, with the spin-up step. *)
Definition init : State :=
  mkState new_Var new_Var new_Var new_Var 0 0 dt1 true None.

Definition with_v (m : State) (v' : Var) : State :=
  mkState v' (vm m) (s m) (x m) (time m) (day m) (dt m) (first_step m) (lu m).
Definition with_vm (m : State) (vm' : Var) : State :=
  mkState (v m) vm' (s m) (x m) (time m) (day m) (dt m) (first_step m) (lu m).
Definition with_s (m : State) (s' : Var) : State :=
  mkState (v m) (vm m) s' (x m) (time m) (day m) (dt m) (first_step m) (lu m).
Definition with_x (m : State) (x' : Var) : State :=
  mkState (v m) (vm m) (s m) x' (time m) (day m) (dt m) (first_step m) (lu m).
Definition with_clock (m : State) (t d : Qc) : State :=
  mkState (v m) (vm m) (s m) (x m) t d (dt m) (first_step m) (lu m).
Definition with_dt (m : State) (dt' : Qc) : State :=
  mkState (v m) (vm m) (s m) (x m) (time m) (day m) dt' (first_step m) (lu m).
Definition with_lu (m : State) (f : arr2 * list Z) : State :=
  mkState (v m) (vm m) (s m) (x m) (time m) (day m) (dt m) false (Some f).

Definition with_l1t_l3t (u : Var) (t1 t3 : arr2) : Var :=
  mkVar t1 t3 (l1 u) (l3 u) (l1z u) (l3z u).
Definition with_l1_l3 (u : Var) (a1 a3 : arr2) : Var :=
  mkVar (l1t u) (l3t u) a1 a3 (l1z u) (l3z u).
Definition with_l1z_l3z (u : Var) (z1 z3 : arr1) : Var :=
  mkVar (l1t u) (l3t u) (l1 u) (l3 u) z1 z3.

(** Sequencing of calls that may raise. *)
Definition obind (o : outcome State) (f : State -> outcome State) : outcome State :=
  match o with
  | Normal m => f m
  | Raised e m => Raised e m
  end.

Notation "m <- c ;; k" := (obind c (fun m => k))
  (at level 61, c at next level, right associativity).

(** [calcvor(s, v)]: vorticity of a streamfunction. *)
Definition calcvor_point (s : Var) (j i : nat) (w : arr2 * arr2) : arr2 * arr2 :=
  let jm := (j - 1)%nat in
  let jp := (j + 1)%nat in
  let im := wrap_m Grid.nx i in
  let ip := wrap_p Grid.nx i in
  let s1 := l1t s in
  let s3 := l3t s in
  ( aset (fst w) i j
      ( ( get s1 ip j + get s1 im j - lit 2 * get s1 i j ) +
        epsq * ( get s1 i jp + get s1 i jm - lit 2 * get s1 i j ) -
        gamma * ( get s1 i j - get s3 i j ) ),
    aset (snd w) i j
      ( ( get s3 ip j + get s3 im j - lit 2 * get s3 i j ) +
        epsq * ( get s3 i jp + get s3 i jm - lit 2 * get s3 i j ) +
        gamma * ( get s1 i j - get s3 i j ) ) ).

Definition calcvor (s v : Var) : Var :=
  let w := for_range 1 Grid.ny (fun j =>
             for_range 1 (Grid.nx + 1) (fun i => calcvor_point s j i))
             (l1t v, l3t v) in
  with_l1t_l3t v (end_rows Grid.ny (fst w)) (end_rows Grid.ny (snd w)).

(** [relax1]: the loops of [relax1_nb] on [s.l1], [s.l3], with the
    acceleration factor. *)
Definition relax1_point (v : Var) (j i : nat) (st : Relax1) : Relax1 :=
  let jm := (j - 1)%nat in
  let jp := (j + 1)%nat in
  let im := wrap_m Grid.nx i in
  let ip := wrap_p Grid.nx i in
  let s1 := r1_s1 st in
  let s3 := r1_s3 st in
  let resid := ( get s1 ip j + get s1 im j +
                 epsq * ( get s1 i jp + get s1 i jm ) -
                 get (l1 v) i j + gamma * get s3 i j ) -
               ( lit 2.0 + lit 2.0 * epsq + gamma ) * get s1 i j in
  let resid := accel * resid / ( lit 2.0 + lit 2.0 * epsq + gamma ) in
  let change := r1_change st + sq resid in
  let maxdiff := pymax (r1_maxdiff st) (Qcabs resid) in
  let s1 := aset s1 i j (get s1 i j + resid) in
  let resid := ( get s3 ip j + get s3 im j +
                 epsq * ( get s3 i jp + get s3 i jm ) -
                 get (l3 v) i j + gamma * get s1 i j ) -
               ( lit 2.0 + lit 2.0 * epsq + gamma ) * get s3 i j in
  let resid := accel * resid / ( lit 2.0 + lit 2.0 * epsq + gamma ) in
  let change := change + sq resid in
  let maxdiff := pymax maxdiff (Qcabs resid) in
  let s3 := aset s3 i j (get s3 i j + resid) in
  mkRelax1 s1 s3 (r1_iter st) change maxdiff.

Definition relax1 (v s : Var) : outcome Var :=
  match relax1_finish (relax1_loop (relax1_point v) Grid.nx Grid.ny (l1 s) (l3 s)) with
  | Normal (s1, s3) => Normal (with_l1_l3 s s1 s3)
  | Raised e (s1, s3) => Raised e (with_l1_l3 s s1 s3)
  end.

(** [relax2] and [xcalc] repeat the loops of [relax2_nb] and [xcalc_nb]
    with the constants of the class ([temp] is a fresh [Var]).  The methods
    run on numpy scalars under [np.seterr]; the floating-point traps this
    enables are outside the model, as for all arithmetic here. *)
Definition relax2 (x : Var) (dt : Qc) (v : Var) : Var :=
  let alpha := a * dt / sq Grid.dx in
  let w := relax2_nb (l1 v) (l3 v) (l1 x) (l3 x) dt Grid.nx Grid.ny alpha epsq k in
  with_l1_l3 v (fst w) (snd w).

Definition xcalc (v vm s : Var) (dt : Qc) (x : Var) : Var :=
  let alpha := a * dt / sq Grid.dx in
  let b := beta * sq Grid.dx * Grid.dy in
  let c := dt / (lit 2.0 * Grid.dx * Grid.dy) in
  let h := lit 4 * rgas * heat * gamma * dt / (f0 * cp) in
  let w := xcalc_nb (l1t v) (l3t v) (l1t vm) (l3t vm) (l1t s) (l3t s)
                    (l1t x) (l3t x) dt Grid.nx Grid.ny epsq alpha b c h k gamma in
  with_l1t_l3t x (fst w) (snd w).

(** [calc_u(s)] and [calc_v(s)]: the wind components. *)
Definition calc_u_level (st : arr2) : arr2 :=
  map2 (fun r0 rs =>
          firstn 1 r0 ++
          map2 (fun p q => - (p - q) / Grid.dy)
               (slice 1 (Grid.ny + 1) rs) (slice 0 Grid.ny rs))
       (zeros (Grid.nx + 1) (Grid.ny + 1)) st.

Definition calc_u (s : Var) : Var :=
  with_l1t_l3t new_Var (calc_u_level (l1t s)) (calc_u_level (l3t s)).

Definition calc_v_level (st : arr2) : arr2 :=
  for_range 1 (Grid.nx + 1) (fun i w =>
    let im := wrap_m Grid.nx i in
    upd w i (map2 (fun p q => (p - q) / Grid.dx) (nth i st []) (nth im st [])))
    (zeros (Grid.nx + 1) (Grid.ny + 1)).

Definition calc_v (s : Var) : Var :=
  with_l1t_l3t new_Var (calc_v_level (l1t s)) (calc_v_level (l3t s)).

Definition sum2 (a : arr2) : Qc := sum (concat a).

(** [calc_energy(s, u, v)]: [(zke, eke, zpe, epe)]. *)
Definition calc_energy (s u v : Var) : Qc * Qc * Qc * Qc :=
  let u := split u in
  let v := split v in
  let nx := Grid.nx in
  let ny := Grid.ny in
  let zke := lit 10.0 *
             sum (map2 Qcplus (map2 Qcmult (l1z u) (l1z u)) (map2 Qcmult (l3z u) (l3z u)))
             / of_nat (2 * ny) in
  let eke := lit 10.0 *
             sum2 (add2 (add2 (add2 (map (map sq) (l1 u)) (map (map sq) (l3 u)))
                              (map (map sq) (l1 v))) (map (map sq) (l3 v)))
             / of_nat (2 * ny * nx) in
  let zpe := lit 5 * lambdasq *
             sum (map sq (map2 Qcminus (slice 1 ny (l1z s)) (slice 1 ny (l3z s))))
             / of_nat ny in
  let epe := lit 5 * lambdasq *
             sum2 (map (map sq) (sub2 (map (slice 1 ny) (l1 s)) (map (slice 1 ny) (l3 s))))
             / of_nat (nx * ny) in
  (zke, eke, zpe, epe).

(** [diag(day, s)]: prints the energies and stops a run that blew up. *)
Definition diag (m : State) : outcome State :=
  let u := calc_u (s m) in
  let w := calc_v (s m) in
  let '(zke, eke, zpe, epe) := calc_energy (s m) u w in
  if Qcltb (lit 1e5) eke then Raised EKE_too_large m else Normal m.

(** [stability_criterion(dt, s)], criterion (A13). *)
Definition stability_criterion (dt : Qc) (s : Var) : Qc :=
  let smax :=
    for_range 1 (Grid.nx + 1) (fun i =>
      let im := wrap_m Grid.nx i in
      let ip := (let ip := (i + 1)%nat in if (Grid.nx <? ip)%nat then 1%nat else ip) in
      for_range 1 Grid.ny (fun j smax =>
        let jm := (j - 1)%nat in
        let jp := (j + 1)%nat in
        let smax := pymax smax (Qcabs (get (l1t s) ip j - get (l1t s) im j) +
                                Qcabs (get (l1t s) i jp - get (l1t s) i jm)) in
        pymax smax (Qcabs (get (l3t s) ip j - get (l3t s) im j) +
                    Qcabs (get (l3t s) i jp - get (l3t s) i jm))))
      (lit 0) in
  lit 0.5 * dt * smax / (Grid.dx * Grid.dy).

(** [vm] interpolated to a step shortened from [dt_old] to [dt_new]:
    [vm[:] = v - (v - vm)*dt_new/dt_old]. *)
Definition interpolate_level (vt vmt : arr2) (dt_new dt_old : Qc) : arr2 :=
  map2 (map2 (fun p q => p - (p - q) * dt_new / dt_old)) vt vmt.

Definition interpolate (v vm : Var) (dt_new dt_old : Qc) : Var :=
  with_l1t_l3t vm (interpolate_level (l1t v) (l1t vm) dt_new dt_old)
                  (interpolate_level (l3t v) (l3t vm) dt_new dt_old).

(** *** The solvers that call LAPACK

    [dgetrf], [dgetrs] and [dgtsv] come from [scipy.linalg.lapack]; they
    are parameters of the model.  [dgetrf a] stands for the pair
    [(lu, piv)] and [dgetrs] and [dgtsv] for the solution they return. *)
Section Lapack.

Variable dgetrf : arr2 -> arr2 * list Z.
Variable dgetrs : arr2 -> list Z -> arr1 -> arr1.
Variable dgtsv : arr1 -> arr1 -> arr1 -> arr1 -> arr1.

(** The matrix of the zonal elliptic system, rows and columns from 1. *)
Definition zonstream_amat : arr2 :=
  let ny := Grid.ny in
  let nz := (2 * ny - 3)%nat in
  let amat := zeros (nz + 1) (nz + 1) in
  let amat := aset amat 1 1 (- epsq - gamma) in
  let amat := aset amat 1 2 epsq in
  let amat := aset amat (ny - 1) (ny - 2) epsq in
  let amat := aset amat (ny - 1) (ny - 1) (- epsq - gamma) in
  let amat := aset amat (ny - 1) nz gamma in
  let amat := aset amat ny 2 gamma in
  let amat := aset amat ny ny (- lit 2.0 * epsq - gamma) in
  let amat := aset amat ny (ny + 1) epsq in
  let amat := aset amat nz (ny - 1) gamma in
  let amat := aset amat nz (nz - 1) epsq in
  let amat := aset amat nz nz (- epsq - gamma) in
  let amat := for_range 2 (ny - 1) (fun j amat =>
    let amat := aset amat j (j - 1) epsq in
    let amat := aset amat j j (- lit 2.0 * epsq - gamma) in
    let amat := aset amat j (j + 1) epsq in
    aset amat j (ny - 2 + j) gamma) amat in
  for_range (ny + 1) nz (fun j amat =>
    let amat := aset amat j (j + 2 - ny) gamma in
    let amat := aset amat j (j - 1) epsq in
    let amat := aset amat j j (- lit 2.0 * epsq - gamma) in
    aset amat j (j + 1) epsq) amat.

(** [calc_zonstream(v, s)] on [self.v] and [self.s]. *)
Definition calc_zonstream (m : State) : outcome State :=
  let ny := Grid.ny in
  let nz := (2 * ny - 3)%nat in
  let m := if first_step m
           then with_lu m (dgetrf (tail_block zonstream_amat))
           else m in
  let bmat := zeros1 (nz + 1) in
  let bmat := set_slice 1 ny bmat (slice 1 ny (l1z (v m))) in
  let bmat := for_range 2 ny (fun j bmat =>
                upd bmat (ny - 2 + j) (get1 (l3z (v m)) j)) bmat in
  match lu m with
  | None => Raised AttributeError_lu m
  | Some (f, piv) =>
      let bmat := set_slice 1 (nz + 1) bmat (dgetrs f piv (skipn 1 bmat)) in
      let s1z := for_range 1 ny (fun j z => upd z j (get1 bmat j)) (l1z (s m)) in
      let s3z := for_range 2 ny (fun j z => upd z j (get1 bmat (ny - 2 + j)))
                   (l3z (s m)) in
      let s1z := upd s1z 0 (get1 s1z 1) in
      let s1z := upd s1z ny (get1 s1z (ny - 1)) in
      let s3z := upd s3z 0 (lit 0.0) in
      let s3z := upd s3z 1 (lit 0.0) in
      let s3z := upd s3z ny (get1 s3z (ny - 1)) in
      Normal (with_s m (with_l1z_l3z (s m) s1z s3z))
  end.

(** [calc_zvor(x, dt, v)]: the zonal mean vorticity from the tendency. *)
Definition calc_zvor (x : Var) (dt : Qc) (v : Var) : Var :=
  let ny := Grid.ny in
  let nz := (ny - 1)%nat in
  let alpha := a * dt / sq Grid.dx in
  let amat := repeat (alpha * epsq) (nz - 1) in
  let bmat := zeros1 nz in
  let bmat := upd (upd bmat 0 (- alpha * epsq - lit 1)) (nz - 1)
                  (- alpha * epsq - lit 1) in
  let bmat := fill_slice 1 (nz - 1) bmat (- lit 2.0 * alpha * epsq - lit 1) in
  let cmat := repeat (alpha * epsq) (nz - 1) in
  let rmat := map Qcopp (slice 1 (nz + 1) (l1z x)) in
  let umat := dgtsv amat bmat cmat rmat in
  let v1z := set_slice 1 (nz + 1) (l1z v) umat in
  let v1z := upd v1z 0 (get1 v1z 1) in
  let v1z := upd v1z ny (get1 v1z (ny - 1)) in
  let bmat := map (fun c => c - lit 1.5 * k * dt) bmat in
  let rmat := map Qcopp (slice 1 (nz + 1) (l3z x)) in
  let umat := dgtsv amat bmat cmat rmat in
  let v3z := set_slice 1 (nz + 1) (l3z v) umat in
  let v3z := upd v3z 0 (get1 v3z 1) in
  let v3z := upd v3z ny (get1 v3z (ny - 1)) in
  with_l1z_l3z v v1z v3z.

(** The tendency as [spinup] and [step] compute it: [xcalc_nb] on the
    total fields, then [x.split()]. *)
Definition tendency (m : State) : State :=
  with_x m (split (xcalc (v m) (vm m) (s m) (dt m) (x m))).

(** The new zonal mean vorticity and the forward step from rest:
    [calc_zvor], then the test on [self.time]. *)
Definition zonal_update (m : State) : State :=
  let m := with_v m (calc_zvor (x m) (dt m) (v m)) in
  if Qc_eq_bool (time m) (lit 0.0)
  then with_v m (with_l1z_l3z (v m) (scale1 (lit 0.5) (l1z (x m)))
                                    (scale1 (lit 0.5) (l3z (x m))))
  else with_vm m (settot (vm m) (v m)).

(** [self.time += self.dt; self.day = self.time/86400.0]. *)
Definition advance_clock (m : State) : State :=
  let t := time m + dt m in
  with_clock m t (t / lit 86400.0).

(** The start of a pass of [spinup]: the zonal streamfunction, with the
    anomaly streamfunction kept at zero.  The diagnostic [zonal_diag] that
    the source calls next works on a [Var] of its own and prints; it changes
    nothing of the model and is left out. *)
Definition spinup_streamfunction (m : State) : outcome State :=
  m <- calc_zonstream (with_v m (split (v m))) ;;
  let s' := with_l1_l3 (s m) (fill (l1 (s m)) (lit 0.0))
                             (fill (l3 (s m)) (lit 0.0)) in
  Normal (with_s m (compose s')).

(** [v.set(0.0)] and the total set to the zonal mean along each row. *)
Definition zonal_total (m : State) : State :=
  let v' := set_scalar (v m) (lit 0.0) in
  let v' := with_l1t_l3t v'
              (for_range 0 (Grid.ny + 1)
                 (fun j t => set_col_scalar t j (get1 (l1z v') j)) (l1t v'))
              (for_range 0 (Grid.ny + 1)
                 (fun j t => set_col_scalar t j (get1 (l3z v') j)) (l3t v')) in
  with_v m v'.

(** One pass of the [while True] loop of [spinup]; the flag tells
    whether the loop is left. *)
Definition spinup_iter (m : State) : outcome State * bool :=
  match spinup_streamfunction m with
  | Raised e m => (Raised e m, true)
  | Normal m =>
      let m := advance_clock (zonal_total (zonal_update (tendency m))) in
      (Normal m, negb (Qcltb (day m) day1))
  end.

(** [spinup()], with a bound on the number of passes. *)
Fixpoint spinup (fuel : nat) (m : State) : outcome State :=
  match fuel with
  | O => Normal m
  | S fuel' =>
      match spinup_iter m with
      | (Normal m', false) => spinup fuel' m'
      | (o, _) => o
      end
  end.

(** The noise streamfunction of [perturb]: one draw of the generator
    per interior point, [i] outermost. *)
Definition noise_point (i j : nat) (st : Z * (arr2 * arr2)) : Z * (arr2 * arr2) :=
  let rval := msq_rand (fst st) in
  let t1 := aset (fst (snd st)) i j (of_Z rval / of_Z (10 ^ 10)) in
  let t3 := aset (snd (snd st)) i j (get t1 i j) in
  (rval, (t1, t3)).

Definition noise : Var :=
  let st := for_range 1 (Grid.nx + 1) (fun i =>
              for_range 1 Grid.ny (fun j => noise_point i j))
              (seed, (l1t new_Var, l3t new_Var)) in
  with_l1t_l3t new_Var (fst (snd st)) (snd (snd st)).

(** [vtmp] of [perturb]: the vorticity of the scaled noise with its
    zonal mean removed. *)
Definition perturbation : Var :=
  let stmp := split noise in
  let stmp := with_l1t_l3t stmp (scale2 noisescale (l1 stmp))
                                (scale2 noisescale (l3 stmp)) in
  calcvor stmp new_Var.

(** The first statements of [perturb]: [vm] interpolated to the step
    [dt2]. *)
Definition perturb_interpolate (m : State) : State :=
  with_vm m (interpolate (v m) (vm m) dt2 dt1).

Definition perturb (m : State) : State :=
  let m := perturb_interpolate m in
  let vtmp := perturbation in
  let m := with_v m (with_l1t_l3t (v m) (add2 (l1t (v m)) (l1t vtmp))
                                        (add2 (l3t (v m)) (l3t vtmp))) in
  with_vm m (with_l1t_l3t (vm m) (add2 (l1t (vm m)) (l1t vtmp))
                                 (add2 (l3t (vm m)) (l3t vtmp))).

(** *** [step] *)

(** The streamfunction of the current vorticity, and the diagnostics. *)
Definition step_streamfunction (m : State) : outcome State :=
  m <- calc_zonstream (with_v m (split (v m))) ;;
  m <- match relax1_nb (l1 (v m)) (l3 (v m)) (l1 (s m)) (l3 (s m))
                       Grid.nx Grid.ny epsq gamma with
       | Normal (s1, s3) => Normal (with_s m (with_l1_l3 (s m) s1 s3))
       | Raised e (s1, s3) => Raised e (with_s m (with_l1_l3 (s m) s1 s3))
       end ;;
  let m := with_s m (compose (s m)) in
  if is_multiple (time m) diag_freq then diag m else Normal m.

(** The relaxation for the anomaly vorticity and the new total. *)
Definition anomaly_update (m : State) : State :=
  let alpha := a * dt m / sq Grid.dx in
  let w := relax2_nb (l1 (v m)) (l3 (v m)) (l1 (x m)) (l3 (x m)) (dt m)
                     Grid.nx Grid.ny alpha epsq k in
  with_v m (compose (with_l1_l3 (v m) (fst w) (snd w))).

(** The adaptation of the time step that ends [step]. *)
Definition adapt_step (m : State) : State :=
  if variable_step && is_multiple (time m) (lit 86400) && Qcltb min_dt (dt m)
  then
    let stab_crit := stability_criterion (dt m) (s m) in
    if Qcltb (lit 0.9) stab_crit
    then
      let m := with_vm m (interpolate (v m) (vm m) (dt m - min_dt) (dt m)) in
      with_dt m (dt m - min_dt)
    else m
  else m.

(** [step] up to the adaptation of the time step. *)
Definition step_core (m : State) : outcome State :=
  m <- step_streamfunction m ;;
  Normal (advance_clock (anomaly_update (zonal_update (tendency m)))).

Definition step (m : State) : outcome State :=
  m <- step_core m ;;
  Normal (adapt_step m).

(** [n] calls of [step] in a row, going on after a call that raised. *)
Fixpoint steps (n : nat) (m : State) : State :=
  match n with
  | O => m
  | S n' => data (step (steps n' m))
  end.

End Lapack.

End Model.

(** ** Vocabulary of the statements *)

(** A boolean check of [shape]. *)
Definition shapeb (n m : nat) (a : arr2) : bool :=
  Nat.eqb (length a) n && forallb (fun r => Nat.eqb (length r) m) a.

(** The points assigned by the double loops over the interior. *)
Definition is_interior (nx ny i j : nat) : Prop :=
  (1 <= i <= nx)%nat /\ (1 <= j <= ny - 1)%nat.

(** The state after [n] passes of a loop body when no pass leaves the loop,
    and whether pass number [n] asks to leave it. *)
Fixpoint passes {St : Type} (body : nat -> St -> St * bool) (n : nat) (s : St) : St :=
  match n with
  | O => s
  | S n' => fst (body n' (passes body n' s))
  end.

Definition stops {St : Type} (body : nat -> St -> St * bool) (n : nat) (s : St) : bool :=
  snd (body n (passes body n s)).

(** The sum of the squared changes over the interior points. *)
Definition change_interior (nx ny : nat) (v temp : arr2) : Qc :=
  sum (map (fun i =>
         sum (map (fun j => sq (get v i j - get temp i j)) (seq 1 (ny - 1))))
       (seq 1 nx)).

(** The value [relax2_nb] assigns to [temp1[i,j]] and [temp3[i,j]], read off
    the iterate [v1], [v3] of the previous pass. *)
Definition relax2_value1 (v1 x1 : arr2) (nx : nat) (alpha epsq : Qc) (i j : nat) : Qc :=
  ( alpha * ( get v1 (wrap_p nx i) j + get v1 (wrap_m nx i) j +
              epsq * ( get v1 i (j + 1) + get v1 i (j - 1) ) ) +
    get x1 i j ) /
  ( lit 2 * alpha * (lit 1.0 + epsq) + lit 1.0 ).

Definition relax2_value3 (v3 x3 : arr2) (dt : Qc) (nx : nat) (alpha epsq k : Qc)
    (i j : nat) : Qc :=
  ( alpha * ( get v3 (wrap_p nx i) j + get v3 (wrap_m nx i) j +
              epsq * ( get v3 i (j + 1) + get v3 i (j - 1) ) ) +
    get x3 i j ) /
  ( lit 2 * alpha * (lit 1.0 + epsq) + lit 1.0 + lit 1.5 * k * dt ).

(** The state of [relax2_nb] when it enters its loop. *)
Definition relax2_init (nx ny : nat) (v1 v3 : arr2) : Relax2 :=
  mkRelax2 (fill v1 (lit 0.0)) (fill v3 (lit 0.0))
           (zeros (nx + 1) (ny + 1)) (zeros (nx + 1) (ny + 1)) 0.

(** The state of [relax1_nb] when it enters its loop. *)
Definition relax1_init (s1 s3 : arr2) : Relax1 := mkRelax1 s1 s3 0 0 0.

(** The denominator of the residual in [relax1_nb], and the value a point
    of one level takes: the neighbours of the same level, the forcing [v] and
    the other level [o] at the same point. *)
Definition relax1_den (epsq gamma : Qc) : Qc := lit 2.0 + lit 2.0 * epsq + gamma.

Definition relax1_new (v : arr2) (nx : nat) (epsq gamma : Qc) (s o : arr2) (i j : nat) : Qc :=
  ( get s (wrap_p nx i) j + get s (wrap_m nx i) j +
    epsq * ( get s i (j + 1) + get s i (j - 1) ) -
    get v i j + gamma * get o i j ) / relax1_den epsq gamma.

(** Both arrays of a state of [relax1_nb] have [n] rows of [m] values. *)
Definition r1_shape (n m : nat) (st : Relax1) : Prop :=
  shape n m (r1_s1 st) /\ shape n m (r1_s3 st).

(** [d] holds the entrywise difference [b - a] of two iterates. *)
Definition r1_diff (n m : nat) (a b d : Relax1) : Prop :=
  r1_shape n m a /\ r1_shape n m b /\ r1_shape n m d /\
  forall i j,
    get (r1_s1 b) i j - get (r1_s1 a) i j = get (r1_s1 d) i j /\
    get (r1_s3 b) i j - get (r1_s3 a) i j = get (r1_s3 d) i j.

(** [c * a <= b] entrywise. *)
Definition r1_scaled_le (n m : nat) (c : Qc) (a b : Relax1) : Prop :=
  r1_shape n m a /\ r1_shape n m b /\
  forall i j,
    c * get (r1_s1 a) i j <= get (r1_s1 b) i j /\
    c * get (r1_s3 a) i j <= get (r1_s3 b) i j.

(** A boolean check of [r1_scaled_le] on the grid of the model. *)
Definition r1_scaled_leb (n m : nat) (c : Qc) (a b : Relax1) : bool :=
  forallb (fun i =>
    forallb (fun j =>
      negb (Qcltb (get (r1_s1 b) i j) (c * get (r1_s1 a) i j)) &&
      negb (Qcltb (get (r1_s3 b) i j) (c * get (r1_s3 a) i j)))
      (seq 0 m))
    (seq 0 n).

(** The convergence threshold of [relax1_nb]. *)
Definition relax1_threshold : Qc := lit 0.5 * lit 3.75e4.

(** A boolean check that a point does not occur in a list of points. *)
Definition absentb (p : nat * nat) (l : list (nat * nat)) : bool :=
  negb (existsb (fun q => Nat.eqb (fst p) (fst q) && Nat.eqb (snd p) (snd q)) l).

(** A forcing under which [relax1_nb] does not converge within its hundred
    passes: [-1e30] at every point of both levels, from a streamfunction
    anomaly at rest. *)
Definition strong_forcing : arr2 :=
  fill (zeros (Grid.nx + 1) (Grid.ny + 1)) (- lit 1e30).

(** A boolean form of [is_interior], and the array that holds [c] at the
    interior points and zero elsewhere. *)
Definition interiorb (nx ny i j : nat) : bool :=
  Nat.leb 1 i && Nat.leb i nx && Nat.leb 1 j && Nat.leb j (ny - 1).

Definition plateau (nx ny : nat) (c : Qc) : arr2 :=
  map (fun i => map (fun j => if interiorb nx ny i j then c else 0) (seq 0 (ny + 1)))
      (seq 0 (nx + 1)).

(** All entries of both arrays of a state are non-negative. *)
Definition r1_nonneg (st : Relax1) : Prop :=
  forall i j, 0 <= get (r1_s1 st) i j /\ 0 <= get (r1_s3 st) i j.

(** A forcing that acts on the last interior point of level 1 only, and the
    visiting order of [relax1_nb] with its last two points exchanged. *)
Definition last_point_forcing : arr2 :=
  aset (zeros (Grid.nx + 1) (Grid.ny + 1)) Grid.nx (Grid.ny - 1) (- (1)).

Definition interior_swapped : list (nat * nat) :=
  removelast (removelast (interior Grid.nx Grid.ny)) ++
  [(Grid.ny - 1, Grid.nx); (Grid.ny - 1, Grid.nx - 1)]%nat.

(** The values the time step takes in a regular run. *)
Definition dt_levels : list Qc := [lit 7200; lit 5400; lit 3600; lit 1800].

(** Exact elimination without pivoting, to run the model where a solver is
    needed: a tridiagonal solve for [dgtsv] (sub-diagonal, diagonal,
    super-diagonal, right-hand side) and a dense solve for [dgetrf] with
    [dgetrs]. *)
Fixpoint tridiagonal_solve (a b c r : arr1) {struct a} : arr1 :=
  match a with
  | [] =>
      match b, r with
      | b0 :: _, r0 :: _ => (r0 / b0) :: nil
      | _, _ => []
      end
  | a0 :: a' =>
      match b, c, r with
      | b0 :: b1 :: b', c0 :: c', r0 :: r1 :: r' =>
          let w := a0 / b0 in
          let xs := tridiagonal_solve a' ((b1 - w * c0) :: b') c' ((r1 - w * r0) :: r') in
          (r0 - c0 * hd 0 xs) / b0 :: xs
      | _, _, _ => []
      end
  end.

Fixpoint dense_solve (fuel : nat) (a : arr2) (b : arr1) : arr1 :=
  match fuel with
  | O => []
  | S fuel' =>
      match a, b with
      | (a11 :: row1) :: arest, b1 :: brest =>
          let elim :=
            map2 (fun rowi bi =>
                    match rowi with
                    | ai1 :: resti =>
                        let w := ai1 / a11 in
                        (map2 (fun p q => p - w * q) resti row1, bi - w * b1)
                    | nil => (nil, bi)
                    end) arest brest in
          let xs := dense_solve fuel' (map fst elim) (map snd elim) in
          (b1 - sum (map2 Qcmult row1 xs)) / a11 :: xs
      | _, _ => []
      end
  end.

Definition ref_dgetrf (a : arr2) : arr2 * list Z := (a, []).
Definition ref_dgetrs (a : arr2) (piv : list Z) (b : arr1) : arr1 :=
  dense_solve (length b) a b.
Definition ref_dgtsv (a b c r : arr1) : arr1 := tridiagonal_solve a b c r.

(** The model as [main] hands it to [step]: the time step set to [dt2]. *)
Definition stepping_start : Model.State := Model.with_dt Model.init Model.dt2.

(** A state at the end of day one whose streamfunction has one steep
    point. *)
Definition steep_day_end : Model.State :=
  let s := Model.with_l1t_l3t new_Var (aset (l1t new_Var) 5 5 (lit 1e9)) (l3t new_Var) in
  Model.with_clock (Model.with_s stepping_start s) (lit 86400) (lit 1).

(** The residual of [relax1_nb] at a point before it is divided: the
    neighbours of the level [s], the forcing [v] and the other level [o]. *)
Definition relax1_resid (v : arr2) (nx : nat) (epsq gamma : Qc) (s o : arr2)
    (i j : nat) : Qc :=
  ( get s (wrap_p nx i) j + get s (wrap_m nx i) j +
    epsq * ( get s i (j + 1) + get s i (j - 1) ) -
    get v i j + gamma * get o i j ) -
  ( lit 2.0 + lit 2.0 * epsq + gamma ) * get s i j.

(** The values [calcvor] assigns at an interior point. *)
Definition calcvor_value1 (s : Var) (i j : nat) : Qc :=
  ( get (l1t s) (wrap_p Grid.nx i) j + get (l1t s) (wrap_m Grid.nx i) j -
    lit 2 * get (l1t s) i j ) +
  Model.epsq * ( get (l1t s) i (j + 1) + get (l1t s) i (j - 1) - lit 2 * get (l1t s) i j ) -
  Model.gamma * ( get (l1t s) i j - get (l3t s) i j ).

Definition calcvor_value3 (s : Var) (i j : nat) : Qc :=
  ( get (l3t s) (wrap_p Grid.nx i) j + get (l3t s) (wrap_m Grid.nx i) j -
    lit 2 * get (l3t s) i j ) +
  Model.epsq * ( get (l3t s) i (j + 1) + get (l3t s) i (j - 1) - lit 2 * get (l3t s) i j ) +
  Model.gamma * ( get (l1t s) i j - get (l3t s) i j ).

(** A value that is not negative. *)
Definition nonneg (p : Qc) : Prop := 0 <= p.

(** A streamfunction that does not depend on the longitude: every row is
    the ramp [0, 1, ..., ny] at level 1 and twice that at level 3. *)
Definition zonal_ramp : Var :=
  let r := map of_nat (seq 0 (Grid.ny + 1)) in
  Model.with_l1t_l3t new_Var (repeat r (Grid.nx + 1))
                             (repeat (scale1 (lit 2) r) (Grid.nx + 1)).

(** ** The driver [main] *)

(** [while m.day < m.day2: m.step()], the loop of the branch of [main]
    without animation, with a bound on the number of steps. *)
Fixpoint run_loop
    (dgetrf : arr2 -> arr2 * list Z)
    (dgetrs : arr2 -> list Z -> arr1 -> arr1)
    (dgtsv : arr1 -> arr1 -> arr1 -> arr1 -> arr1)
    (fuel : nat) (m : Model.State) : outcome Model.State :=
  match fuel with
  | O => Normal m
  | S fuel' =>
      if Qcltb (Model.day m) Model.day2
      then Model.obind (Model.step dgetrf dgetrs dgtsv m)
                       (run_loop dgetrf dgetrs dgtsv fuel')
      else Normal m
  end.

(** [calc_zonstream] finds its factorisation: it is about to compute it, or
    it has stored one. *)
Definition solver_ready (m : Model.State) : Prop :=
  Model.first_step m = true \/ Model.lu m <> None.

(** The state of the model between two passes of [spinup]: [n] days on the
    clock, the spin-up step, and the factorisation at hand. *)
Definition spinup_state (n : nat) (m : Model.State) : Prop :=
  solver_ready m /\ Model.time m = of_nat n * Model.dt1 /\
  Model.day m = of_nat n /\ Model.dt m = Model.dt1.

(** What the loop of [main] relies on: a time step among [dt_levels] and a
    day that is the clock over 86400. *)
Definition run_state (m : Model.State) : Prop :=
  In (Model.dt m) dt_levels /\ Model.day m = Model.time m / lit 86400.0.

(** A state at the end of the spin-up, ready for [step]. *)
Definition run_start : Model.State :=
  Model.with_clock stepping_start (of_nat 131 * Model.dt1) (of_nat 131).


(** The factorisation [calc_zonstream] solves with: the one it computes on
    the first call, the stored one afterwards, none when the attribute
    [lu] is missing. *)
Definition factorisation (dgetrf : arr2 -> arr2 * list Z) (m : Model.State)
    : option (arr2 * list Z) :=
  if Model.first_step m
  then Some (dgetrf (tail_block Model.zonstream_amat))
  else Model.lu m.


(** A boolean check that the first [n] rows and columns of a matrix are
    symmetric. *)
Definition symmetricb (n : nat) (a : arr2) : bool :=
  forallb (fun i => forallb (fun j => Qc_eq_bool (get a i j) (get a j i)) (seq 0 n))
          (seq 0 n).

(** The values [xcalc_nb] leaves at an interior point: the heating
    [h*(2*j - ny)/ny] and, for each level, the previous vorticity with the
    advection and the diffusion; level 3 has the drag taken off. *)
Definition xcalc_heating (ny : nat) (h : Qc) (j : nat) : Qc :=
  h * of_Z (2 * Z.of_nat j - Z.of_nat ny) / of_nat ny.

Definition xcalc_level (vt vmt st : arr2) (nx : nat) (epsq alpha b c : Qc)
    (i j : nat) : Qc :=
  get vmt i j +
  c * ( (get vt (wrap_p nx i) j - get vt (wrap_m nx i) j) *
        (get st i (j + 1) - get st i (j - 1)) -
        (lit 2 * b + get vt i (j + 1) - get vt i (j - 1)) *
        (get st (wrap_p nx i) j - get st (wrap_m nx i) j) ) +
  alpha * ( get vmt (wrap_p nx i) j + get vmt (wrap_m nx i) j - lit 2 * get vmt i j +
            epsq * (get vmt i (j + 1) + get vmt i (j - 1) - lit 2 * get vmt i j) ).

Definition xcalc_value1 (v1t vm1t s1t : arr2) (nx ny : nat) (epsq alpha b c h : Qc)
    (i j : nat) : Qc :=
  xcalc_level v1t vm1t s1t nx epsq alpha b c i j + xcalc_heating ny h j.

Definition xcalc_value3 (v1t v3t vm3t s1t s3t : arr2) (dt : Qc) (nx ny : nat)
    (epsq alpha b c h k gamma : Qc) (i j : nat) : Qc :=
  xcalc_level v3t vm3t s3t nx epsq alpha b c i j - xcalc_heating ny h j -
  k * dt * ( lit 1.5 * get vm3t i j - get v1t i j -
             lit 4 * gamma * (get s1t i j - get s3t i j) ).


(** A boolean check that the sums over the longitudes [1..nx] of the rows
    [0..ny] of an array are all zero. *)
Definition zonal_sums_zerob (nx ny : nat) (a : arr2) : bool :=
  forallb (fun j => Qc_eq_bool (sum (map (fun i => get a i j) (seq 1 nx))) 0)
          (seq 0 (ny + 1)).

(** The sum of row [j] of an array over the longitudes [1..nx]. *)
Definition zonal_sum (a : arr2) (j : nat) : Qc :=
  sum (map (fun i => get a i j) (seq 1 Grid.nx)).

(** * Properties *)

Ltac splits := repeat match goal with |- _ /\ _ => split end.

(** ** Arithmetic on [Qc] through [Q] *)

Ltac qc2q :=
  unfold sq, lit, of_nat, of_Z, Qcle, Qclt, Qcdiv, Qcminus in *;
  repeat match goal with
  | H : @eq Qc _ _ |- _ => apply (f_equal this) in H
  | |- @eq Qc _ _ => apply Qc_is_canon
  end;
  cbn [this Qcplus Qcmult Qcopp Qcinv Q2Qc] in *;
  rewrite ?Qred_correct in *.

Lemma Qcltb_lt (x y : Qc) : Qcltb x y = true <-> x < y.
Proof.
  unfold Qcltb. rewrite Qclt_alt.
  destruct (x ?= y); split; intros H; congruence.
Qed.

Lemma Qcltb_ge (x y : Qc) : Qcltb x y = false <-> y <= x.
Proof.
  split; intros H.
  - apply Qcnot_lt_le. intros C. apply Qcltb_lt in C. congruence.
  - destruct (Qcltb x y) eqn:E; [|reflexivity].
    apply Qcltb_lt in E. exfalso. exact (Qcle_not_lt _ _ H E).
Qed.

Lemma pymax_l (a b : Qc) : a <= pymax a b.
Proof.
  unfold pymax. destruct (Qcltb a b) eqn:E.
  - apply Qclt_le_weak. now apply Qcltb_lt.
  - apply Qcle_refl.
Qed.

Lemma pymax_r (a b : Qc) : b <= pymax a b.
Proof.
  unfold pymax. destruct (Qcltb a b) eqn:E.
  - apply Qcle_refl.
  - now apply Qcltb_ge.
Qed.

Lemma pymax_lt (a b c : Qc) : pymax a b < c <-> a < c /\ b < c.
Proof.
  split.
  - intros H. split; (eapply Qcle_lt_trans; [|exact H]); [apply pymax_l|apply pymax_r].
  - intros [Ha Hb]. unfold pymax. now destruct (Qcltb a b).
Qed.

Lemma Qc_eq_bool_iff (x y : Qc) : Qc_eq_bool x y = true <-> x = y.
Proof.
  split; [apply Qc_eq_bool_correct|].
  intros ->. unfold Qc_eq_bool. now destruct (Qc_eq_dec y y).
Qed.

(** ** Lists as arrays *)

Lemma upd_length {A} (l : list A) n x : length (upd l n x) = length l.
Proof.
  revert n; induction l as [|h t IH]; intros [|n]; simpl; auto.
Qed.

Lemma nth_upd_eq {A} (l : list A) n x d :
  (n < length l)%nat -> nth n (upd l n x) d = x.
Proof.
  revert n; induction l as [|h t IH]; intros [|n] H; simpl in *; try lia; auto.
  apply IH; lia.
Qed.

Lemma nth_upd_neq {A} (l : list A) n n' x d :
  n <> n' -> nth n' (upd l n x) d = nth n' l d.
Proof.
  revert n n'; induction l as [|h t IH]; intros [|n] [|n'] H; simpl; auto; try lia.
Qed.

Lemma upd_ge {A} (l : list A) n x : (length l <= n)%nat -> upd l n x = l.
Proof.
  revert n; induction l as [|h t IH]; intros [|n] H; simpl in *; auto; try lia.
  f_equal. apply IH. lia.
Qed.

Lemma map2_length {A B C} (f : A -> B -> C) l l' :
  length (map2 f l l') = Nat.min (length l) (length l').
Proof.
  revert l'; induction l as [|h t IH]; intros [|h' t']; simpl; auto.
Qed.

Lemma nth_map2 {A B C} (f : A -> B -> C) l l' n da db dc :
  (n < length l)%nat -> (n < length l')%nat ->
  nth n (map2 f l l') dc = f (nth n l da) (nth n l' db).
Proof.
  revert l' n; induction l as [|h t IH]; intros [|h' t'] [|n] H H'; simpl in *;
    try lia; auto.
  apply IH; lia.
Qed.

Lemma nth_map_lt {A B} (f : A -> B) l n d d' :
  (n < length l)%nat -> nth n (map f l) d = f (nth n l d').
Proof.
  revert n; induction l as [|h t IH]; intros [|n] H; simpl in *; try lia; auto.
  apply IH; lia.
Qed.

Lemma shape_length n m a : shape n m a -> length a = n.
Proof. now intros [H _]. Qed.

Lemma shape_row n m a i : shape n m a -> (i < n)%nat -> length (nth i a []) = m.
Proof.
  intros [Hn Hr] Hi. rewrite Forall_forall in Hr.
  apply Hr, nth_In. lia.
Qed.

Lemma shape_zeros n m : shape n m (zeros n m).
Proof.
  split; [apply repeat_length|].
  apply Forall_forall. intros r Hr. apply repeat_spec in Hr. subst.
  apply repeat_length.
Qed.

Lemma Forall_upd {A} (P : A -> Prop) l n x :
  Forall P l -> P x -> Forall P (upd l n x).
Proof.
  intros Hl Hx. revert n.
  induction Hl as [|h t Hh Ht IH]; intros [|n]; simpl; constructor; auto.
Qed.

Lemma shape_aset n m a i j x : shape n m a -> shape n m (aset a i j x).
Proof.
  intros [Hn Hr]. unfold aset. split.
  - now rewrite upd_length.
  - destruct (Nat.lt_ge_cases i (length a)) as [Hi|Hi].
    + apply Forall_upd; auto. rewrite upd_length.
      rewrite Forall_forall in Hr. apply Hr, nth_In, Hi.
    + now rewrite upd_ge.
Qed.

Lemma get_aset_same n m a i j x :
  shape n m a -> (i < n)%nat -> (j < m)%nat -> get (aset a i j x) i j = x.
Proof.
  intros Hs Hi Hj. unfold get, aset.
  rewrite nth_upd_eq by (rewrite (shape_length _ _ _ Hs); lia).
  apply nth_upd_eq. now rewrite (shape_row _ _ _ _ Hs Hi).
Qed.

Lemma get_aset_other a i j x i' j' :
  (i, j) <> (i', j') -> get (aset a i j x) i' j' = get a i' j'.
Proof.
  intros Hne. unfold get, aset.
  destruct (Nat.eq_dec i i') as [<-|Hi].
  - destruct (Nat.lt_ge_cases i (length a)) as [Hl|Hl].
    + rewrite nth_upd_eq by assumption.
      apply nth_upd_neq. congruence.
    + now rewrite upd_ge.
  - now rewrite nth_upd_neq.
Qed.

(** Two arrays of one shape with the same entries are the same array. *)
Lemma shape_ext n m a b :
  shape n m a -> shape n m b ->
  (forall i j, (i < n)%nat -> (j < m)%nat -> get a i j = get b i j) -> a = b.
Proof.
  intros Ha Hb H.
  apply (nth_ext _ _ [] []).
  - now rewrite (shape_length _ _ _ Ha), (shape_length _ _ _ Hb).
  - intros i Hi. rewrite (shape_length _ _ _ Ha) in Hi.
    apply (nth_ext _ _ 0 0).
    + now rewrite (shape_row _ _ _ _ Ha Hi), (shape_row _ _ _ _ Hb Hi).
    + intros j Hj. rewrite (shape_row _ _ _ _ Ha Hi) in Hj. now apply H.
Qed.

Lemma shape_fill n m a c : shape n m a -> shape n m (fill a c).
Proof.
  intros [Hn Hr]. unfold fill. split.
  - now rewrite length_map.
  - apply Forall_map. eapply Forall_impl; [|exact Hr].
    intros r Hl. now rewrite length_map.
Qed.

Lemma lit_zero : lit 0.0 = 0.
Proof. apply Qc_is_canon. reflexivity. Qed.

Lemma fill_zeros n m a : shape n m a -> fill a (lit 0.0) = zeros n m.
Proof.
  intros [Hn Hr]. rewrite lit_zero. unfold fill, zeros, zeros1. subst n.
  induction Hr as [|r t Hl Ht IH]; simpl; [reflexivity|].
  f_equal; [|exact IH].
  subst m. clear. induction r; simpl; f_equal; auto.
Qed.

Lemma get_zeros n m i j : get (zeros n m) i j = 0.
Proof.
  unfold get, zeros, zeros1.
  destruct (Nat.lt_ge_cases i n) as [Hi|Hi].
  - rewrite nth_repeat_lt by assumption. apply nth_repeat.
  - rewrite (nth_overflow (repeat _ n)) by (rewrite repeat_length; lia). now destruct j.
Qed.

(** ** The middle-square generator *)

Lemma digits_value_spec (n : Z) (lo len : nat) :
  digits_value n lo len = ((n / 10 ^ Z.of_nat lo) mod 10 ^ Z.of_nat len)%Z.
Proof.
  revert lo. induction len as [|len IH]; intros lo.
  - simpl. now rewrite Z.mod_1_r.
  - cbn [digits_value]. rewrite IH. unfold digit.
    rewrite !Nat2Z.inj_succ, !Z.pow_succ_r by lia.
    rewrite (Z.rem_mul_r _ 10 (10 ^ Z.of_nat len)) by lia.
    rewrite Zdiv_Zdiv by lia.
    now rewrite (Z.mul_comm (10 ^ Z.of_nat lo) 10).
Qed.

Lemma msq_rand_range (x : Z) : (0 <= msq_rand x < 10 ^ 10)%Z.
Proof. unfold msq_rand. apply Z.mod_pos_bound. lia. Qed.

(** The index of the draw made at the point [(i, j)] of the noise loop. *)
Lemma noise_draws_checked :
  forallb (fun i =>
    forallb (fun j =>
      Qc_eq_bool (get (l1t Model.noise) i j)
                 (of_Z (msq_seq ((i - 1) * (Grid.ny - 1) + j)) / of_Z (10 ^ 10)) &&
      Qc_eq_bool (get (l3t Model.noise) i j) (get (l1t Model.noise) i j))
      (seq 1 (Grid.ny - 1)))
    (seq 1 Grid.nx) = true.
Proof. vm_compute. reflexivity. Qed.

(** C5. For every non-negative integer [x], [msq_rand x] is
    [((x*x) div 10^5) mod 10^10]: the square without its five low decimal
    digits, cut to the next ten digits, hence a number below [10^10].  The
    values drawn in [perturb] are the iterates of [msq_rand] from the fixed
    seed 1111111111, in the order of the loops: they depend on nothing
    else. *)
Theorem msq_rand_middle_square :
  (forall x : Z, (0 <= x)%Z ->
     msq_rand x = ((x * x) / 10 ^ 5) mod 10 ^ 10 /\
     msq_rand x = digits_value (x * x) 5 10 /\
     0 <= msq_rand x < 10 ^ 10)%Z /\
  msq_seq 0 = 1111111111%Z /\
  (forall n, msq_seq (S n) = msq_rand (msq_seq n)) /\
  (forall i j, (1 <= i <= Grid.nx)%nat -> (1 <= j <= Grid.ny - 1)%nat ->
     get (l1t Model.noise) i j =
       of_Z (msq_seq ((i - 1) * (Grid.ny - 1) + j)) / of_Z (10 ^ 10) /\
     get (l3t Model.noise) i j = get (l1t Model.noise) i j).
Proof.
  split; [|split; [reflexivity|split; [reflexivity|]]].
  - intros x _. split; [reflexivity|]. split; [|apply msq_rand_range].
    rewrite digits_value_spec. reflexivity.
  - intros i j Hi Hj.
    pose proof noise_draws_checked as H.
    rewrite forallb_forall in H.
    specialize (H i). rewrite forallb_forall in H.
    assert (Hin : In i (seq 1 Grid.nx)) by (apply in_seq; lia).
    specialize (H Hin j).
    assert (Hjn : In j (seq 1 (Grid.ny - 1))) by (apply in_seq; lia).
    specialize (H Hjn). apply andb_true_iff in H. destruct H as [H1 H3].
    split; now apply Qc_eq_bool_correct.
Qed.

Lemma msq_rand_middle_square_witness :
  (0 <= 1111111111)%Z /\
  msq_rand 1111111111 = 5679009876%Z /\
  msq_rand 1111111111 = digits_value (1111111111 * 1111111111) 5 10.
Proof.
  split; [lia|].
  destruct (proj1 msq_rand_middle_square 1111111111%Z) as (H1 & H2 & _); [lia|].
  split; [rewrite H1; reflexivity|exact H2].
Defined.

(** ** Columns, broadcasting and the zonal mean *)

Lemma col_length a j : length (col a j) = length a.
Proof. apply length_map. Qed.

Lemma nth_col a j i : nth i (col a j) 0 = get a i j.
Proof.
  unfold col, get.
  destruct (Nat.lt_ge_cases i (length a)) as [Hi|Hi].
  - now rewrite (nth_map_lt _ _ _ _ []).
  - rewrite nth_overflow by now rewrite length_map.
    rewrite (nth_overflow a) by assumption. now destruct j.
Qed.

Lemma shape_set_col n m a j vals :
  shape n m a -> length vals = n -> shape n m (set_col a j vals).
Proof.
  intros [Hn Hr] Hv. unfold set_col. split.
  - rewrite map2_length. lia.
  - clear Hn Hv. revert vals.
    induction Hr as [|r t Hl Ht IH]; intros [|x vals]; simpl; constructor.
    + now rewrite upd_length.
    + apply IH.
Qed.

Lemma get_set_col n m a j vals i j' :
  shape n m a -> length vals = n -> (i < n)%nat -> (j' < m)%nat ->
  get (set_col a j vals) i j' = if Nat.eqb j j' then nth i vals 0 else get a i j'.
Proof.
  intros Hs Hv Hi Hj. unfold get, set_col.
  rewrite (nth_map2 _ _ _ _ [] 0) by (rewrite ?(shape_length _ _ _ Hs); lia).
  destruct (Nat.eqb_spec j j') as [->|Hne].
  - apply nth_upd_eq. now rewrite (shape_row _ _ _ _ Hs Hi).
  - now apply nth_upd_neq.
Qed.

Lemma shape_sub_bcast n m a z :
  shape n m a -> length z = m -> shape n m (sub_bcast a z).
Proof.
  intros [Hn Hr] Hz. unfold sub_bcast. split.
  - now rewrite length_map.
  - apply Forall_map. eapply Forall_impl; [|exact Hr].
    intros r Hl. cbn beta in *. rewrite map2_length. lia.
Qed.

Lemma get_sub_bcast n m a z i j :
  shape n m a -> length z = m -> (i < n)%nat -> (j < m)%nat ->
  get (sub_bcast a z) i j = get a i j - get1 z j.
Proof.
  intros Hs Hz Hi Hj. unfold get, sub_bcast, get1.
  rewrite (nth_map_lt _ _ _ _ []) by (rewrite (shape_length _ _ _ Hs); lia).
  apply nth_map2; [rewrite (shape_row _ _ _ _ Hs Hi)|]; lia.
Qed.

Lemma zmean_length a : length (zmean a) = (Grid.ny + 1)%nat.
Proof. unfold zmean. now rewrite length_map, length_seq. Qed.

(** The rows averaged by [zmean] are the longitudes [1..nx]. *)
Lemma col_interior a j :
  length a = (Grid.nx + 1)%nat ->
  col (firstn Grid.nx (skipn 1 a)) j = map (fun i => get a i j) (seq 1 Grid.nx).
Proof.
  intros Hl.
  assert (Hlen : length (firstn Grid.nx (skipn 1 a)) = Grid.nx)
    by (rewrite length_firstn, length_skipn; lia).
  apply (nth_ext _ _ 0 0).
  - now rewrite col_length, length_map, length_seq.
  - intros i Hi. rewrite col_length, Hlen in Hi.
    rewrite nth_col.
    rewrite (nth_map_lt _ _ _ _ 0%nat) by now rewrite length_seq.
    rewrite seq_nth by assumption.
    unfold get. rewrite nth_firstn.
    destruct (Nat.ltb_spec i Grid.nx) as [_|]; [|lia].
    now rewrite nth_skipn.
Qed.

Lemma get1_zmean a j :
  length a = (Grid.nx + 1)%nat -> (j <= Grid.ny)%nat ->
  get1 (zmean a) j =
    sum (map (fun i => get a i j) (seq 1 Grid.nx)) / of_nat Grid.nx.
Proof.
  intros Hl Hj. unfold get1, zmean.
  rewrite (nth_map_lt _ _ _ _ 0%nat) by (rewrite length_seq; lia).
  rewrite seq_nth by lia. cbn [Nat.add].
  unfold mean. rewrite col_interior by assumption.
  now rewrite length_map, length_seq.
Qed.

Lemma shape_compose_fold n m a z js t :
  shape n m t -> length a = n ->
  shape n m (fold_left (fun t j => set_col t j (map (fun x => x + get1 z j) (col a j)))
                       js t).
Proof.
  intros Ht Ha. revert t Ht.
  induction js as [|j0 js IH]; intros t Ht; simpl; [exact Ht|].
  apply IH. apply shape_set_col; [exact Ht|].
  now rewrite length_map, col_length.
Qed.

Lemma get_compose_fold n m a z js t i j :
  shape n m t -> length a = n -> (i < n)%nat -> (j < m)%nat ->
  get (fold_left (fun t j => set_col t j (map (fun x => x + get1 z j) (col a j)))
                 js t) i j =
  if existsb (Nat.eqb j) js then get a i j + get1 z j else get t i j.
Proof.
  intros Ht Ha Hi Hj. revert t Ht.
  induction js as [|j0 js IH]; intros t Ht; simpl; [reflexivity|].
  assert (Hv : length (map (fun x => x + get1 z j0) (col a j0)) = n)
    by now rewrite length_map, col_length.
  rewrite IH by now apply shape_set_col.
  destruct (existsb (Nat.eqb j) js); [now rewrite orb_true_r|].
  rewrite orb_false_r.
  rewrite (get_set_col n m) by assumption.
  rewrite (Nat.eqb_sym j j0).
  destruct (Nat.eqb j0 j) eqn:E; [|reflexivity].
  apply Nat.eqb_eq in E. subst j0.
  rewrite (nth_map_lt _ _ _ _ 0) by (rewrite col_length; lia).
  now rewrite nth_col.
Qed.

Lemma existsb_eqb_seq j lo len :
  existsb (Nat.eqb j) (seq lo len) = true <-> (lo <= j < lo + len)%nat.
Proof.
  rewrite existsb_exists. split.
  - intros (k & Hk & E). apply Nat.eqb_eq in E. subst k. now apply in_seq in Hk.
  - intros H. exists j. split; [now apply in_seq|apply Nat.eqb_refl].
Qed.

Lemma get_compose_level t a z i j :
  shape (Grid.nx + 1) (Grid.ny + 1) t -> length a = (Grid.nx + 1)%nat ->
  (i <= Grid.nx)%nat -> (j <= Grid.ny)%nat ->
  get (compose_level t a z) i j = get a i j + get1 z j.
Proof.
  intros Ht Ha Hi Hj. unfold compose_level, for_range.
  rewrite (get_compose_fold (Grid.nx + 1) (Grid.ny + 1)) by (assumption || lia).
  destruct (existsb _ _) eqn:E; [reflexivity|].
  assert (H : existsb (Nat.eqb j) (seq 0 (Grid.ny + 1 - 0)) = true)
    by (apply existsb_eqb_seq; lia).
  congruence.
Qed.

Lemma shape_compose_level t a z :
  shape (Grid.nx + 1) (Grid.ny + 1) t -> length a = (Grid.nx + 1)%nat ->
  shape (Grid.nx + 1) (Grid.ny + 1) (compose_level t a z).
Proof. intros Ht Ha. now apply shape_compose_fold. Qed.

Lemma Qc_sub_add (p q : Qc) : p - q + q = p.
Proof. ring. Qed.

Lemma compose_level_split t :
  shape (Grid.nx + 1) (Grid.ny + 1) t ->
  compose_level t (sub_bcast t (zmean t)) (zmean t) = t.
Proof.
  intros Ht.
  assert (Hsub : shape (Grid.nx + 1) (Grid.ny + 1) (sub_bcast t (zmean t)))
    by (apply shape_sub_bcast; [exact Ht|apply zmean_length]).
  apply (shape_ext (Grid.nx + 1) (Grid.ny + 1)); [|exact Ht|].
  - apply shape_compose_level; [exact Ht|]. exact (shape_length _ _ _ Hsub).
  - intros i j Hi Hj.
    rewrite get_compose_level by (try assumption; try lia; exact (shape_length _ _ _ Hsub)).
    rewrite (get_sub_bcast (Grid.nx + 1) (Grid.ny + 1))
      by (try assumption; apply zmean_length).
    apply Qc_sub_add.
Qed.

(** C3. For every layered field, [split()] takes as zonal mean, at each
    latitude, the mean of the total over the longitudes [1..nx], and as
    anomaly the total minus that mean; recomposing the total as anomaly plus
    zonal mean broadcast over longitude then gives back the original total at
    every grid point of both levels. *)
Theorem split_compose_roundtrip (u : Var) :
  shape (Grid.nx + 1) (Grid.ny + 1) (l1t u) ->
  shape (Grid.nx + 1) (Grid.ny + 1) (l3t u) ->
  (forall j, (j <= Grid.ny)%nat ->
     get1 (l1z (split u)) j =
       sum (map (fun i => get (l1t u) i j) (seq 1 Grid.nx)) / of_nat Grid.nx /\
     get1 (l3z (split u)) j =
       sum (map (fun i => get (l3t u) i j) (seq 1 Grid.nx)) / of_nat Grid.nx) /\
  (forall i j, (i <= Grid.nx)%nat -> (j <= Grid.ny)%nat ->
     get (l1 (split u)) i j = get (l1t u) i j - get1 (l1z (split u)) j /\
     get (l3 (split u)) i j = get (l3t u) i j - get1 (l3z (split u)) j) /\
  (forall i j, (i <= Grid.nx)%nat -> (j <= Grid.ny)%nat ->
     get (l1t (compose (split u))) i j = get (l1t u) i j /\
     get (l3t (compose (split u))) i j = get (l3t u) i j) /\
  l1t (compose (split u)) = l1t u /\
  l3t (compose (split u)) = l3t u.
Proof.
  intros H1 H3.
  assert (E1 : l1t (compose (split u)) = l1t u) by (apply compose_level_split, H1).
  assert (E3 : l3t (compose (split u)) = l3t u) by (apply compose_level_split, H3).
  split; [|split; [|split; [|split]]]; try assumption.
  - intros j Hj. cbn [split calc_zmean l1z l3z l1t l3t]. split; apply get1_zmean;
      try assumption; [exact (shape_length _ _ _ H1)|exact (shape_length _ _ _ H3)].
  - intros i j Hi Hj. cbn [split calc_zmean l1 l3 l1z l3z l1t l3t].
    split; apply (get_sub_bcast (Grid.nx + 1) (Grid.ny + 1));
      try assumption; try lia; apply zmean_length.
  - intros i j _ _. now rewrite E1, E3.
Qed.

Lemma shapeb_shape n m a : shapeb n m a = true -> shape n m a.
Proof.
  unfold shapeb, shape. rewrite andb_true_iff, forallb_forall, Forall_forall.
  intros [Hn Hr]. split; [now apply Nat.eqb_eq|].
  intros r Hin. now apply Nat.eqb_eq, Hr.
Qed.

Lemma split_compose_roundtrip_witness :
  shape (Grid.nx + 1) (Grid.ny + 1) (l1t Model.noise) /\
  shape (Grid.nx + 1) (Grid.ny + 1) (l3t Model.noise) /\
  l1t (compose (split Model.noise)) = l1t Model.noise /\
  l3t (compose (split Model.noise)) = l3t Model.noise.
Proof.
  assert (H1 : shape (Grid.nx + 1) (Grid.ny + 1) (l1t Model.noise))
    by (apply shapeb_shape; vm_compute; reflexivity).
  assert (H3 : shape (Grid.nx + 1) (Grid.ny + 1) (l3t Model.noise))
    by (apply shapeb_shape; vm_compute; reflexivity).
  split; [exact H1|split; [exact H3|]].
  exact (proj2 (proj2 (proj2 (split_compose_roundtrip Model.noise H1 H3)))).
Defined.

(** ** Loops over the interior points *)

Lemma fold_left_inv {A St : Type} (f : St -> A -> St) (I : St -> Prop) l s :
  I s -> (forall s a, In a l -> I s -> I (f s a)) -> I (fold_left f l s).
Proof.
  revert s. induction l as [|a l IH]; intros s Hs Hf; simpl; [exact Hs|].
  apply IH.
  - apply Hf; [now left|exact Hs].
  - intros s' a' Hin. apply Hf. now right.
Qed.

Lemma for_range_nest {St : Type} (f : nat -> nat -> St -> St) nx ny st :
  for_range 1 ny (fun j => for_range 1 (nx + 1) (fun i => f j i)) st =
  fold_left (fun st p => f (fst p) (snd p) st) (interior nx ny) st.
Proof.
  unfold for_range, interior.
  replace (nx + 1 - 1)%nat with nx by lia.
  generalize (seq 1 (ny - 1)) as js. intros js. revert st.
  induction js as [|j js IH]; intros st; simpl; [reflexivity|].
  rewrite fold_left_app, <- IH. f_equal.
  generalize (seq 1 nx) as l. intros l. revert st.
  induction l as [|i l IHl]; intros st; simpl; [reflexivity|apply IHl].
Qed.

Lemma in_interior nx ny j i :
  In (j, i) (interior nx ny) <-> is_interior nx ny i j.
Proof.
  unfold interior, is_interior. rewrite in_flat_map. split.
  - intros (j' & Hj & Hi). apply in_map_iff in Hi.
    destruct Hi as (i' & E & Hi). inversion E; subst.
    apply in_seq in Hj. apply in_seq in Hi. lia.
  - intros [Hi Hj]. exists j. split; [apply in_seq; lia|].
    apply in_map_iff. exists i. split; [reflexivity|apply in_seq; lia].
Qed.

Lemma get_fill_zero a i j : get (fill a 0) i j = 0.
Proof.
  unfold get, fill.
  destruct (Nat.lt_ge_cases i (length a)) as [Hi|Hi].
  - rewrite (nth_map_lt _ _ _ _ []) by assumption.
    destruct (Nat.lt_ge_cases j (length (nth i a []))) as [Hj|Hj].
    + now rewrite (nth_map_lt _ _ _ _ 0).
    + apply nth_overflow. now rewrite length_map.
  - rewrite (nth_overflow (map _ a)) by now rewrite length_map.
    now destruct j.
Qed.

(** ** The explicit tendency *)

Lemma xcalc_nb_point_other v1t v3t vm1t vm3t s1t s3t dt nx ny
    epsq alpha b c h k gamma j i x i' j' :
  (i, j) <> (i', j') ->
  let x' := xcalc_nb_point v1t v3t vm1t vm3t s1t s3t dt nx ny
                           epsq alpha b c h k gamma j i x in
  get (fst x') i' j' = get (fst x) i' j' /\ get (snd x') i' j' = get (snd x) i' j'.
Proof.
  intros Hne. cbn [xcalc_nb_point fst snd]. cbv zeta.
  now rewrite !get_aset_other by assumption.
Qed.

(** What [xcalc_nb] leaves outside the interior points: the zero written by
    [x1t[:] = 0.0] and [x3t[:] = 0.0]. *)
Lemma xcalc_nb_outside v1t v3t vm1t vm3t s1t s3t x1t x3t dt nx ny
    epsq alpha b c h k gamma i j :
  ~ is_interior nx ny i j ->
  let x' := xcalc_nb v1t v3t vm1t vm3t s1t s3t x1t x3t dt nx ny
                     epsq alpha b c h k gamma in
  get (fst x') i j = 0 /\ get (snd x') i j = 0.
Proof.
  intros Hout. unfold xcalc_nb. rewrite for_range_nest, lit_zero.
  apply fold_left_inv with
    (I := fun x => get (fst x) i j = 0 /\ get (snd x) i j = 0).
  - cbn [fst snd]. now rewrite !get_fill_zero.
  - intros x [j0 i0] Hin [H1 H3]. apply in_interior in Hin. cbn [fst snd].
    assert (Hne : (i0, j0) <> (i, j)) by (intros E; inversion E; subst; tauto).
    destruct (xcalc_nb_point_other v1t v3t vm1t vm3t s1t s3t dt nx ny
                epsq alpha b c h k gamma j0 i0 x i j Hne) as [E1 E3].
    now rewrite E1, E3.
Qed.

Lemma not_interior_row0 nx ny i : ~ is_interior nx ny i 0.
Proof. unfold is_interior. lia. Qed.

Lemma not_interior_rowny nx ny i : ~ is_interior nx ny i ny.
Proof. unfold is_interior. lia. Qed.

(** C4, as the code has it.  [xcalc_nb] (and the method [xcalc], which runs
    the same loops) first resets the whole tendency arrays to zero and then
    assigns the interior points [1 <= i <= nx], [1 <= j <= ny-1] only: after
    the call every other entry, in particular the latitude rows [0] and [ny],
    holds zero whatever it held before, so the rows [0] and [ny] are
    unchanged exactly where they already held zero. *)
Theorem xcalc_nb_resets_end_rows
    (v1t v3t vm1t vm3t s1t s3t x1t x3t : arr2) (dt : Qc) (nx ny : nat)
    (epsq alpha b c h k gamma : Qc) :
  let x' := xcalc_nb v1t v3t vm1t vm3t s1t s3t x1t x3t dt nx ny
                     epsq alpha b c h k gamma in
  (forall i j, ~ is_interior nx ny i j ->
     get (fst x') i j = 0 /\ get (snd x') i j = 0) /\
  (forall i,
     get (fst x') i 0 = 0 /\ get (fst x') i ny = 0 /\
     get (snd x') i 0 = 0 /\ get (snd x') i ny = 0) /\
  (forall i,
     (get (fst x') i 0 = get x1t i 0 <-> get x1t i 0 = 0) /\
     (get (fst x') i ny = get x1t i ny <-> get x1t i ny = 0) /\
     (get (snd x') i 0 = get x3t i 0 <-> get x3t i 0 = 0) /\
     (get (snd x') i ny = get x3t i ny <-> get x3t i ny = 0)) /\
  (forall v vm s x,
     l1t (Model.xcalc v vm s dt x) =
       fst (xcalc_nb (l1t v) (l3t v) (l1t vm) (l3t vm) (l1t s) (l3t s) (l1t x) (l3t x)
              dt Grid.nx Grid.ny Model.epsq (Model.a * dt / sq Grid.dx)
              (Model.beta * sq Grid.dx * Grid.dy) (dt / (lit 2.0 * Grid.dx * Grid.dy))
              (lit 4 * Model.rgas * Model.heat * Model.gamma * dt / (Model.f0 * Model.cp))
              Model.k Model.gamma) /\
     forall i, get (l1t (Model.xcalc v vm s dt x)) i 0 = 0 /\
               get (l1t (Model.xcalc v vm s dt x)) i Grid.ny = 0 /\
               get (l3t (Model.xcalc v vm s dt x)) i 0 = 0 /\
               get (l3t (Model.xcalc v vm s dt x)) i Grid.ny = 0).
Proof.
  intros x'.
  assert (Hout : forall i j, ~ is_interior nx ny i j ->
            get (fst x') i j = 0 /\ get (snd x') i j = 0)
    by (intros i j; apply xcalc_nb_outside).
  assert (Hrows : forall i,
            get (fst x') i 0 = 0 /\ get (fst x') i ny = 0 /\
            get (snd x') i 0 = 0 /\ get (snd x') i ny = 0).
  { intros i.
    destruct (Hout i 0%nat (not_interior_row0 nx ny i)) as [A B].
    destruct (Hout i ny (not_interior_rowny nx ny i)) as [C D]. tauto. }
  split; [exact Hout|split; [exact Hrows|split]].
  - intros i. destruct (Hrows i) as (A & B & C & D).
    rewrite A, B, C, D. repeat split; intros E; now rewrite E.
  - intros v vm s x. split; [reflexivity|]. intros i.
    cbn [Model.xcalc Model.with_l1t_l3t l1t l3t].
    repeat split; apply xcalc_nb_outside;
      (apply not_interior_row0 || apply not_interior_rowny).
Qed.

(** C4 as stated fails: a tendency array that holds 1 at longitude 1 of the
    latitude row 0 holds 0 there after [xcalc], here from a model at rest
    with the regular time step. *)
Lemma xcalc_rewrites_row0 :
  let x := Model.with_l1t_l3t new_Var
             (aset (zeros (Grid.nx + 1) (Grid.ny + 1)) 1 0 1)
             (zeros (Grid.nx + 1) (Grid.ny + 1)) in
  get (l1t x) 1 0 = 1 /\
  get (l1t (Model.xcalc new_Var new_Var new_Var Model.dt2 x)) 1 0 <> get (l1t x) 1 0.
Proof.
  cbv zeta. split.
  - apply Qc_is_canon. vm_compute. reflexivity.
  - intros H. apply (f_equal this) in H. vm_compute in H. discriminate H.
Qed.

(** ** Loops with [break] *)

Lemma for_break_from {St : Type} (body : nat -> St -> St * bool) (s : St) (N lo : nat) :
  (0 < N)%nat ->
  (forall k, (k < lo)%nat -> stops body k s = false) ->
  exists n, (lo <= n < lo + N)%nat /\
    for_break body (seq lo N) (passes body lo s) = passes body (S n) s /\
    (forall k, (k < n)%nat -> stops body k s = false) /\
    ((n < lo + N - 1)%nat -> stops body n s = true).
Proof.
  revert lo. induction N as [|N IH]; intros lo HN Hlo; [lia|].
  cbn [seq for_break].
  destruct (body lo (passes body lo s)) as [s' stop] eqn:E.
  assert (Es : passes body (S lo) s = s') by (cbn [passes]; now rewrite E).
  assert (Et : stops body lo s = stop) by (unfold stops; now rewrite E).
  destruct stop.
  - exists lo. repeat split; try lia; auto.
  - destruct N as [|N'].
    + exists lo. cbn [seq for_break]. repeat split; try lia; auto.
    + rewrite <- Es.
      destruct (IH (S lo)) as (n & Hn & Hfb & Hbefore & Hstop); [lia| |].
      * intros k Hk. destruct (Nat.eq_dec k lo) as [->|]; [exact Et|apply Hlo; lia].
      * exists n. repeat split; try lia; auto.
        intros Hlt. apply Hstop. lia.
Qed.

(** A loop over [range(N)] runs the passes [0..n] for the first [n] whose
    pass leaves the loop, or all [N] passes. *)
Lemma for_break_range {St : Type} (body : nat -> St -> St * bool) (s : St) (N : nat) :
  (0 < N)%nat ->
  exists n, (n < N)%nat /\
    for_break body (seq 0 N) s = passes body (S n) s /\
    (forall k, (k < n)%nat -> stops body k s = false) /\
    ((n < N - 1)%nat -> stops body n s = true).
Proof.
  intros HN.
  destruct (for_break_from body s N 0 HN) as (n & Hn & H1 & H2 & H3); [lia|].
  exists n. repeat split; try lia; auto.
Qed.

(** ** Sums *)

Lemma fold_left_Qcplus (l : list Qc) (a : Qc) : fold_left Qcplus l a = a + sum l.
Proof.
  unfold sum. revert a. induction l as [|h t IH]; intros a; simpl.
  - ring.
  - rewrite IH, (IH (0 + h)). ring.
Qed.

Lemma sum_nil : sum [] = 0.
Proof. reflexivity. Qed.

Lemma sum_cons (h : Qc) (t : list Qc) : sum (h :: t) = h + sum t.
Proof. unfold sum at 1. simpl. rewrite fold_left_Qcplus. ring. Qed.

Lemma sum_app (l l' : list Qc) : sum (l ++ l') = sum l + sum l'.
Proof.
  induction l as [|h t IH]; simpl.
  - rewrite sum_nil. ring.
  - rewrite !sum_cons, IH. ring.
Qed.

Lemma sum_concat (ls : list (list Qc)) : sum (concat ls) = sum (map sum ls).
Proof.
  induction ls as [|l ls IH]; simpl; [reflexivity|].
  now rewrite sum_app, sum_cons, IH.
Qed.

Lemma Qcle_plus (p q r t : Qc) : p <= q -> r <= t -> p + r <= q + t.
Proof. apply Qcplus_le_compat. Qed.

Lemma sum_map_le {A} (f g : A -> Qc) (l : list A) :
  (forall a, In a l -> f a <= g a) -> sum (map f l) <= sum (map g l).
Proof.
  induction l as [|h t IH]; intros H; simpl.
  - apply Qcle_refl.
  - rewrite !sum_cons. apply Qcle_plus.
    + apply H. now left.
    + apply IH. intros a Ha. apply H. now right.
Qed.

Lemma sq_nonneg (p : Qc) : 0 <= sq p.
Proof. qc2q. nra. Qed.

Lemma Qcle_add_nonneg (p q : Qc) : 0 <= q -> p <= p + q.
Proof. intros H. qc2q. lra. Qed.

(** ** The relaxation for the anomaly vorticity *)

Section Relax2.

Variables (x1 x3 : arr2) (dt : Qc) (nx ny : nat) (alpha epsq k : Qc).

Let point := relax2_nb_point x1 x3 dt nx alpha epsq k.

Lemma relax2_nb_point_eq j i st :
  point j i st =
  mkRelax2 (r2_v1 st) (r2_v3 st)
    (aset (r2_temp1 st) i j (relax2_value1 (r2_v1 st) x1 nx alpha epsq i j))
    (aset (r2_temp3 st) i j (relax2_value3 (r2_v3 st) x3 dt nx alpha epsq k i j))
    (r2_iter st).
Proof. reflexivity. Qed.

(** A pass over any list of points inside the arrays leaves the iterate
    alone and gives each listed point the value read off that iterate. *)
Lemma relax2_sweep_spec n m order st :
  shape n m (r2_temp1 st) -> shape n m (r2_temp3 st) ->
  (forall p, In p order -> (snd p < n)%nat /\ (fst p < m)%nat) ->
  let st' := relax2_sweep point order st in
  r2_v1 st' = r2_v1 st /\ r2_v3 st' = r2_v3 st /\ r2_iter st' = r2_iter st /\
  shape n m (r2_temp1 st') /\ shape n m (r2_temp3 st') /\
  (forall i j, In (j, i) order ->
     get (r2_temp1 st') i j = relax2_value1 (r2_v1 st) x1 nx alpha epsq i j /\
     get (r2_temp3 st') i j = relax2_value3 (r2_v3 st) x3 dt nx alpha epsq k i j) /\
  (forall i j, ~ In (j, i) order ->
     get (r2_temp1 st') i j = get (r2_temp1 st) i j /\
     get (r2_temp3 st') i j = get (r2_temp3 st) i j).
Proof.
  unfold relax2_sweep. revert st.
  induction order as [|[j0 i0] order IH]; intros st H1 H3 Hin; cbn [fold_left].
  - splits; auto. intros i j H. destruct H.
  - cbn [fst snd]. rewrite relax2_nb_point_eq.
    set (st1 := mkRelax2 _ _ _ _ _).
    destruct (Hin (j0, i0) (or_introl eq_refl)) as [Hi0 Hj0]. cbn [fst snd] in Hi0, Hj0.
    destruct (IH st1) as (E1 & E3 & Ei & S1 & S3 & Hin' & Hout').
    + now apply shape_aset.
    + now apply shape_aset.
    + intros p Hp. apply Hin. now right.
    + cbn [r2_v1 r2_v3 r2_iter r2_temp1 r2_temp3 st1] in *.
      splits; auto; intros i j H; split.
      * destruct (in_dec (fun p q : nat * nat =>
                   ltac:(decide equality; apply Nat.eq_dec) : {p = q} + {p <> q})
                   (j, i) order) as [Hy|Hn].
        -- now apply Hin'.
        -- destruct H as [E|H]; [|tauto]. inversion E; subst.
           destruct (Hout' i j Hn) as [-> _]. now apply (get_aset_same n m).
      * destruct (in_dec (fun p q : nat * nat =>
                   ltac:(decide equality; apply Nat.eq_dec) : {p = q} + {p <> q})
                   (j, i) order) as [Hy|Hn].
        -- now apply Hin'.
        -- destruct H as [E|H]; [|tauto]. inversion E; subst.
           destruct (Hout' i j Hn) as [_ ->]. now apply (get_aset_same n m).
      * destruct (Hout' i j) as [-> _]; [intros C; apply H; now right|].
        apply get_aset_other. intros E; inversion E; subst. apply H. now left.
      * destruct (Hout' i j) as [_ ->]; [intros C; apply H; now right|].
        apply get_aset_other. intros E; inversion E; subst. apply H. now left.
Qed.

Lemma interior_in_bounds p :
  In p (interior nx ny) -> (snd p < nx + 1)%nat /\ (fst p < ny + 1)%nat.
Proof.
  destruct p as [j i]. intros H. apply in_interior in H.
  unfold is_interior in H. cbn [fst snd]. lia.
Qed.

(** The order of the visits does not matter to a pass of [relax2_nb]. *)
Lemma relax2_sweep_permutation order st :
  shape (nx + 1) (ny + 1) (r2_temp1 st) -> shape (nx + 1) (ny + 1) (r2_temp3 st) ->
  Permutation (interior nx ny) order ->
  relax2_sweep point order st = relax2_sweep point (interior nx ny) st.
Proof.
  intros H1 H3 Hp.
  destruct (relax2_sweep_spec (nx + 1) (ny + 1) order st H1 H3)
    as (A1 & A3 & Ai & SA1 & SA3 & Ain & Aout).
  { intros p Hin. apply interior_in_bounds.
    eapply Permutation_in; [apply Permutation_sym, Hp|exact Hin]. }
  destruct (relax2_sweep_spec (nx + 1) (ny + 1) (interior nx ny) st H1 H3
              interior_in_bounds)
    as (B1 & B3 & Bi & SB1 & SB3 & Bin & Bout).
  cbv zeta in *.
  destruct (relax2_sweep point order st) as [a1 a3 at1 at3 ai].
  destruct (relax2_sweep point (interior nx ny) st) as [b1 b3 bt1 bt3 bi].
  cbn [r2_v1 r2_v3 r2_iter r2_temp1 r2_temp3] in *.
  assert (forall i j, get at1 i j = get bt1 i j /\ get at3 i j = get bt3 i j) as Hget.
  { intros i j.
    destruct (in_dec (fun p q : nat * nat =>
                ltac:(decide equality; apply Nat.eq_dec) : {p = q} + {p <> q})
                (j, i) (interior nx ny)) as [Hy|Hn].
    - destruct (Bin i j Hy) as [-> ->]. apply Ain.
      eapply Permutation_in; [exact Hp|exact Hy].
    - destruct (Bout i j Hn) as [-> ->]. apply Aout.
      intros Hin. apply Hn.
      eapply Permutation_in; [apply Permutation_sym, Hp|exact Hin]. }
  f_equal; try congruence.
  - apply (shape_ext (nx + 1) (ny + 1)); auto. intros i j _ _. apply Hget.
  - apply (shape_ext (nx + 1) (ny + 1)); auto. intros i j _ _. apply Hget.
Qed.

End Relax2.

(** *** The convergence test of [relax2_nb] *)

Lemma nth_tail_block a i j :
  nth j (nth i (tail_block a) []) 0 = get a (S i) (S j).
Proof.
  unfold tail_block, get.
  destruct (Nat.lt_ge_cases i (length (skipn 1 a))) as [Hi|Hi].
  - rewrite (nth_map_lt _ _ _ _ []) by assumption.
    now rewrite !nth_skipn.
  - rewrite (nth_overflow (map _ _)) by now rewrite length_map.
    rewrite length_skipn in Hi.
    rewrite (nth_overflow a) by lia. now destruct j.
Qed.

Lemma tail_block_length n m a : shape n m a -> length (tail_block a) = (n - 1)%nat.
Proof.
  intros [Hn _]. unfold tail_block. now rewrite length_map, length_skipn, Hn.
Qed.

Lemma tail_block_row n m a i :
  shape n m a -> (i < n - 1)%nat -> length (nth i (tail_block a) []) = (m - 1)%nat.
Proof.
  intros Hs Hi. unfold tail_block.
  rewrite (nth_map_lt _ _ _ _ []) by (rewrite length_skipn, (shape_length _ _ _ Hs); lia).
  rewrite length_skipn, nth_skipn. rewrite (shape_row _ _ _ _ Hs); [reflexivity|lia].
Qed.

(** [change_of] sums over the longitudes [1..nx] and the latitudes
    [1..ny]: the interior rows and the end row [ny]. *)
Lemma change_of_sum nx ny v temp :
  shape (nx + 1) (ny + 1) v -> shape (nx + 1) (ny + 1) temp ->
  change_of v temp =
  sum (map (fun i => sum (map (fun j => sq (get v i j - get temp i j)) (seq 1 ny)))
           (seq 1 nx)).
Proof.
  intros Hv Ht. unfold change_of. rewrite sum_concat. f_equal.
  rewrite <- (map_map (fun i => map (fun j => sq (get v i j - get temp i j)) (seq 1 ny)) sum).
  f_equal.
  apply (nth_ext _ _ [] []).
  - rewrite map2_length, (tail_block_length _ _ _ Hv), (tail_block_length _ _ _ Ht).
    rewrite length_map, length_seq. lia.
  - intros i Hi.
    rewrite map2_length, (tail_block_length _ _ _ Hv), (tail_block_length _ _ _ Ht) in Hi.
    rewrite (nth_map2 _ _ _ _ [] [])
      by (rewrite ?(tail_block_length _ _ _ Hv), ?(tail_block_length _ _ _ Ht); lia).
    rewrite (nth_map_lt _ _ _ _ 0%nat) by (rewrite length_seq; lia).
    rewrite seq_nth by lia.
    apply (nth_ext _ _ 0 0).
    + rewrite map2_length, (tail_block_row _ _ _ _ Hv), (tail_block_row _ _ _ _ Ht) by lia.
      rewrite length_map, length_seq. lia.
    + intros j Hj.
      rewrite map2_length, (tail_block_row _ _ _ _ Hv), (tail_block_row _ _ _ _ Ht) in Hj
        by lia.
      rewrite (nth_map2 _ _ _ _ 0 0)
        by (rewrite ?(tail_block_row _ _ _ _ Hv), ?(tail_block_row _ _ _ _ Ht); lia).
      rewrite (nth_map_lt _ _ _ _ 0%nat) by (rewrite length_seq; lia).
      rewrite seq_nth by lia.
      now rewrite !nth_tail_block.
Qed.

Lemma change_interior_le nx ny v temp :
  shape (nx + 1) (ny + 1) v -> shape (nx + 1) (ny + 1) temp ->
  change_interior nx ny v temp <= change_of v temp.
Proof.
  intros Hv Ht. rewrite (change_of_sum nx ny) by assumption.
  unfold change_interior. apply sum_map_le. intros i _.
  destruct ny as [|ny']; [apply Qcle_refl|].
  replace (S ny' - 1)%nat with ny' by lia.
  rewrite seq_S, map_app, sum_app. cbn [map].
  apply Qcle_add_nonneg. rewrite sum_cons, sum_nil.
  eapply Qcle_trans; [apply sq_nonneg|]. apply Qcle_add_nonneg, Qcle_refl.
Qed.

Lemma shape_set_col_scalar n m a j c :
  shape n m a -> shape n m (set_col_scalar a j c).
Proof.
  intros [Hn Hr]. unfold set_col_scalar. split.
  - now rewrite length_map.
  - apply Forall_map. eapply Forall_impl; [|exact Hr].
    intros r Hl. cbn beta in *. now rewrite upd_length.
Qed.

Lemma shape_end_rows n m ny a : shape n m a -> shape n m (end_rows ny a).
Proof. intros H. unfold end_rows. now do 2 apply shape_set_col_scalar. Qed.

Lemma shape_assign_interior_rows n ny v temp :
  (1 <= ny)%nat -> shape n (ny + 1) v -> shape n (ny + 1) temp ->
  shape n (ny + 1) (assign_interior_rows ny v temp).
Proof.
  intros Hny [Hn Hr] [Hn' Hr']. unfold assign_interior_rows. split.
  - rewrite map2_length. lia.
  - clear Hn Hn'. revert temp Hr'.
    induction Hr as [|r t Hl Ht IH]; intros [|r' t'] Hr'; cbn [map2]; constructor.
    + inversion Hr'; subst. cbn beta in *.
      rewrite !length_app, !length_firstn, !length_skipn. lia.
    + apply IH. now inversion Hr'.
Qed.

Section Relax2Loop.

Variables (x1 x3 : arr2) (dt : Qc) (nx ny : nat) (alpha epsq k : Qc).

Let point := relax2_nb_point x1 x3 dt nx alpha epsq k.
Let body := relax2_body point nx ny.

Lemma relax2_sweep_frame order st :
  let st' := relax2_sweep point order st in
  r2_v1 st' = r2_v1 st /\ r2_v3 st' = r2_v3 st /\ r2_iter st' = r2_iter st.
Proof.
  unfold relax2_sweep.
  apply fold_left_inv with
    (I := fun s => r2_v1 s = r2_v1 st /\ r2_v3 s = r2_v3 st /\ r2_iter s = r2_iter st).
  - auto.
  - intros s p _ H. exact H.
Qed.

Lemma relax2_sweep_shape n m order st :
  shape n m (r2_temp1 st) -> shape n m (r2_temp3 st) ->
  shape n m (r2_temp1 (relax2_sweep point order st)) /\
  shape n m (r2_temp3 (relax2_sweep point order st)).
Proof.
  intros H1 H3. unfold relax2_sweep.
  apply fold_left_inv with
    (I := fun s => shape n m (r2_temp1 s) /\ shape n m (r2_temp3 s)).
  - auto.
  - intros s p _ [A B]. split; now apply shape_aset.
Qed.

(** A pass of the loop: the point loops, the two sums, the copy of the
    interior rows and the end rows, and the test. *)
Lemma relax2_body_eq iter st :
  body iter st =
  let st1 := relax2_sweep point (interior nx ny)
               (mkRelax2 (r2_v1 st) (r2_v3 st) (r2_temp1 st) (r2_temp3 st) iter) in
  (mkRelax2 (end_rows ny (assign_interior_rows ny (r2_v1 st) (r2_temp1 st1)))
            (end_rows ny (assign_interior_rows ny (r2_v3 st) (r2_temp3 st1)))
            (r2_temp1 st1) (r2_temp3 st1) iter,
   Qcltb (pymax (change_of (r2_v1 st) (r2_temp1 st1))
                (change_of (r2_v3 st) (r2_temp3 st1))) (lit 1.0)).
Proof.
  unfold body, relax2_body. rewrite for_range_nest.
  cbv zeta.
  destruct (relax2_sweep_frame (interior nx ny)
              (mkRelax2 (r2_v1 st) (r2_v3 st) (r2_temp1 st) (r2_temp3 st) iter))
    as (E1 & E3 & _).
  cbv zeta in E1, E3. cbn [r2_v1 r2_v3] in E1, E3.
  unfold relax2_sweep in *. now rewrite E1, E3.
Qed.

Variables v1 v3 : arr2.

Let init := relax2_init nx ny v1 v3.

Lemma relax2_loop_eq :
  relax2_loop x1 x3 dt nx ny alpha epsq k v1 v3 = for_break body (seq 0 100) init.
Proof. reflexivity. Qed.

(** The loop runs the passes [0..n] for some [n < 100]: the first one
    whose test succeeds, or all hundred. *)
Lemma relax2_loop_spec :
  exists n, (n < 100)%nat /\
    relax2_loop x1 x3 dt nx ny alpha epsq k v1 v3 = passes body (S n) init /\
    (forall j, (j < n)%nat -> stops body j init = false) /\
    ((n < 99)%nat -> stops body n init = true).
Proof.
  rewrite relax2_loop_eq.
  destruct (for_break_range body init 100) as (n & Hn & H1 & H2 & H3); [lia|].
  exists n. repeat split; auto.
Qed.

Lemma relax2_passes_iter n : r2_iter (passes body (S n) init) = n.
Proof. cbn [passes]. now rewrite relax2_body_eq. Qed.

Hypothesis Hny : (1 <= ny)%nat.
Hypothesis Hv1 : shape (nx + 1) (ny + 1) v1.
Hypothesis Hv3 : shape (nx + 1) (ny + 1) v3.

Lemma relax2_passes_shape n :
  let st := passes body n init in
  shape (nx + 1) (ny + 1) (r2_v1 st) /\ shape (nx + 1) (ny + 1) (r2_v3 st) /\
  shape (nx + 1) (ny + 1) (r2_temp1 st) /\ shape (nx + 1) (ny + 1) (r2_temp3 st).
Proof.
  induction n as [|n IH]; cbn [passes].
  - unfold init, relax2_init. cbn [r2_v1 r2_v3 r2_temp1 r2_temp3].
    splits; auto using shape_fill, shape_zeros.
  - destruct IH as (A & B & C & D). rewrite relax2_body_eq. cbv zeta.
    cbn [fst r2_v1 r2_v3 r2_temp1 r2_temp3].
    destruct (relax2_sweep_shape (nx + 1) (ny + 1) (interior nx ny)
                (mkRelax2 (r2_v1 (passes body n init)) (r2_v3 (passes body n init))
                          (r2_temp1 (passes body n init))
                          (r2_temp3 (passes body n init)) n)) as [S1 S3]; auto.
    splits; auto using shape_end_rows, shape_assign_interior_rows.
Qed.

(** The test of pass [n] compares the iterate before the pass with the
    values computed by the pass. *)
Lemma relax2_stops_eq n :
  stops body n init =
  Qcltb (pymax (change_of (r2_v1 (passes body n init))
                          (r2_temp1 (passes body (S n) init)))
               (change_of (r2_v3 (passes body n init))
                          (r2_temp3 (passes body (S n) init)))) (lit 1.0).
Proof. unfold stops. cbn [passes]. now rewrite relax2_body_eq. Qed.

(** A pass whose test succeeds has changed the interior points by less
    than 1 in the sum of squares, on both levels. *)
Lemma relax2_stops_interior n :
  stops body n init = true ->
  change_interior nx ny (r2_v1 (passes body n init))
                        (r2_temp1 (passes body (S n) init)) < lit 1.0 /\
  change_interior nx ny (r2_v3 (passes body n init))
                        (r2_temp3 (passes body (S n) init)) < lit 1.0.
Proof.
  rewrite relax2_stops_eq. intros H. apply Qcltb_lt, pymax_lt in H.
  destruct H as [H1 H3].
  destruct (relax2_passes_shape n) as (A & B & _).
  destruct (relax2_passes_shape (S n)) as (_ & _ & C & D).
  split; (eapply Qcle_lt_trans; [apply change_interior_le|]); eassumption.
Qed.

End Relax2Loop.

(** In a pass of [relax2_nb] every interior point gets a value computed from
    the iterate of the previous pass alone, and the pass gives the same
    result in whatever order the interior points are visited. *)
Theorem relax2_nb_sweep_order_independent
    (x1 x3 : arr2) (dt : Qc) (nx ny : nat) (alpha epsq k : Qc)
    (order : list (nat * nat)) (st : Relax2) :
  shape (nx + 1) (ny + 1) (r2_temp1 st) ->
  shape (nx + 1) (ny + 1) (r2_temp3 st) ->
  Permutation (interior nx ny) order ->
  let point := relax2_nb_point x1 x3 dt nx alpha epsq k in
  relax2_sweep point order st = relax2_sweep point (interior nx ny) st /\
  r2_v1 (relax2_sweep point order st) = r2_v1 st /\
  r2_v3 (relax2_sweep point order st) = r2_v3 st /\
  (forall i j, is_interior nx ny i j ->
     get (r2_temp1 (relax2_sweep point order st)) i j =
       relax2_value1 (r2_v1 st) x1 nx alpha epsq i j /\
     get (r2_temp3 (relax2_sweep point order st)) i j =
       relax2_value3 (r2_v3 st) x3 dt nx alpha epsq k i j).
Proof.
  intros H1 H3 Hp point.
  destruct (relax2_sweep_spec x1 x3 dt nx alpha epsq k (nx + 1) (ny + 1) order st H1 H3)
    as (A1 & A3 & _ & _ & _ & Ain & _).
  { intros p Hin. apply interior_in_bounds.
    eapply Permutation_in; [apply Permutation_sym, Hp|exact Hin]. }
  splits; auto.
  - now apply relax2_sweep_permutation.
  - intros i j Hij. apply Ain. eapply Permutation_in; [exact Hp|].
    now apply in_interior.
Qed.

Lemma relax2_nb_sweep_order_independent_witness :
  let st := relax2_init Grid.nx Grid.ny (l1 new_Var) (l3 new_Var) in
  let point := relax2_nb_point (l1t Model.noise) (l3t Model.noise) Model.dt2 Grid.nx
                 (Model.a * Model.dt2 / sq Grid.dx) Model.epsq Model.k in
  relax2_sweep point (rev (interior Grid.nx Grid.ny)) st =
  relax2_sweep point (interior Grid.nx Grid.ny) st.
Proof.
  intros st point.
  refine (proj1 (relax2_nb_sweep_order_independent _ _ _ Grid.nx Grid.ny _ _ _
                   (rev (interior Grid.nx Grid.ny)) st _ _ _)).
  - apply shape_zeros.
  - apply shape_zeros.
  - apply Permutation_rev.
Defined.

(** C9. [relax2_nb] starts from zero whatever the anomaly vorticity arrays
    hold on entry: two calls that differ only in the incoming contents of
    these arrays return the same anomaly vorticity, and so does the method
    [relax2]. *)
Theorem relax2_nb_ignores_incoming
    (v1 v3 v1' v3' x1 x3 : arr2) (dt : Qc) (nx ny : nat) (alpha epsq k : Qc) :
  shape (nx + 1) (ny + 1) v1 -> shape (nx + 1) (ny + 1) v3 ->
  shape (nx + 1) (ny + 1) v1' -> shape (nx + 1) (ny + 1) v3' ->
  relax2_nb v1 v3 x1 x3 dt nx ny alpha epsq k =
  relax2_nb v1' v3' x1 x3 dt nx ny alpha epsq k /\
  (forall x u u',
     l1 u = v1 -> l3 u = v3 -> l1 u' = v1' -> l3 u' = v3' ->
     nx = Grid.nx -> ny = Grid.ny ->
     l1 (Model.relax2 x dt u) = l1 (Model.relax2 x dt u') /\
     l3 (Model.relax2 x dt u) = l3 (Model.relax2 x dt u')).
Proof.
  intros H1 H3 H1' H3'.
  assert (E : forall x1 x3 alpha epsq k,
            relax2_nb v1 v3 x1 x3 dt nx ny alpha epsq k =
            relax2_nb v1' v3' x1 x3 dt nx ny alpha epsq k).
  { intros. unfold relax2_nb, relax2_loop. cbv zeta.
    now rewrite !(fill_zeros (nx + 1) (ny + 1)) by assumption. }
  split; [apply E|].
  intros x u u' <- <- E1 E3 -> ->. unfold Model.relax2. cbv zeta.
  cbn [Model.with_l1_l3 l1 l3]. rewrite E1, E3, E. now split.
Qed.

Lemma relax2_nb_ignores_incoming_witness :
  shape (Grid.nx + 1) (Grid.ny + 1) (zeros (Grid.nx + 1) (Grid.ny + 1)) /\
  shape (Grid.nx + 1) (Grid.ny + 1) (l1t Model.noise) /\
  relax2_nb (zeros (Grid.nx + 1) (Grid.ny + 1)) (zeros (Grid.nx + 1) (Grid.ny + 1))
            (l1t Model.noise) (l3t Model.noise) Model.dt2 Grid.nx Grid.ny
            (Model.a * Model.dt2 / sq Grid.dx) Model.epsq Model.k =
  relax2_nb (l1t Model.noise) (l3t Model.noise)
            (l1t Model.noise) (l3t Model.noise) Model.dt2 Grid.nx Grid.ny
            (Model.a * Model.dt2 / sq Grid.dx) Model.epsq Model.k.
Proof.
  assert (Hz : shape (Grid.nx + 1) (Grid.ny + 1) (zeros (Grid.nx + 1) (Grid.ny + 1)))
    by apply shape_zeros.
  assert (H1 : shape (Grid.nx + 1) (Grid.ny + 1) (l1t Model.noise))
    by (apply shapeb_shape; vm_compute; reflexivity).
  assert (H3 : shape (Grid.nx + 1) (Grid.ny + 1) (l3t Model.noise))
    by (apply shapeb_shape; vm_compute; reflexivity).
  split; [exact Hz|split; [exact H1|]].
  exact (proj1 (relax2_nb_ignores_incoming _ _ _ _ _ _ _ Grid.nx Grid.ny _ _ _
                  Hz Hz H1 H3)).
Defined.

(** The loop of [relax2_nb] is capped and has no [raise] behind it: with
    denominators that are not zero (a zero one makes the compiled code
    raise [ZeroDivisionError] at the first point) it returns the iterate of
    the last pass it ran, after at most 100 passes.  It leaves the loop at
    the first pass that passes the test of the loop, and such a pass has
    changed the interior points by less than 1.0 in the sum of squares on
    both levels; when no pass does, it returns the iterate of the hundredth
    pass like any other. *)
Theorem relax2_nb_returns_within_cap
    (v1 v3 x1 x3 : arr2) (dt : Qc) (nx ny : nat) (alpha epsq k : Qc) :
  lit 2 * alpha * (lit 1.0 + epsq) + lit 1.0 <> 0 ->
  lit 2 * alpha * (lit 1.0 + epsq) + lit 1.0 + lit 1.5 * k * dt <> 0 ->
  (1 <= ny)%nat ->
  shape (nx + 1) (ny + 1) v1 -> shape (nx + 1) (ny + 1) v3 ->
  let body := relax2_body (relax2_nb_point x1 x3 dt nx alpha epsq k) nx ny in
  let init := relax2_init nx ny v1 v3 in
  exists n, (n < 100)%nat /\
    relax2_nb v1 v3 x1 x3 dt nx ny alpha epsq k =
      (r2_v1 (passes body (S n) init), r2_v3 (passes body (S n) init)) /\
    r2_iter (relax2_loop x1 x3 dt nx ny alpha epsq k v1 v3) = n /\
    (forall j, (j < n)%nat -> stops body j init = false) /\
    ((n < 99)%nat ->
       stops body n init = true /\
       change_interior nx ny (r2_v1 (passes body n init))
                             (r2_temp1 (passes body (S n) init)) < lit 1.0 /\
       change_interior nx ny (r2_v3 (passes body n init))
                             (r2_temp3 (passes body (S n) init)) < lit 1.0).
Proof.
  intros _ _ Hny H1 H3 body init.
  destruct (relax2_loop_spec x1 x3 dt nx ny alpha epsq k v1 v3)
    as (n & Hn & E & Hbefore & Hstop).
  exists n. splits; auto.
  - unfold relax2_nb. cbv zeta. now rewrite E.
  - rewrite E. apply relax2_passes_iter.
  - intros Hlt. split; [now apply Hstop|].
    apply relax2_stops_interior; auto.
Qed.

Lemma relax2_nb_returns_within_cap_witness :
  lit 2 * (Model.a * Model.dt2 / sq Grid.dx) * (lit 1.0 + Model.epsq) + lit 1.0 <> 0 /\
  (1 <= Grid.ny)%nat /\
  shape (Grid.nx + 1) (Grid.ny + 1) (l1t Model.noise) /\
  exists n, (n < 100)%nat /\
    r2_iter (relax2_loop (zeros (Grid.nx + 1) (Grid.ny + 1))
                         (zeros (Grid.nx + 1) (Grid.ny + 1))
                         Model.dt2 Grid.nx Grid.ny
                         (Model.a * Model.dt2 / sq Grid.dx) Model.epsq Model.k
                         (l1t Model.noise) (l3t Model.noise)) = n.
Proof.
  assert (Hny : (1 <= Grid.ny)%nat) by (unfold Grid.ny; lia).
  assert (H1 : shape (Grid.nx + 1) (Grid.ny + 1) (l1t Model.noise))
    by (apply shapeb_shape; vm_compute; reflexivity).
  assert (H3 : shape (Grid.nx + 1) (Grid.ny + 1) (l3t Model.noise))
    by (apply shapeb_shape; vm_compute; reflexivity).
  assert (D1 : lit 2 * (Model.a * Model.dt2 / sq Grid.dx) * (lit 1.0 + Model.epsq)
               + lit 1.0 <> 0)
    by (intros H; apply (f_equal this) in H; vm_compute in H; discriminate H).
  assert (D3 : lit 2 * (Model.a * Model.dt2 / sq Grid.dx) * (lit 1.0 + Model.epsq)
               + lit 1.0 + lit 1.5 * Model.k * Model.dt2 <> 0)
    by (intros H; apply (f_equal this) in H; vm_compute in H; discriminate H).
  split; [exact D1|split; [exact Hny|split; [exact H1|]]].
  destruct (relax2_nb_returns_within_cap (l1t Model.noise) (l3t Model.noise)
              (zeros (Grid.nx + 1) (Grid.ny + 1)) (zeros (Grid.nx + 1) (Grid.ny + 1))
              Model.dt2 Grid.nx Grid.ny (Model.a * Model.dt2 / sq Grid.dx)
              Model.epsq Model.k D1 D3 Hny H1 H3) as (n & Hn & _ & Hi & _).
  exists n. split; [exact Hn|exact Hi].
Defined.


(** ** The relaxation for the anomaly streamfunction *)

Lemma Qcabs_ge (p : Qc) : p <= Qcabs p.
Proof. apply Qcabs_case; intros H; [apply Qcle_refl|]. qc2q. lra. Qed.

Lemma relax1_new_eq (N D p : Qc) : D <> 0 -> p + (N - D * p) / D = N / D.
Proof. intros H. field. exact H. Qed.

Lemma relax1_new_accel_eq (N D p : Qc) :
  D <> 0 -> p + lit 1.0 * (N - D * p) / D = N / D.
Proof.
  intros H. replace (lit 1.0) with 1 by (apply Qc_is_canon; reflexivity).
  field. exact H.
Qed.

Section Relax1Point.

Variables (v1 v3 : arr2) (nx : nat) (epsq gamma : Qc).
Hypothesis HD : relax1_den epsq gamma <> 0.

Let point := relax1_nb_point v1 v3 nx epsq gamma.

(** One visit of [relax1_nb]: the point takes its new value on level 1,
    then on level 3 with the new level 1 already in place; nothing else
    moves, and [maxdiff] is at least the change of level 1 at the point. *)
Lemma relax1_nb_point_spec n m j i st :
  r1_shape n m st -> (i < n)%nat -> (j < m)%nat ->
  let st' := point j i st in
  r1_shape n m st' /\
  get (r1_s1 st') i j = relax1_new v1 nx epsq gamma (r1_s1 st) (r1_s3 st) i j /\
  get (r1_s3 st') i j = relax1_new v3 nx epsq gamma (r1_s3 st) (r1_s1 st') i j /\
  (forall i' j', (i, j) <> (i', j') ->
     get (r1_s1 st') i' j' = get (r1_s1 st) i' j' /\
     get (r1_s3 st') i' j' = get (r1_s3 st) i' j') /\
  r1_iter st' = r1_iter st /\
  r1_maxdiff st <= r1_maxdiff st' /\
  Qcabs (get (r1_s1 st') i j - get (r1_s1 st) i j) <= r1_maxdiff st'.
Proof.
  intros [H1 H3] Hi Hj. unfold point, relax1_nb_point. cbv zeta.
  cbn [r1_s1 r1_s3 r1_iter r1_maxdiff].
  fold (relax1_den epsq gamma).
  splits.
  - split; now apply shape_aset.
  - rewrite (get_aset_same n m) by assumption.
    unfold relax1_new. now rewrite relax1_new_eq.
  - rewrite (get_aset_same n m) by assumption.
    unfold relax1_new. now rewrite relax1_new_eq.
  - intros i' j' Hne. split; now apply get_aset_other.
  - reflexivity.
  - eapply Qcle_trans; apply pymax_l.
  - rewrite (get_aset_same n m) by assumption.
    eapply Qcle_trans; [|apply pymax_l].
    eapply Qcle_trans; [|apply pymax_r].
    match goal with |- Qcabs ?p <= Qcabs ?q => replace p with q by ring end.
    apply Qcle_refl.
Qed.

End Relax1Point.

(** *** The sweep is affine and monotone in the iterate *)

Lemma Qcdiv_le_mono (p q D : Qc) : 0 < D -> p <= q -> p / D <= q / D.
Proof.
  intros HD H. unfold Qcdiv. apply Qcmult_le_compat_r; [exact H|].
  apply Qclt_le_weak. qc2q. now apply Qinv_lt_0_compat.
Qed.

Lemma relax1_new_diff (e g D v a1 a2 a3 a4 a5 b1 b2 b3 b4 b5 : Qc) :
  D <> 0 ->
  (b1 + b2 + e * (b3 + b4) - v + g * b5) / D -
  (a1 + a2 + e * (a3 + a4) - v + g * a5) / D =
  ((b1 - a1) + (b2 - a2) + e * ((b3 - a3) + (b4 - a4)) - 0 + g * (b5 - a5)) / D.
Proof. intros H. field. exact H. Qed.

Lemma relax1_new_scaled (c e g D a1 a2 a3 a4 a5 b1 b2 b3 b4 b5 : Qc) :
  0 <= e -> 0 <= g -> 0 < D ->
  c * a1 <= b1 -> c * a2 <= b2 -> c * a3 <= b3 -> c * a4 <= b4 -> c * a5 <= b5 ->
  c * ((a1 + a2 + e * (a3 + a4) - 0 + g * a5) / D) <=
  (b1 + b2 + e * (b3 + b4) - 0 + g * b5) / D.
Proof.
  intros He Hg HD H1 H2 H3 H4 H5.
  replace (c * ((a1 + a2 + e * (a3 + a4) - 0 + g * a5) / D))
    with ((c * a1 + c * a2 + e * (c * a3 + c * a4) - 0 + g * (c * a5)) / D)
    by (field; intros E; rewrite E in HD; now apply (Qclt_not_eq 0 0)).
  apply Qcdiv_le_mono; [exact HD|].
  assert (e * (c * a3 + c * a4) <= e * (b3 + b4)).
  { rewrite !(Qcmult_comm e). apply Qcmult_le_compat_r; [|exact He].
    now apply Qcplus_le_compat. }
  assert (g * (c * a5) <= g * b5).
  { rewrite !(Qcmult_comm g). now apply Qcmult_le_compat_r. }
  qc2q. lra.
Qed.

Section Relax1Linear.

Variables (v1 v3 : arr2) (nx ny : nat) (epsq gamma : Qc) (n m : nat).
Hypothesis Hepsq : 0 <= epsq.
Hypothesis Hgamma : 0 <= gamma.
Hypothesis HDpos : 0 < relax1_den epsq gamma.

Let point := relax1_nb_point v1 v3 nx epsq gamma.
Let point0 := relax1_nb_point (zeros n m) (zeros n m) nx epsq gamma.

Lemma relax1_den_nonzero : relax1_den epsq gamma <> 0.
Proof. intros E. rewrite E in HDpos. now apply (Qclt_not_eq 0 0). Qed.

(** The difference of two iterates moves by the same visit without
    forcing. *)
Lemma relax1_point_diff j i a b d :
  r1_diff n m a b d -> (i < n)%nat -> (j < m)%nat ->
  r1_diff n m (point j i a) (point j i b) (point0 j i d).
Proof.
  intros (Sa & Sb & Sd & H) Hi Hj.
  pose proof relax1_den_nonzero as HD.
  destruct (relax1_nb_point_spec v1 v3 nx epsq gamma HD n m j i a Sa Hi Hj)
    as (Sa' & A1 & A3 & Ao & _).
  destruct (relax1_nb_point_spec v1 v3 nx epsq gamma HD n m j i b Sb Hi Hj)
    as (Sb' & B1 & B3 & Bo & _).
  destruct (relax1_nb_point_spec (zeros n m) (zeros n m) nx epsq gamma HD n m j i d
              Sd Hi Hj) as (Sd' & D1 & D3 & Do & _).
  fold point in Sa', A1, A3, Ao, Sb', B1, B3, Bo.
  fold point0 in Sd', D1, D3, Do.
  assert (H1 : forall i j, get (r1_s1 b) i j - get (r1_s1 a) i j = get (r1_s1 d) i j)
    by (intros; apply H).
  assert (H3 : forall i j, get (r1_s3 b) i j - get (r1_s3 a) i j = get (r1_s3 d) i j)
    by (intros; apply H).
  assert (E1 : get (r1_s1 (point j i b)) i j - get (r1_s1 (point j i a)) i j =
               get (r1_s1 (point0 j i d)) i j).
  { rewrite A1, B1, D1. unfold relax1_new. rewrite get_zeros.
    rewrite <- !H1, <- !H3. now apply relax1_new_diff. }
  unfold r1_diff. splits; auto. intros i' j'.
  destruct (Nat.eq_dec i i') as [<-|Hni];
    [destruct (Nat.eq_dec j j') as [<-|Hnj]|].
  - split; [exact E1|].
    rewrite A3, B3, D3. unfold relax1_new. rewrite get_zeros.
    rewrite <- E1, <- !H3. now apply relax1_new_diff.
  - assert (Hne : (i, j) <> (i, j')) by congruence.
    destruct (Ao _ _ Hne) as [-> ->]. destruct (Bo _ _ Hne) as [-> ->].
    destruct (Do _ _ Hne) as [-> ->]. apply H.
  - assert (Hne : (i, j) <> (i', j')) by congruence.
    destruct (Ao _ _ Hne) as [-> ->]. destruct (Bo _ _ Hne) as [-> ->].
    destruct (Do _ _ Hne) as [-> ->]. apply H.
Qed.

(** Without forcing, a visit keeps [c * a <= b]. *)
Lemma relax1_point_scaled_le c j i a b :
  r1_scaled_le n m c a b -> (i < n)%nat -> (j < m)%nat ->
  r1_scaled_le n m c (point0 j i a) (point0 j i b).
Proof.
  intros (Sa & Sb & H) Hi Hj.
  pose proof relax1_den_nonzero as HD.
  destruct (relax1_nb_point_spec (zeros n m) (zeros n m) nx epsq gamma HD n m j i a
              Sa Hi Hj) as (Sa' & A1 & A3 & Ao & _).
  destruct (relax1_nb_point_spec (zeros n m) (zeros n m) nx epsq gamma HD n m j i b
              Sb Hi Hj) as (Sb' & B1 & B3 & Bo & _).
  fold point0 in Sa', A1, A3, Ao, Sb', B1, B3, Bo.
  assert (E1 : c * get (r1_s1 (point0 j i a)) i j <= get (r1_s1 (point0 j i b)) i j).
  { rewrite A1, B1. unfold relax1_new. rewrite get_zeros.
    apply relax1_new_scaled; auto; apply H. }
  unfold r1_scaled_le. splits; auto. intros i' j'.
  destruct (Nat.eq_dec i i') as [<-|Hni];
    [destruct (Nat.eq_dec j j') as [<-|Hnj]|].
  - split; [exact E1|].
    rewrite A3, B3. unfold relax1_new. rewrite get_zeros.
    apply relax1_new_scaled; auto; apply H.
  - assert (Hne : (i, j) <> (i, j')) by congruence.
    destruct (Ao _ _ Hne) as [-> ->]. destruct (Bo _ _ Hne) as [-> ->]. apply H.
  - assert (Hne : (i, j) <> (i', j')) by congruence.
    destruct (Ao _ _ Hne) as [-> ->]. destruct (Bo _ _ Hne) as [-> ->]. apply H.
Qed.

End Relax1Linear.

Lemma relax1_body_eq (point : nat -> nat -> Relax1 -> Relax1) nx ny iter st :
  relax1_body point nx ny iter st =
  (relax1_sweep point (interior nx ny) iter st,
   Qcltb (r1_maxdiff (relax1_sweep point (interior nx ny) iter st)) relax1_threshold).
Proof. unfold relax1_body, relax1_sweep. now rewrite for_range_nest. Qed.

(** *** Sweeps and passes of a relaxation whose visits are affine and
    monotone

    The lemmas of this section hold for any pair of visits [point] (with
    forcing) and [point0] (without) related as [relax1_nb_point] is to its
    version without forcing. *)
Section Relax1Sweep.

Variables (point point0 : nat -> nat -> Relax1 -> Relax1) (nx ny : nat).

Let n := (nx + 1)%nat.
Let m := (ny + 1)%nat.
Let body := relax1_body point nx ny.
Let body0 := relax1_body point0 nx ny.

Hypothesis Hvisit : forall j i st,
  r1_shape n m st -> (i < n)%nat -> (j < m)%nat ->
  r1_shape n m (point j i st) /\
  (forall i' j', (i, j) <> (i', j') ->
     get (r1_s1 (point j i st)) i' j' = get (r1_s1 st) i' j') /\
  r1_maxdiff st <= r1_maxdiff (point j i st) /\
  Qcabs (get (r1_s1 (point j i st)) i j - get (r1_s1 st) i j) <=
    r1_maxdiff (point j i st).

Hypothesis Hdiff : forall j i a b d,
  r1_diff n m a b d -> (i < n)%nat -> (j < m)%nat ->
  r1_diff n m (point j i a) (point j i b) (point0 j i d).

Hypothesis Hscaled : forall c j i a b,
  r1_scaled_le n m c a b -> (i < n)%nat -> (j < m)%nat ->
  r1_scaled_le n m c (point0 j i a) (point0 j i b).

Lemma r1_shape_reset st it c d :
  r1_shape n m st -> r1_shape n m (mkRelax1 (r1_s1 st) (r1_s3 st) it c d).
Proof. intros [A B]. split; [exact A|exact B]. Qed.

Lemma r1_diff_reset a b d it it' it0 :
  r1_diff n m a b d ->
  r1_diff n m (mkRelax1 (r1_s1 a) (r1_s3 a) it 0 0)
              (mkRelax1 (r1_s1 b) (r1_s3 b) it' 0 0)
              (mkRelax1 (r1_s1 d) (r1_s3 d) it0 0 0).
Proof.
  intros (Sa & Sb & Sd & H). unfold r1_diff.
  splits; auto using r1_shape_reset.
Qed.

Lemma r1_scaled_le_reset c a b it it' :
  r1_scaled_le n m c a b ->
  r1_scaled_le n m c (mkRelax1 (r1_s1 a) (r1_s3 a) it 0 0)
                     (mkRelax1 (r1_s1 b) (r1_s3 b) it' 0 0).
Proof.
  intros (Sa & Sb & H). unfold r1_scaled_le.
  splits; auto using r1_shape_reset.
Qed.

Lemma relax1_sweep_diff order it it' it0 a b d :
  (forall p, In p order -> (snd p < n)%nat /\ (fst p < m)%nat) ->
  r1_diff n m a b d ->
  r1_diff n m (relax1_sweep point order it a) (relax1_sweep point order it' b)
              (relax1_sweep point0 order it0 d).
Proof.
  intros Hin H. unfold relax1_sweep.
  apply (r1_diff_reset a b d it it' it0) in H. revert H.
  generalize (mkRelax1 (r1_s1 a) (r1_s3 a) it 0 0)
             (mkRelax1 (r1_s1 b) (r1_s3 b) it' 0 0)
             (mkRelax1 (r1_s1 d) (r1_s3 d) it0 0 0).
  induction order as [|[j i] order IH]; intros a0 b0 d0 H0; cbn [fold_left]; [exact H0|].
  apply IH.
  - intros p Hp. apply Hin. now right.
  - cbn [fst snd]. destruct (Hin (j, i) (or_introl eq_refl)) as [Hi Hj].
    now apply Hdiff.
Qed.

Lemma relax1_sweep_scaled_le c order it it' a b :
  (forall p, In p order -> (snd p < n)%nat /\ (fst p < m)%nat) ->
  r1_scaled_le n m c a b ->
  r1_scaled_le n m c (relax1_sweep point0 order it a) (relax1_sweep point0 order it' b).
Proof.
  intros Hin H. unfold relax1_sweep.
  apply (r1_scaled_le_reset c a b it it') in H. revert H.
  generalize (mkRelax1 (r1_s1 a) (r1_s3 a) it 0 0)
             (mkRelax1 (r1_s1 b) (r1_s3 b) it' 0 0).
  induction order as [|[j i] order IH]; intros a0 b0 H0; cbn [fold_left]; [exact H0|].
  apply IH.
  - intros p Hp. apply Hin. now right.
  - cbn [fst snd]. destruct (Hin (j, i) (or_introl eq_refl)) as [Hi Hj].
    now apply Hscaled.
Qed.

Lemma relax1_sweep_shape order it st :
  (forall p, In p order -> (snd p < n)%nat /\ (fst p < m)%nat) ->
  r1_shape n m st -> r1_shape n m (relax1_sweep point order it st).
Proof.
  intros Hin Hs. unfold relax1_sweep.
  apply (r1_shape_reset st it 0 0) in Hs. revert Hs.
  generalize (mkRelax1 (r1_s1 st) (r1_s3 st) it 0 0).
  induction order as [|[j i] order IH]; intros st0 Hs; cbn [fold_left]; [exact Hs|].
  apply IH.
  - intros p Hp. apply Hin. now right.
  - cbn [fst snd]. destruct (Hin (j, i) (or_introl eq_refl)) as [Hi Hj].
    now apply Hvisit.
Qed.

Lemma relax1_fold_frame j0 i0 rest st1 :
  r1_shape n m st1 ->
  (forall p, In p rest -> (snd p < n)%nat /\ (fst p < m)%nat) ->
  ~ In (j0, i0) rest ->
  r1_shape n m (fold_left (fun st p => point (fst p) (snd p) st) rest st1) /\
  get (r1_s1 (fold_left (fun st p => point (fst p) (snd p) st) rest st1)) i0 j0 =
    get (r1_s1 st1) i0 j0 /\
  r1_maxdiff st1 <=
    r1_maxdiff (fold_left (fun st p => point (fst p) (snd p) st) rest st1).
Proof.
  revert st1. induction rest as [|[j i] rest IH]; intros st1 Hs Hin Hnot; cbn [fold_left].
  - splits; auto. apply Qcle_refl.
  - cbn [fst snd].
    destruct (Hin (j, i) (or_introl eq_refl)) as [Hi Hj]. cbn [fst snd] in Hi, Hj.
    destruct (Hvisit j i st1 Hs Hi Hj) as (Ss' & Ho & Hmono & _).
    assert (Hne : (i, j) <> (i0, j0)).
    { intros E. inversion E; subst. apply Hnot. now left. }
    assert (Hf : forall p, In p rest -> (snd p < n)%nat /\ (fst p < m)%nat)
      by (intros p Hp; apply Hin; now right).
    assert (Hn : ~ In (j0, i0) rest) by (intros Hp; apply Hnot; now right).
    destruct (IH (point j i st1) Ss' Hf Hn) as (A & B & C).
    splits; auto.
    + rewrite B. now apply Ho.
    + eapply Qcle_trans; eassumption.
Qed.

(** [maxdiff] of a pass is at least the change of level 1 at the point
    visited first. *)
Lemma relax1_sweep_maxdiff j0 i0 rest it st :
  r1_shape n m st ->
  (forall p, In p ((j0, i0) :: rest) -> (snd p < n)%nat /\ (fst p < m)%nat) ->
  ~ In (j0, i0) rest ->
  r1_shape n m (relax1_sweep point ((j0, i0) :: rest) it st) /\
  get (r1_s1 (relax1_sweep point ((j0, i0) :: rest) it st)) i0 j0 -
    get (r1_s1 st) i0 j0 <=
  r1_maxdiff (relax1_sweep point ((j0, i0) :: rest) it st).
Proof.
  intros Hs Hin Hnot. unfold relax1_sweep. cbn [fold_left fst snd].
  destruct (Hin (j0, i0) (or_introl eq_refl)) as [Hi Hj]. cbn [fst snd] in Hi, Hj.
  destruct (Hvisit j0 i0 _ (r1_shape_reset st it 0 0 Hs) Hi Hj)
    as (S1 & _ & _ & Hmax).
  cbn [r1_s1] in Hmax.
  assert (Hrest : forall p, In p rest -> (snd p < n)%nat /\ (fst p < m)%nat)
    by (intros p Hp; apply Hin; now right).
  destruct (relax1_fold_frame j0 i0 rest _ S1 Hrest Hnot) as (Sf & Eg & Hm).
  split; [exact Sf|].
  rewrite Eg.
  eapply Qcle_trans; [apply Qcabs_ge|]. eapply Qcle_trans; [exact Hmax|exact Hm].
Qed.

(** **** The passes of the loop *)

Lemma relax1_passes_S k st :
  passes body (S k) st = relax1_sweep point (interior nx ny) k (passes body k st).
Proof. cbn [passes]. unfold body. now rewrite relax1_body_eq. Qed.

Lemma relax1_passes0_S k st :
  passes body0 (S k) st = relax1_sweep point0 (interior nx ny) k (passes body0 k st).
Proof. cbn [passes]. unfold body0. now rewrite relax1_body_eq. Qed.

Lemma relax1_stops_eq k st :
  stops body k st = Qcltb (r1_maxdiff (passes body (S k) st)) relax1_threshold.
Proof. rewrite relax1_passes_S. unfold stops, body. now rewrite relax1_body_eq. Qed.

(** Without forcing, the passes keep [c * a <= b]. *)
Lemma relax1_passes_dominated c k a b :
  r1_scaled_le n m c a b ->
  r1_scaled_le n m c (passes body0 k a) (passes body0 k b).
Proof.
  intros H. induction k as [|k IH]; [exact H|].
  rewrite !relax1_passes0_S.
  apply relax1_sweep_scaled_le; [apply interior_in_bounds|exact IH].
Qed.

(** A state that one pass without forcing shrinks by no more than the
    factor [r] is shrunk by no more than [r^k] in [k] passes. *)
Lemma relax1_passes_scaled_le r k psi :
  0 <= r -> r1_shape n m psi ->
  r1_scaled_le n m r psi (passes body0 1 psi) ->
  r1_scaled_le n m (r ^ k) psi (passes body0 k psi).
Proof.
  intros Hr Hs H1. induction k as [|k IH].
  - cbn [passes Qcpower]. unfold r1_scaled_le. splits; auto.
    intros i j. rewrite !Qcmult_1_l. split; apply Qcle_refl.
  - assert (H : r1_scaled_le n m (r ^ k) (passes body0 1 psi)
                                         (passes body0 (S k) psi)).
    { pose proof (relax1_sweep_scaled_le (r ^ k) (interior nx ny) 0 k _ _
                    (interior_in_bounds nx ny) IH) as H.
      assert (E0 : passes body0 1 psi = relax1_sweep point0 (interior nx ny) 0 psi)
        by apply (relax1_passes0_S 0 psi).
      rewrite <- (relax1_passes0_S k), <- E0 in H. exact H. }
    destruct H1 as (_ & _ & H1). destruct H as (_ & Sk & H).
    unfold r1_scaled_le. splits; auto. intros i j.
    assert (Hk : 0 <= r ^ k) by now apply Qcpower_pos.
    cbn [Qcpower].
    split.
    + eapply Qcle_trans; [|apply (proj1 (H i j))].
      replace (r * r ^ k * get (r1_s1 psi) i j)
        with (r * get (r1_s1 psi) i j * r ^ k) by ring.
      rewrite (Qcmult_comm (r ^ k)).
      apply Qcmult_le_compat_r; [apply H1|exact Hk].
    + eapply Qcle_trans; [|apply (proj2 (H i j))].
      replace (r * r ^ k * get (r1_s3 psi) i j)
        with (r * get (r1_s3 psi) i j * r ^ k) by ring.
      rewrite (Qcmult_comm (r ^ k)).
      apply Qcmult_le_compat_r; [apply H1|exact Hk].
Qed.

Variables (s1 s3 : arr2) (init0 : Relax1).

Let init := relax1_init s1 s3.

Hypothesis Hbase : r1_diff n m init (passes body 1 init) init0.

(** The step from one iterate to the next is the iterate without forcing
    started from the first step. *)
Lemma relax1_passes_diff k :
  r1_diff n m (passes body k init) (passes body (S k) init) (passes body0 k init0).
Proof.
  induction k as [|k IH]; [exact Hbase|].
  pose proof (relax1_sweep_diff (interior nx ny) k (S k) k _ _ _
                (interior_in_bounds nx ny) IH) as H.
  rewrite <- !relax1_passes_S, <- relax1_passes0_S in H. exact H.
Qed.

Variables (j0 i0 : nat) (rest : list (nat * nat)).
Hypothesis Hfirst : interior nx ny = (j0, i0) :: rest.
Hypothesis Hnodup : ~ In (j0, i0) rest.

(** [maxdiff] of pass [k] is at least the step of level 1 at the first
    interior point. *)
Lemma relax1_passes_maxdiff k :
  get (r1_s1 (passes body0 k init0)) i0 j0 <= r1_maxdiff (passes body (S k) init).
Proof.
  destruct (relax1_passes_diff k) as (Sk & _ & _ & H).
  rewrite <- (proj1 (H i0 j0)).
  rewrite (relax1_passes_S k), Hfirst.
  apply relax1_sweep_maxdiff; auto.
  rewrite <- Hfirst. apply interior_in_bounds.
Qed.

Variables (psi : Relax1) (c r : Qc).
Hypothesis Hc0 : 0 <= c.
Hypothesis Hr0 : 0 <= r.
Hypothesis Hr1 : r <= 1.
Hypothesis Hshape : r1_shape n m psi.
Hypothesis Hcontract : r1_scaled_le n m r psi (passes body0 1 psi).
Hypothesis Hdominated : r1_scaled_le n m c psi init0.
Hypothesis Hpos : 0 <= get (r1_s1 psi) i0 j0.

Lemma Qcpower_antitone k N : (k <= N)%nat -> r ^ N <= r ^ k.
Proof.
  intros H. replace N with ((N - k) + k)%nat by lia.
  generalize (N - k)%nat as d. intros d.
  induction d as [|d IH]; cbn [Nat.add Qcpower]; [apply Qcle_refl|].
  eapply Qcle_trans; [|exact IH].
  assert (0 <= r ^ (d + k)) by now apply Qcpower_pos.
  qc2q. nra.
Qed.

(** While [c * r^N] times the test state stays above the threshold at the
    first interior point, no pass up to [N] passes the convergence test. *)
Lemma relax1_passes_unconverged N k :
  relax1_threshold <= c * (r ^ N * get (r1_s1 psi) i0 j0) ->
  (k <= N)%nat ->
  relax1_threshold <= r1_maxdiff (passes body (S k) init) /\
  stops body k init = false.
Proof.
  intros Hthr Hk.
  assert (H : relax1_threshold <= r1_maxdiff (passes body (S k) init)).
  { eapply Qcle_trans; [exact Hthr|].
    eapply Qcle_trans; [|apply relax1_passes_maxdiff].
    destruct (relax1_passes_dominated c k _ _ Hdominated) as (_ & _ & Hd).
    eapply Qcle_trans; [|apply (proj1 (Hd i0 j0))].
    rewrite !(Qcmult_comm c). apply Qcmult_le_compat_r; [|exact Hc0].
    destruct (relax1_passes_scaled_le r k psi Hr0 Hshape Hcontract) as (_ & _ & H).
    eapply Qcle_trans; [|apply (proj1 (H i0 j0))].
    apply Qcmult_le_compat_r; [now apply Qcpower_antitone|exact Hpos]. }
  split; [exact H|].
  rewrite relax1_stops_eq. now apply Qcltb_ge.
Qed.

(** Then the loop runs all its hundred passes and ends with [iter = 99] on
    an iterate whose last pass failed the test. *)
Lemma relax1_loop_unconverged :
  relax1_threshold <= c * (r ^ 99 * get (r1_s1 psi) i0 j0) ->
  relax1_loop point nx ny s1 s3 = passes body 100 init /\
  relax1_threshold <= r1_maxdiff (passes body 100 init).
Proof.
  intros Hthr.
  destruct (for_break_range body init 100) as (k & Hk & E & _ & Hstop); [lia|].
  assert (k = 99%nat) as ->.
  { destruct (Nat.eq_dec k 99) as [|Hne]; [assumption|].
    assert (T : stops body k init = true) by (apply Hstop; lia).
    destruct (relax1_passes_unconverged 99 k Hthr) as [_ F]; [lia|]. congruence. }
  split; [exact E|].
  now destruct (relax1_passes_unconverged 99 99 Hthr).
Qed.

End Relax1Sweep.

(** *** The test after the loop of [relax1_nb] *)

Section Relax1Finish.

Variables (point : nat -> nat -> Relax1 -> Relax1) (nx ny : nat) (s1 s3 : arr2).
Hypothesis Hiter : forall j i st, r1_iter (point j i st) = r1_iter st.

Lemma relax1_sweep_iter order it st : r1_iter (relax1_sweep point order it st) = it.
Proof.
  unfold relax1_sweep.
  apply fold_left_inv with (I := fun s => r1_iter s = it).
  - reflexivity.
  - intros s p _ H. now rewrite Hiter.
Qed.

(** [iter] is the number of the last pass that ran, at most 99. *)
Lemma relax1_loop_iter : (r1_iter (relax1_loop point nx ny s1 s3) < 100)%nat.
Proof.
  unfold relax1_loop.
  destruct (for_break_range (relax1_body point nx ny) (mkRelax1 s1 s3 0 0 0) 100)
    as (k & Hk & E & _); [lia|].
  rewrite E. cbn [passes]. rewrite relax1_body_eq. cbn [fst].
  now rewrite relax1_sweep_iter.
Qed.

(** So the test [iter >= 100] fails and the call returns normally. *)
Lemma relax1_finish_normal :
  relax1_finish (relax1_loop point nx ny s1 s3) =
  Normal (r1_s1 (relax1_loop point nx ny s1 s3), r1_s3 (relax1_loop point nx ny s1 s3)).
Proof.
  unfold relax1_finish.
  destruct (Nat.leb_spec 100 (r1_iter (relax1_loop point nx ny s1 s3))) as [H|H];
    [|reflexivity].
  pose proof relax1_loop_iter. lia.
Qed.

End Relax1Finish.

Lemma relax1_nb_point_iter v1 v3 nx epsq gamma j i st :
  r1_iter (relax1_nb_point v1 v3 nx epsq gamma j i st) = r1_iter st.
Proof. reflexivity. Qed.

Lemma relax1_point_iter v j i st : r1_iter (Model.relax1_point v j i st) = r1_iter st.
Proof. reflexivity. Qed.

Lemma relax1_nb_normal v1 v3 s1 s3 nx ny epsq gamma :
  relax1_nb v1 v3 s1 s3 nx ny epsq gamma =
  Normal (r1_s1 (relax1_loop (relax1_nb_point v1 v3 nx epsq gamma) nx ny s1 s3),
          r1_s3 (relax1_loop (relax1_nb_point v1 v3 nx epsq gamma) nx ny s1 s3)).
Proof.
  unfold relax1_nb. apply relax1_finish_normal. apply relax1_nb_point_iter.
Qed.

Lemma relax1_normal v s :
  raised (Model.relax1 v s) = None.
Proof.
  unfold Model.relax1.
  rewrite relax1_finish_normal by apply relax1_point_iter. reflexivity.
Qed.

(** *** A forcing under which the hundred passes do not converge *)

Lemma get_oob n m a i j :
  shape n m a -> ~ ((i < n)%nat /\ (j < m)%nat) -> get a i j = 0.
Proof.
  intros Hs Hout. unfold get.
  destruct (Nat.lt_ge_cases i n) as [Hi|Hi].
  - apply nth_overflow. rewrite (shape_row _ _ _ _ Hs Hi). lia.
  - rewrite (nth_overflow a) by (rewrite (shape_length _ _ _ Hs); lia).
    now destruct j.
Qed.

Lemma r1_scaled_leb_sound n m c a b :
  r1_shape n m a -> r1_shape n m b ->
  r1_scaled_leb n m c a b = true -> r1_scaled_le n m c a b.
Proof.
  intros Sa Sb H. unfold r1_scaled_le. splits; auto. intros i j.
  destruct (Nat.lt_ge_cases i n) as [Hi|Hi];
    [destruct (Nat.lt_ge_cases j m) as [Hj|Hj]|].
  - unfold r1_scaled_leb in H. rewrite forallb_forall in H.
    specialize (H i (proj2 (in_seq _ _ _) (conj (Nat.le_0_l i) Hi))).
    rewrite forallb_forall in H.
    specialize (H j (proj2 (in_seq _ _ _) (conj (Nat.le_0_l j) Hj))).
    apply andb_true_iff in H. destruct H as [H1 H3].
    apply negb_true_iff in H1, H3. split; now apply Qcltb_ge.
  - destruct Sa as [A1 A3], Sb as [B1 B3].
    rewrite (get_oob n m (r1_s1 a)), (get_oob n m (r1_s1 b)),
            (get_oob n m (r1_s3 a)), (get_oob n m (r1_s3 b)) by (auto; lia).
    rewrite Qcmult_0_r. split; apply Qcle_refl.
  - destruct Sa as [A1 A3], Sb as [B1 B3].
    rewrite (get_oob n m (r1_s1 a)), (get_oob n m (r1_s1 b)),
            (get_oob n m (r1_s3 a)), (get_oob n m (r1_s3 b)) by (auto; lia).
    rewrite Qcmult_0_r. split; apply Qcle_refl.
Qed.

Lemma absentb_sound p l : absentb p l = true -> ~ In p l.
Proof.
  unfold absentb. intros H Hin. apply negb_true_iff in H.
  assert (T : existsb (fun q => Nat.eqb (fst p) (fst q) && Nat.eqb (snd p) (snd q)) l
              = true).
  { apply existsb_exists. exists p. split; [exact Hin|].
    now rewrite !Nat.eqb_refl. }
  congruence.
Qed.

Lemma model_epsq_nonneg : 0 <= Model.epsq.
Proof. apply Qcltb_ge. vm_compute. reflexivity. Qed.

Lemma model_gamma_nonneg : 0 <= Model.gamma.
Proof. apply Qcltb_ge. vm_compute. reflexivity. Qed.

Lemma model_den_pos : 0 < relax1_den Model.epsq Model.gamma.
Proof. apply Qcltb_lt. vm_compute. reflexivity. Qed.


(** *** The first pass under a strong negative forcing *)

Lemma Qcmult_nonneg (p q : Qc) : 0 <= p -> 0 <= q -> 0 <= p * q.
Proof. intros Hp Hq. qc2q. nra. Qed.

Lemma relax1_new_lower (e g D V v a1 a2 a3 a4 a5 : Qc) :
  0 <= e -> 0 <= g -> 0 < D -> V <= - v ->
  0 <= a1 -> 0 <= a2 -> 0 <= a3 -> 0 <= a4 -> 0 <= a5 ->
  V / D <= (a1 + a2 + e * (a3 + a4) - v + g * a5) / D.
Proof.
  intros He Hg HD HV H1 H2 H3 H4 H5.
  apply Qcdiv_le_mono; [exact HD|].
  assert (0 <= e * (a3 + a4)) by (apply Qcmult_nonneg; [exact He|qc2q; lra]).
  assert (0 <= g * a5) by now apply Qcmult_nonneg.
  qc2q. lra.
Qed.

Lemma get_fill_in n m a c i j :
  shape n m a -> (i < n)%nat -> (j < m)%nat -> get (fill a c) i j = c.
Proof.
  intros Hs Hi Hj. unfold get, fill.
  rewrite (nth_map_lt _ _ _ _ []) by (rewrite (shape_length _ _ _ Hs); lia).
  rewrite (nth_map_lt _ _ _ _ 0) by (rewrite (shape_row _ _ _ _ Hs Hi); lia).
  reflexivity.
Qed.

Section Relax1FirstPass.

Variables (v1 v3 : arr2) (nx : nat) (epsq gamma : Qc) (n m : nat) (V : Qc).
Hypothesis Hepsq : 0 <= epsq.
Hypothesis Hgamma : 0 <= gamma.
Hypothesis HDpos : 0 < relax1_den epsq gamma.
Hypothesis HV : 0 <= V.
Hypothesis Hv1 : forall i j, (i < n)%nat -> (j < m)%nat -> V <= - get v1 i j.
Hypothesis Hv3 : forall i j, (i < n)%nat -> (j < m)%nat -> V <= - get v3 i j.

Let point := relax1_nb_point v1 v3 nx epsq gamma.
Let low := V / relax1_den epsq gamma.

Lemma relax1_low_nonneg : 0 <= low.
Proof.
  unfold low. replace 0 with (0 / relax1_den epsq gamma) by (unfold Qcdiv; ring).
  now apply Qcdiv_le_mono.
Qed.

(** A visit keeps the iterate non-negative and lifts the visited point to
    [V / den] at least, on both levels. *)
Lemma relax1_point_lower j i st :
  r1_shape n m st -> r1_nonneg st -> (i < n)%nat -> (j < m)%nat ->
  r1_shape n m (point j i st) /\ r1_nonneg (point j i st) /\
  low <= get (r1_s1 (point j i st)) i j /\ low <= get (r1_s3 (point j i st)) i j /\
  (forall i' j', (i, j) <> (i', j') ->
     get (r1_s1 (point j i st)) i' j' = get (r1_s1 st) i' j' /\
     get (r1_s3 (point j i st)) i' j' = get (r1_s3 st) i' j').
Proof.
  intros Hs Hn Hi Hj.
  pose proof (relax1_den_nonzero epsq gamma HDpos) as HD.
  destruct (relax1_nb_point_spec v1 v3 nx epsq gamma HD n m j i st Hs Hi Hj)
    as (Ss & A1 & A3 & Ao & _).
  fold point in Ss, A1, A3, Ao.
  assert (L1 : low <= get (r1_s1 (point j i st)) i j).
  { rewrite A1. unfold relax1_new, low.
    apply relax1_new_lower; auto; apply Hn. }
  assert (L3 : low <= get (r1_s3 (point j i st)) i j).
  { rewrite A3. unfold relax1_new, low.
    apply relax1_new_lower; auto; try apply Hn.
    eapply Qcle_trans; [apply relax1_low_nonneg|exact L1]. }
  splits; auto. intros i' j'.
  destruct (Nat.eq_dec i i') as [<-|Hni];
    [destruct (Nat.eq_dec j j') as [<-|Hnj]|].
  - split; (eapply Qcle_trans; [apply relax1_low_nonneg|]); assumption.
  - assert (Hne : (i, j) <> (i, j')) by congruence.
    destruct (Ao _ _ Hne) as [-> ->]. apply Hn.
  - assert (Hne : (i, j) <> (i', j')) by congruence.
    destruct (Ao _ _ Hne) as [-> ->]. apply Hn.
Qed.

Lemma relax1_fold_lower order st :
  (forall p, In p order -> (snd p < n)%nat /\ (fst p < m)%nat) ->
  r1_shape n m st -> r1_nonneg st ->
  r1_shape n m (fold_left (fun st p => point (fst p) (snd p) st) order st) /\
  r1_nonneg (fold_left (fun st p => point (fst p) (snd p) st) order st) /\
  forall i j,
    In (j, i) order \/ (low <= get (r1_s1 st) i j /\ low <= get (r1_s3 st) i j) ->
    low <= get (r1_s1 (fold_left (fun st p => point (fst p) (snd p) st) order st)) i j /\
    low <= get (r1_s3 (fold_left (fun st p => point (fst p) (snd p) st) order st)) i j.
Proof.
  revert st. induction order as [|[j0 i0] order IH]; intros st Hin Hs Hn; cbn [fold_left].
  - splits; auto. intros i j [[]|H]. exact H.
  - cbn [fst snd].
    destruct (Hin (j0, i0) (or_introl eq_refl)) as [Hi Hj]. cbn [fst snd] in Hi, Hj.
    destruct (relax1_point_lower j0 i0 st Hs Hn Hi Hj) as (Ss & Sn & L1 & L3 & Ho).
    assert (Hrest : forall p, In p order -> (snd p < n)%nat /\ (fst p < m)%nat)
      by (intros p Hp; apply Hin; now right).
    destruct (IH (point j0 i0 st) Hrest Ss Sn) as (A & B & C).
    splits; auto. intros i j H. apply C.
    destruct H as [[E|H]|H].
    + inversion E; subst. right. now split.
    + now left.
    + destruct (Nat.eq_dec i0 i) as [<-|Hni];
        [destruct (Nat.eq_dec j0 j) as [<-|Hnj]|].
      * right. now split.
      * right. assert (Hne : (i0, j0) <> (i0, j)) by congruence.
        now destruct (Ho _ _ Hne) as [-> ->].
      * right. assert (Hne : (i0, j0) <> (i, j)) by congruence.
        now destruct (Ho _ _ Hne) as [-> ->].
Qed.

End Relax1FirstPass.

(** *** A forcing under which the hundred passes do not converge *)

Lemma interiorb_spec nx ny i j : interiorb nx ny i j = true <-> is_interior nx ny i j.
Proof.
  unfold interiorb, is_interior.
  rewrite !andb_true_iff, !Nat.leb_le. tauto.
Qed.

Lemma shape_plateau nx ny c : shape (nx + 1) (ny + 1) (plateau nx ny c).
Proof.
  unfold plateau. split.
  - now rewrite length_map, length_seq.
  - apply Forall_map, Forall_forall. intros i _.
    now rewrite length_map, length_seq.
Qed.

Lemma get_plateau nx ny c i j :
  get (plateau nx ny c) i j = if interiorb nx ny i j then c else 0.
Proof.
  destruct (Nat.lt_ge_cases i (nx + 1)) as [Hi|Hi];
    [destruct (Nat.lt_ge_cases j (ny + 1)) as [Hj|Hj]|].
  - unfold get, plateau.
    rewrite (nth_map_lt _ _ _ _ 0%nat) by now rewrite length_seq.
    rewrite (nth_map_lt _ _ _ _ 0%nat) by now rewrite length_seq.
    now rewrite !seq_nth by assumption.
  - rewrite (get_oob _ _ _ _ _ (shape_plateau nx ny c)) by lia.
    destruct (interiorb nx ny i j) eqn:E; [|reflexivity].
    apply interiorb_spec in E. unfold is_interior in E. lia.
  - rewrite (get_oob _ _ _ _ _ (shape_plateau nx ny c)) by lia.
    destruct (interiorb nx ny i j) eqn:E; [|reflexivity].
    apply interiorb_spec in E. unfold is_interior in E. lia.
Qed.

(** One pass without forcing shrinks the plateau by no more than the factor
    0.7, on the grid of the model. *)
Lemma plateau_contracts :
  (let z := zeros (Grid.nx + 1) (Grid.ny + 1) in
   let psi := relax1_init (plateau Grid.nx Grid.ny (of_Z (9379 ^ 40)))
                          (plateau Grid.nx Grid.ny (of_Z (9379 ^ 40))) in
   r1_scaled_leb (Grid.nx + 1) (Grid.ny + 1) (lit 0.7) psi
     (passes (relax1_body (relax1_nb_point z z Grid.nx Model.epsq Model.gamma)
                          Grid.nx Grid.ny) 1 psi)) = true.
Proof. vm_compute. reflexivity. Qed.

Lemma relax1_nb_visit v1 v3 j i st :
  r1_shape (Grid.nx + 1) (Grid.ny + 1) st ->
  (i < Grid.nx + 1)%nat -> (j < Grid.ny + 1)%nat ->
  r1_shape (Grid.nx + 1) (Grid.ny + 1)
    (relax1_nb_point v1 v3 Grid.nx Model.epsq Model.gamma j i st) /\
  (forall i' j', (i, j) <> (i', j') ->
     get (r1_s1 (relax1_nb_point v1 v3 Grid.nx Model.epsq Model.gamma j i st)) i' j' =
     get (r1_s1 st) i' j') /\
  r1_maxdiff st <=
    r1_maxdiff (relax1_nb_point v1 v3 Grid.nx Model.epsq Model.gamma j i st) /\
  Qcabs (get (r1_s1 (relax1_nb_point v1 v3 Grid.nx Model.epsq Model.gamma j i st)) i j -
         get (r1_s1 st) i j) <=
    r1_maxdiff (relax1_nb_point v1 v3 Grid.nx Model.epsq Model.gamma j i st).
Proof.
  intros Hs Hi Hj.
  destruct (relax1_nb_point_spec v1 v3 Grid.nx Model.epsq Model.gamma
              (relax1_den_nonzero _ _ model_den_pos) _ _ j i st Hs Hi Hj)
    as (A & _ & _ & B & _ & C & D).
  splits; auto. intros i' j' Hne. now apply B.
Qed.

Lemma Qcminus_0_r (p : Qc) : p - 0 = p.
Proof. ring. Qed.

(** From rest and under [strong_forcing], every one of the hundred passes
    of [relax1_nb] on the grid of the model fails the convergence test. *)
Lemma strong_forcing_unconverged :
  let point := relax1_nb_point strong_forcing strong_forcing
                 Grid.nx Model.epsq Model.gamma in
  let z := zeros (Grid.nx + 1) (Grid.ny + 1) in
  relax1_loop point Grid.nx Grid.ny z z =
    passes (relax1_body point Grid.nx Grid.ny) 100 (relax1_init z z) /\
  relax1_threshold <=
    r1_maxdiff (passes (relax1_body point Grid.nx Grid.ny) 100 (relax1_init z z)).
Proof.
  intros point z.
  pose (point0 := relax1_nb_point z z Grid.nx Model.epsq Model.gamma).
  remember (passes (relax1_body point Grid.nx Grid.ny) 1 (relax1_init z z)) as init0
    eqn:Einit.
  pose (K := of_Z (9379 ^ 40)).
  pose (psi := relax1_init (plateau Grid.nx Grid.ny K) (plateau Grid.nx Grid.ny K)).
  pose (V := lit 1e30).
  pose (c := V / relax1_den Model.epsq Model.gamma / K).
  assert (Sz : r1_shape (Grid.nx + 1) (Grid.ny + 1) (relax1_init z z))
    by (split; apply shape_zeros).
  assert (Spsi : r1_shape (Grid.nx + 1) (Grid.ny + 1) psi)
    by (split; apply shape_plateau).
  assert (Nz : r1_nonneg (mkRelax1 z z 0 0 0)).
  { intros i j. cbn [r1_s1 r1_s3]. unfold z. rewrite get_zeros.
    split; apply Qcle_refl. }
  assert (HV : 0 <= V) by (apply Qcltb_ge; vm_compute; reflexivity).
  assert (Hforce : forall i j, (i < Grid.nx + 1)%nat -> (j < Grid.ny + 1)%nat ->
            V <= - get strong_forcing i j).
  { intros i j Hi Hj. unfold strong_forcing.
    rewrite (get_fill_in (Grid.nx + 1) (Grid.ny + 1)) by (auto using shape_zeros).
    rewrite Qcopp_involutive. apply Qcle_refl. }
  destruct (relax1_fold_lower strong_forcing strong_forcing Grid.nx
              Model.epsq Model.gamma (Grid.nx + 1) (Grid.ny + 1) V
              model_epsq_nonneg model_gamma_nonneg model_den_pos HV Hforce Hforce
              (interior Grid.nx Grid.ny) (mkRelax1 z z 0 0 0)
              (interior_in_bounds Grid.nx Grid.ny) Sz Nz) as (S0 & N0 & L0).
  assert (E0 : init0 =
               fold_left (fun st p => point (fst p) (snd p) st)
                         (interior Grid.nx Grid.ny) (mkRelax1 z z 0 0 0))
    by (rewrite Einit, (relax1_passes_S point Grid.nx Grid.ny 0); reflexivity).
  fold point in S0, N0, L0. rewrite <- E0 in S0, N0, L0.
  apply (relax1_loop_unconverged point point0 Grid.nx Grid.ny) with
    (init0 := init0) (j0 := 1%nat) (i0 := 1%nat)
    (rest := tl (interior Grid.nx Grid.ny)) (psi := psi) (c := c) (r := lit 0.7).
  - apply relax1_nb_visit.
  - intros j i a b d. apply relax1_point_diff;
      auto using model_epsq_nonneg, model_gamma_nonneg, model_den_pos.
  - intros c' j i a b. apply relax1_point_scaled_le;
      auto using model_epsq_nonneg, model_gamma_nonneg, model_den_pos.
  - rewrite <- Einit. unfold r1_diff. splits; auto. intros i j.
    cbn [relax1_init r1_s1 r1_s3]. unfold z. rewrite get_zeros.
    split; apply Qcminus_0_r.
  - reflexivity.
  - apply absentb_sound. vm_compute. reflexivity.
  - apply Qcltb_ge. vm_compute. reflexivity.
  - apply Qcltb_ge. vm_compute. reflexivity.
  - apply Qcltb_ge. vm_compute. reflexivity.
  - exact Spsi.
  - apply r1_scaled_leb_sound; [exact Spsi| |exact plateau_contracts].
    rewrite (relax1_passes_S point0 Grid.nx Grid.ny 0). cbn [passes].
    apply (relax1_sweep_shape point0 Grid.nx Grid.ny (relax1_nb_visit z z));
      [apply interior_in_bounds|exact Spsi].
  - unfold r1_scaled_le. splits; auto. intros i j.
    cbn [psi relax1_init r1_s1 r1_s3]. rewrite get_plateau.
    destruct (interiorb Grid.nx Grid.ny i j) eqn:E.
    + apply interiorb_spec, in_interior in E.
      destruct (L0 i j (or_introl E)) as [A B].
      assert (HcK : c * K <= V / relax1_den Model.epsq Model.gamma)
        by (apply Qcltb_ge; vm_compute; reflexivity).
      split; (eapply Qcle_trans; [exact HcK|assumption]).
    + rewrite Qcmult_0_r. apply N0.
  - apply Qcltb_ge. vm_compute. reflexivity.
  - apply Qcltb_ge. vm_compute. reflexivity.
Qed.

Lemma relax1_passes_iter point nx ny k st :
  (forall j i st, r1_iter (point j i st) = r1_iter st) ->
  r1_iter (passes (relax1_body point nx ny) (S k) st) = k.
Proof.
  intros Hiter. rewrite relax1_passes_S. now apply relax1_sweep_iter.
Qed.

(** C1 fails on the code.  The test [iter >= 100] that guards the
    [raise] follows a loop over [range(100)], in which [iter] never exceeds
    99: [relax1_nb] and the method [relax1] return normally on every input.
    On the grid of the model, from rest and with the forcing [-1e30] at
    every point of both levels, all hundred passes run, the last one still
    has a maximum residual above [0.5*3.75e4], and the call returns that
    iterate without an error. *)
Theorem relax1_nb_returns_unconverged :
  (forall v1 v3 s1 s3 nx ny epsq gamma,
     raised (relax1_nb v1 v3 s1 s3 nx ny epsq gamma) = None) /\
  (forall v s, raised (Model.relax1 v s) = None) /\
  let z := zeros (Grid.nx + 1) (Grid.ny + 1) in
  let point := relax1_nb_point strong_forcing strong_forcing
                 Grid.nx Model.epsq Model.gamma in
  let st := passes (relax1_body point Grid.nx Grid.ny) 100 (relax1_init z z) in
  relax1_nb strong_forcing strong_forcing z z Grid.nx Grid.ny Model.epsq Model.gamma =
    Normal (r1_s1 st, r1_s3 st) /\
  r1_iter st = 99%nat /\
  relax1_threshold <= r1_maxdiff st.
Proof.
  split; [|split].
  - intros. now rewrite relax1_nb_normal.
  - apply relax1_normal.
  - intros z point st.
    destruct strong_forcing_unconverged as [E H].
    fold z point in E, H. fold st in E, H.
    splits.
    + rewrite relax1_nb_normal. fold point. now rewrite E.
    + apply relax1_passes_iter. apply relax1_nb_point_iter.
    + exact H.
Qed.

(** *** The visiting order matters to [relax1_nb] *)

Lemma interior_swapped_permutation :
  Permutation (interior Grid.nx Grid.ny) interior_swapped.
Proof.
  assert (E : interior Grid.nx Grid.ny =
              removelast (removelast (interior Grid.nx Grid.ny)) ++
              [(Grid.ny - 1, Grid.nx - 1); (Grid.ny - 1, Grid.nx)]%nat)
    by reflexivity.
  rewrite E at 1. unfold interior_swapped.
  apply Permutation_app_head, perm_swap.
Qed.

(** C2 fails on [relax1_nb].  With a forcing at the last interior point of
    level 1 alone, from rest, the call is one pass; its level 3 at that point
    is computed from the level 1 written a moment before in the same pass, not
    from the previous iterate, and the pass gives another result when its
    last two points are visited in the other order. *)
Theorem relax1_nb_sweep_depends_on_order :
  let z := zeros (Grid.nx + 1) (Grid.ny + 1) in
  let point := relax1_nb_point last_point_forcing z Grid.nx Model.epsq Model.gamma in
  let st := relax1_sweep point (interior Grid.nx Grid.ny) 0 (relax1_init z z) in
  let st' := relax1_sweep point interior_swapped 0 (relax1_init z z) in
  relax1_nb last_point_forcing z z z Grid.nx Grid.ny Model.epsq Model.gamma =
    Normal (r1_s1 st, r1_s3 st) /\
  relax1_new z Grid.nx Model.epsq Model.gamma z z Grid.nx (Grid.ny - 1) = 0 /\
  get (r1_s3 st) Grid.nx (Grid.ny - 1) <> 0 /\
  Permutation (interior Grid.nx Grid.ny) interior_swapped /\
  get (r1_s1 st) (Grid.nx - 1) (Grid.ny - 1) = 0 /\
  get (r1_s1 st') (Grid.nx - 1) (Grid.ny - 1) <> 0.
Proof.
  intros z point st st'. splits.
  - rewrite relax1_nb_normal. fold point.
    assert (E : relax1_loop point Grid.nx Grid.ny z z = st).
    { unfold relax1_loop.
      destruct (for_break_range (relax1_body point Grid.nx Grid.ny)
                  (mkRelax1 z z 0 0 0) 100) as (k & Hk & E & Hbefore & _); [lia|].
      assert (S0 : stops (relax1_body point Grid.nx Grid.ny) 0 (mkRelax1 z z 0 0 0)
                   = true) by (vm_compute; reflexivity).
      destruct k as [|k]; [|rewrite Hbefore in S0 by lia; discriminate].
      rewrite E. apply (relax1_passes_S point Grid.nx Grid.ny 0). }
    now rewrite E.
  - apply Qc_is_canon. vm_compute. reflexivity.
  - intros H. apply (f_equal this) in H. vm_compute in H. discriminate H.
  - apply interior_swapped_permutation.
  - apply Qc_is_canon. vm_compute. reflexivity.
  - intros H. apply (f_equal this) in H. vm_compute in H. discriminate H.
Qed.

(** ** The perturbation *)

Lemma get_add2 n m a b i j :
  shape n m a -> shape n m b -> (i < n)%nat -> (j < m)%nat ->
  get (add2 a b) i j = get a i j + get b i j.
Proof.
  intros Ha Hb Hi Hj. unfold get, add2.
  rewrite (nth_map2 _ _ _ _ [] [])
    by (rewrite ?(shape_length _ _ _ Ha), ?(shape_length _ _ _ Hb); lia).
  apply nth_map2;
    [rewrite (shape_row _ _ _ _ Ha Hi)|rewrite (shape_row _ _ _ _ Hb Hi)]; lia.
Qed.

Lemma shape_perturbation :
  shape (Grid.nx + 1) (Grid.ny + 1) (l1t Model.perturbation) /\
  shape (Grid.nx + 1) (Grid.ny + 1) (l3t Model.perturbation).
Proof. split; apply shapeb_shape; vm_compute; reflexivity. Qed.

Lemma shape_interpolate_level n m a b p q :
  shape n m a -> shape n m b -> shape n m (Model.interpolate_level a b p q).
Proof.
  intros [Ha Hra] [Hb Hrb]. unfold Model.interpolate_level. split.
  - rewrite map2_length. lia.
  - clear Ha Hb. revert b Hrb.
    induction Hra as [|r t Hl Ht IH]; intros [|r' t'] Hrb; cbn [map2]; constructor.
    + inversion Hrb; subst. cbn beta in *. rewrite map2_length. lia.
    + apply IH. now inversion Hrb.
Qed.




(** ** The time step of [step] (C6) *)

Section StepFrames.

Variable dgetrf : arr2 -> arr2 * list Z.
Variable dgetrs : arr2 -> list Z -> arr1 -> arr1.
Variable dgtsv : arr1 -> arr1 -> arr1 -> arr1 -> arr1.

(** What the first stage of a step leaves alone. *)
Lemma calc_zonstream_frame (m : Model.State) :
  let m' := data (Model.calc_zonstream dgetrf dgetrs m) in
  Model.v m' = Model.v m /\ Model.vm m' = Model.vm m /\ Model.x m' = Model.x m /\
  Model.time m' = Model.time m /\ Model.dt m' = Model.dt m.
Proof.
  unfold Model.calc_zonstream. cbv zeta.
  destruct (Model.first_step m).
  - cbn [Model.lu Model.with_lu].
    destruct (dgetrf (tail_block Model.zonstream_amat)) as [f piv].
    cbn [data Model.with_s Model.with_lu Model.v Model.vm Model.x Model.time Model.dt].
    repeat split.
  - destruct (Model.lu m) as [[f piv]|];
      cbn [data Model.with_s Model.v Model.vm Model.x Model.time Model.dt];
      repeat split.
Qed.

Lemma step_streamfunction_frame (m : Model.State) :
  let m' := data (Model.step_streamfunction dgetrf dgetrs m) in
  Model.v m' = split (Model.v m) /\ Model.vm m' = Model.vm m /\
  Model.x m' = Model.x m /\
  Model.time m' = Model.time m /\ Model.dt m' = Model.dt m.
Proof.
  unfold Model.step_streamfunction.
  pose proof (calc_zonstream_frame (Model.with_v m (split (Model.v m)))) as F.
  cbv zeta in F.
  destruct (Model.calc_zonstream dgetrf dgetrs (Model.with_v m (split (Model.v m))))
    as [mz | e mz]; cbn [data Model.obind] in *.
  - destruct F as (Fv & Fvm & Fx & Ft & Fd).
    cbn [Model.with_v Model.v Model.vm Model.x Model.time Model.dt] in *.
    destruct (relax1_nb _ _ _ _ _ _ _ _) as [[s1 s3] | e [s1 s3]]; cbn [Model.obind data].
    + cbn [Model.with_s Model.time].
      destruct (is_multiple (Model.time mz) Model.diag_freq).
      * unfold Model.diag.
        destruct (Model.calc_energy _ _ _) as [[[zke eke] zpe] epe].
        destruct (Qcltb (lit 1e5) eke);
          cbn [data Model.with_s Model.v Model.vm Model.x Model.time Model.dt];
          auto.
      * cbn [data Model.with_s Model.v Model.vm Model.x Model.time Model.dt]. auto.
    + cbn [data Model.with_s Model.v Model.vm Model.x Model.time Model.dt]. auto.
  - exact F.
Qed.

Lemma spinup_streamfunction_frame (m : Model.State) :
  let m' := data (Model.spinup_streamfunction dgetrf dgetrs m) in
  Model.v m' = split (Model.v m) /\ Model.vm m' = Model.vm m /\
  Model.x m' = Model.x m /\
  Model.time m' = Model.time m /\ Model.dt m' = Model.dt m.
Proof.
  unfold Model.spinup_streamfunction.
  pose proof (calc_zonstream_frame (Model.with_v m (split (Model.v m)))) as F.
  cbv zeta in F.
  destruct (Model.calc_zonstream dgetrf dgetrs (Model.with_v m (split (Model.v m))))
    as [mz | e mz]; cbn [data Model.obind] in *.
  - cbn [data Model.with_s Model.v Model.vm Model.x Model.time Model.dt]. exact F.
  - exact F.
Qed.

(** The stages after the streamfunction keep the time step. *)
Lemma step_update_dt (m : Model.State) :
  Model.dt (Model.advance_clock
              (Model.anomaly_update (Model.zonal_update dgtsv (Model.tendency m)))) =
  Model.dt m.
Proof.
  unfold Model.advance_clock, Model.anomaly_update, Model.zonal_update, Model.tendency.
  cbv zeta.
  cbn [Model.with_x Model.with_v Model.time Model.dt].
  destruct (Qc_eq_bool (Model.time m) (lit 0.0)); reflexivity.
Qed.

Lemma step_core_dt (m : Model.State) :
  Model.dt (data (Model.step_core dgetrf dgetrs dgtsv m)) = Model.dt m.
Proof.
  unfold Model.step_core.
  pose proof (step_streamfunction_frame m) as F. cbv zeta in F.
  destruct (Model.step_streamfunction dgetrf dgetrs m) as [ms | e ms];
    cbn [data Model.obind] in *.
  - rewrite step_update_dt. apply F.
  - apply F.
Qed.

End StepFrames.

(** The adaptation block either leaves the step alone or takes [min_dt]
    off it, the latter exactly under the three tests of the source. *)
Lemma adapt_step_dt (m : Model.State) :
  (Model.dt (Model.adapt_step m) = Model.dt m /\
   (is_multiple (Model.time m) (lit 86400) = false \/
    Model.dt m <= Model.min_dt \/
    Model.stability_criterion (Model.dt m) (Model.s m) <= lit 0.9)) \/
  (Model.dt (Model.adapt_step m) = Model.dt m - Model.min_dt /\
   is_multiple (Model.time m) (lit 86400) = true /\
   Model.min_dt < Model.dt m /\
   lit 0.9 < Model.stability_criterion (Model.dt m) (Model.s m)).
Proof.
  unfold Model.adapt_step. cbv zeta. cbn [Model.variable_step andb].
  destruct (is_multiple (Model.time m) (lit 86400)) eqn:Em; cbn [andb];
    [|left; split; [reflexivity | left; reflexivity]].
  destruct (Qcltb Model.min_dt (Model.dt m)) eqn:El;
    [|left; split; [reflexivity | right; left; apply Qcltb_ge; exact El]].
  destruct (Qcltb (lit 0.9) (Model.stability_criterion (Model.dt m) (Model.s m))) eqn:Es;
    [|left; split; [reflexivity | right; right; apply Qcltb_ge; exact Es]].
  right. cbn [Model.with_dt Model.with_vm Model.dt].
  apply Qcltb_lt in El. apply Qcltb_lt in Es. auto.
Qed.

Lemma min_dt_pos : 0 < Model.min_dt.
Proof. apply Qcltb_lt. vm_compute. reflexivity. Qed.

Lemma Qcminus_le_pos (p d : Qc) : 0 < d -> p - d <= p.
Proof. intros H. qc2q. lra. Qed.

Lemma dt_levels_step (d : Qc) :
  In d dt_levels -> Model.min_dt < d -> In (d - Model.min_dt) dt_levels.
Proof.
  unfold dt_levels. cbn [In].
  intros [<- | [<- | [<- | [<- | []]]]] Hlt.
  - right; left. apply Qc_is_canon. reflexivity.
  - right; right; left. apply Qc_is_canon. reflexivity.
  - right; right; right; left. apply Qc_is_canon. reflexivity.
  - exfalso. exact (Qclt_not_le _ _ Hlt (Qcle_refl _)).
Qed.

Lemma dt_levels_floor (d : Qc) : In d dt_levels -> Model.min_dt <= d.
Proof.
  unfold dt_levels. cbn [In].
  intros [<- | [<- | [<- | [<- | []]]]];
    apply Qcltb_ge; vm_compute; reflexivity.
Qed.

Section StepDt.

Variable dgetrf : arr2 -> arr2 * list Z.
Variable dgetrs : arr2 -> list Z -> arr1 -> arr1.
Variable dgtsv : arr1 -> arr1 -> arr1 -> arr1 -> arr1.

(** One call of [step]: the time step stays, or it loses [min_dt] after a
    step that ended normally on a whole day with the criterion above 0.9. *)
Lemma step_dt_cases (m : Model.State) :
  let m' := data (Model.step dgetrf dgetrs dgtsv m) in
  Model.dt m' = Model.dt m \/
  (Model.dt m' = Model.dt m - Model.min_dt /\
   Model.min_dt < Model.dt m /\
   exists mc,
     Model.step_core dgetrf dgetrs dgtsv m = Normal mc /\
     is_multiple (Model.time mc) (lit 86400) = true /\
     lit 0.9 < Model.stability_criterion (Model.dt m) (Model.s mc)).
Proof.
  unfold Model.step.
  pose proof (step_core_dt dgetrf dgetrs dgtsv m) as F.
  destruct (Model.step_core dgetrf dgetrs dgtsv m) as [mc | e mc];
    cbn [data Model.obind] in *.
  - destruct (adapt_step_dt mc) as [[E _] | (E & Hm & Hl & Hs)]; rewrite F in *.
    + left. exact E.
    + right. split; [exact E|]. split; [exact Hl|].
      exists mc. auto.
  - left. exact F.
Qed.

Lemma steps_dt_levels (m : Model.State) (n : nat) :
  Model.dt m = Model.dt2 ->
  In (Model.dt (Model.steps dgetrf dgetrs dgtsv n m)) dt_levels.
Proof.
  intros H0. induction n as [|n IH].
  - cbn [Model.steps]. rewrite H0. left. reflexivity.
  - cbn [Model.steps].
    destruct (step_dt_cases (Model.steps dgetrf dgetrs dgtsv n m))
      as [E | (E & Hl & _)]; rewrite E.
    + exact IH.
    + apply dt_levels_step; assumption.
Qed.

End StepDt.

(** C6. Along any number of calls of [step] that start with the time step
    [dt2], the time step is one of 7200, 5400, 3600 and 1800, so it is never
    below [min_dt]; a call never raises it, and a call that changes it takes
    exactly [min_dt] off it, which happens only when the step was above
    [min_dt], the body of the step ended on a whole day, and the stability
    criterion there was above 0.9. *)
Theorem step_dt_only_decreases_by_min_dt
    (dgetrf : arr2 -> arr2 * list Z)
    (dgetrs : arr2 -> list Z -> arr1 -> arr1)
    (dgtsv : arr1 -> arr1 -> arr1 -> arr1 -> arr1)
    (m : Model.State) (n : nat) :
  Model.dt m = Model.dt2 ->
  let before := Model.steps dgetrf dgetrs dgtsv n m in
  let after := Model.steps dgetrf dgetrs dgtsv (S n) m in
  In (Model.dt before) dt_levels /\
  Model.min_dt <= Model.dt before /\
  Model.dt after <= Model.dt before /\
  (Model.dt after = Model.dt before \/
   (Model.dt after = Model.dt before - Model.min_dt /\
    Model.min_dt < Model.dt before /\
    exists mc,
      Model.step_core dgetrf dgetrs dgtsv before = Normal mc /\
      is_multiple (Model.time mc) (lit 86400) = true /\
      lit 0.9 < Model.stability_criterion (Model.dt before) (Model.s mc))).
Proof.
  intros H0 before after.
  pose proof (steps_dt_levels dgetrf dgetrs dgtsv m n H0) as L.
  fold before in L.
  pose proof (step_dt_cases dgetrf dgetrs dgtsv before) as C. cbv zeta in C.
  change (data (Model.step dgetrf dgetrs dgtsv before)) with after in C.
  split; [exact L|]. split; [apply dt_levels_floor; exact L|].
  split; [|exact C].
  destruct C as [E | (E & _)]; rewrite E.
  - apply Qcle_refl.
  - apply Qcminus_le_pos. exact min_dt_pos.
Qed.

Lemma step_dt_only_decreases_by_min_dt_witness :
  Model.dt stepping_start = Model.dt2 /\
  Model.min_dt <= Model.dt stepping_start /\
  Model.dt (Model.steps ref_dgetrf ref_dgetrs ref_dgtsv 1 stepping_start) <=
  Model.dt stepping_start.
Proof.
  assert (H : Model.dt stepping_start = Model.dt2) by reflexivity.
  split; [exact H|].
  destruct (step_dt_only_decreases_by_min_dt ref_dgetrf ref_dgetrs ref_dgtsv
              stepping_start 0 H) as (_ & Hfloor & Hle & _).
  split; [exact Hfloor | exact Hle].
Defined.

(** The decrement does happen: at the end of a day, with a steep
    streamfunction, the adaptation block takes the step from 7200 to 5400. *)
Example adapt_step_takes_min_dt :
  Model.dt (Model.adapt_step steep_day_end) = lit 5400.
Proof. apply Qc_is_canon. vm_compute. reflexivity. Qed.

(** ** The forward step from rest (C7) *)

Lemma outcome_normal {A : Type} (o : outcome A) : raised o = None -> o = Normal (data o).
Proof. destruct o; [reflexivity | discriminate]. Qed.

(** At time zero the zonal update overwrites the zonal means of [v] with
    half those of the tendency, whatever the solver returned, and leaves
    [vm] alone. *)
Lemma zonal_update_first
    (dgtsv : arr1 -> arr1 -> arr1 -> arr1 -> arr1) (m : Model.State) :
  Model.time m = lit 0.0 ->
  Model.zonal_update dgtsv m =
  Model.with_v m (Model.with_l1z_l3z (Model.v m)
                    (scale1 (lit 0.5) (l1z (Model.x m)))
                    (scale1 (lit 0.5) (l3z (Model.x m)))).
Proof.
  intros H. unfold Model.zonal_update. cbv zeta.
  cbn [Model.with_v Model.time Model.x Model.v].
  rewrite (proj2 (Qc_eq_bool_iff _ _) H).
  reflexivity.
Qed.

(** At any other time it keeps the solution of [calc_zvor] and copies the
    totals of [v], not yet updated, into [vm]. *)
Lemma zonal_update_later
    (dgtsv : arr1 -> arr1 -> arr1 -> arr1 -> arr1) (m : Model.State) :
  Model.time m <> lit 0.0 ->
  Model.zonal_update dgtsv m =
  Model.with_vm
    (Model.with_v m (Model.calc_zvor dgtsv (Model.x m) (Model.dt m) (Model.v m)))
    (settot (Model.vm m) (Model.v m)).
Proof.
  intros H. unfold Model.zonal_update. cbv zeta.
  cbn [Model.with_v Model.time Model.x Model.v Model.vm Model.dt].
  destruct (Qc_eq_bool (Model.time m) (lit 0.0)) eqn:E.
  - apply Qc_eq_bool_iff in E. contradiction.
  - reflexivity.
Qed.

Lemma advance_clock_nonzero (m : Model.State) :
  0 <= Model.time m -> 0 < Model.dt m ->
  Model.time (Model.advance_clock m) <> lit 0.0.
Proof.
  intros Ht Hd. unfold Model.advance_clock. cbv zeta. cbn [Model.with_clock Model.time].
  rewrite lit_zero. intros E.
  assert (L : 0 < Model.time m + Model.dt m).
  { generalize dependent (Model.time m). generalize dependent (Model.dt m).
    intros d Hd t Ht _. qc2q. lra. }
  rewrite E in L. exact (Qclt_not_le _ _ L (Qcle_refl _)).
Qed.

(** [split] sets the zonal means to those of the totals, which it keeps;
    the tendency of a step is the result of a [split]. *)
Lemma split_zmean (u : Var) :
  l1z (split u) = zmean (l1t (split u)) /\ l3z (split u) = zmean (l3t (split u)).
Proof. split; reflexivity. Qed.

Lemma tendency_x (m : Model.State) : exists u, Model.x (Model.tendency m) = split u.
Proof.
  unfold Model.tendency. cbn [Model.with_x Model.x]. eexists. reflexivity.
Qed.

Section ZonalStages.

Variable dgtsv : arr1 -> arr1 -> arr1 -> arr1 -> arr1.

(** The stages that follow the zonal update in [step] and in [spinup] keep
    the zonal means of [v] and the whole of [vm]. *)
Lemma step_finish_frame (m : Model.State) :
  let m' := Model.advance_clock (Model.anomaly_update m) in
  l1z (Model.v m') = l1z (Model.v m) /\ l3z (Model.v m') = l3z (Model.v m) /\
  Model.vm m' = Model.vm m /\
  Model.time m' = Model.time m + Model.dt m.
Proof. cbv zeta. repeat split. Qed.

Lemma spinup_finish_frame (m : Model.State) :
  let m' := Model.advance_clock (Model.zonal_total m) in
  l1z (Model.v m') = l1z (Model.v m) /\ l3z (Model.v m') = l3z (Model.v m) /\
  Model.vm m' = Model.vm m /\
  Model.time m' = Model.time m + Model.dt m.
Proof. cbv zeta. repeat split. Qed.

(** The zonal update between a tendency and one of the two finishing
    stages [fin]. *)
Lemma zonal_stage (fin : Model.State -> Model.State) (m ms : Model.State) :
  (forall u, let u' := Model.advance_clock (fin u) in
     l1z (Model.v u') = l1z (Model.v u) /\ l3z (Model.v u') = l3z (Model.v u) /\
     Model.vm u' = Model.vm u /\
     Model.time u' = Model.time u + Model.dt u) ->
  Model.v ms = split (Model.v m) -> Model.vm ms = Model.vm m ->
  Model.time ms = Model.time m -> Model.dt ms = Model.dt m ->
  let mt := Model.tendency ms in
  let solved := Model.calc_zvor dgtsv (Model.x mt) (Model.dt m) (Model.v ms) in
  let m' := Model.advance_clock (fin (Model.zonal_update dgtsv mt)) in
  (l1z (Model.x mt) = zmean (l1t (Model.x mt)) /\
   l3z (Model.x mt) = zmean (l3t (Model.x mt))) /\
  (Model.time m = lit 0.0 ->
   l1z (Model.v m') = scale1 (lit 0.5) (l1z (Model.x mt)) /\
   l3z (Model.v m') = scale1 (lit 0.5) (l3z (Model.x mt)) /\
   Model.vm m' = Model.vm m /\
   forall dgtsv', Model.zonal_update dgtsv' mt = Model.zonal_update dgtsv mt) /\
  (Model.time m <> lit 0.0 ->
   l1z (Model.v m') = l1z solved /\ l3z (Model.v m') = l3z solved /\
   Model.vm m' = settot (Model.vm m) (Model.v m)) /\
  (0 <= Model.time m -> 0 < Model.dt m -> Model.time m' <> lit 0.0).
Proof.
  intros Hfin Fv Fvm Ft Fd mt solved m'.
  assert (Tt : Model.time mt = Model.time m) by exact Ft.
  assert (Td : Model.dt mt = Model.dt m) by exact Fd.
  assert (Tvm : Model.vm mt = Model.vm m) by exact Fvm.
  assert (Tv : Model.v mt = Model.v ms) by reflexivity.
  destruct (Hfin (Model.zonal_update dgtsv mt)) as (G1 & G3 & Gvm & Gt).
  fold m' in G1, G3, Gvm, Gt.
  split.
  { destruct (tendency_x ms) as [u Eu]. fold mt in Eu. rewrite Eu.
    apply split_zmean. }
  split; [|split].
  - intros H0. rewrite <- Tt in H0.
    pose proof (zonal_update_first dgtsv mt H0) as Z.
    rewrite Z in G1, G3, Gvm. rewrite G1, G3, Gvm.
    split; [reflexivity|]. split; [reflexivity|]. split; [exact Tvm|].
    intros dgtsv'. rewrite (zonal_update_first dgtsv' mt H0). symmetry. exact Z.
  - intros H0. rewrite <- Tt in H0.
    pose proof (zonal_update_later dgtsv mt H0) as Z.
    rewrite Z in G1, G3, Gvm. rewrite G1, G3, Gvm.
    cbn [Model.with_vm Model.with_v Model.v Model.vm].
    rewrite Td, Tv.
    split; [reflexivity|]. split; [reflexivity|].
    change (Model.vm mt) with (Model.vm ms). rewrite Fvm.
    unfold settot. rewrite Fv. reflexivity.
  - intros Ht Hd.
    assert (Zt : Model.time (Model.zonal_update dgtsv mt) = Model.time m).
    { unfold Model.zonal_update. cbv zeta.
      destruct (Qc_eq_bool _ _); exact Ft. }
    assert (Zd : Model.dt (Model.zonal_update dgtsv mt) = Model.dt m).
    { unfold Model.zonal_update. cbv zeta.
      destruct (Qc_eq_bool _ _); exact Fd. }
    rewrite Gt, Zt, Zd, lit_zero. intros E.
    assert (L : 0 < Model.time m + Model.dt m).
    { generalize dependent (Model.time m). generalize dependent (Model.dt m).
      intros. qc2q. lra. }
    rewrite E in L. exact (Qclt_not_le _ _ L (Qcle_refl _)).
Qed.

End ZonalStages.

(** C7. In [step] and in a pass of [spinup], once the streamfunction stage
    has ended normally: the zonal means of the tendency [x] are the zonal
    means of its totals; when the clock is at zero at the start of the update,
    the zonal mean vorticity of both levels ends as exactly half those means,
    the same whatever the tridiagonal solver returned, and [vm] is left as it
    was; at any other time the zonal mean vorticity is the one [calc_zvor]
    solved for and the totals of [vm] are those [v] had before the update.
    The clock is not at zero after an update that started at a time not below
    zero with a positive step, so the first case occurs on the first update
    only.  The statement for [step] is about its body before the adaptation
    of the time step, which may interpolate [vm] again. *)
Theorem zonal_forward_step_from_rest
    (dgetrf : arr2 -> arr2 * list Z)
    (dgetrs : arr2 -> list Z -> arr1 -> arr1)
    (dgtsv : arr1 -> arr1 -> arr1 -> arr1 -> arr1)
    (m ms : Model.State) :
  Model.step_streamfunction dgetrf dgetrs m = Normal ms ->
  (let mt := Model.tendency ms in
   let solved := Model.calc_zvor dgtsv (Model.x mt) (Model.dt m) (Model.v ms) in
   let m' := Model.advance_clock
               (Model.anomaly_update (Model.zonal_update dgtsv mt)) in
   Model.step_core dgetrf dgetrs dgtsv m = Normal m' /\
   (l1z (Model.x mt) = zmean (l1t (Model.x mt)) /\
    l3z (Model.x mt) = zmean (l3t (Model.x mt))) /\
   (Model.time m = lit 0.0 ->
    l1z (Model.v m') = scale1 (lit 0.5) (l1z (Model.x mt)) /\
    l3z (Model.v m') = scale1 (lit 0.5) (l3z (Model.x mt)) /\
    Model.vm m' = Model.vm m /\
    forall dgtsv', Model.step_core dgetrf dgetrs dgtsv' m = Normal m') /\
   (Model.time m <> lit 0.0 ->
    l1z (Model.v m') = l1z solved /\ l3z (Model.v m') = l3z solved /\
    Model.vm m' = settot (Model.vm m) (Model.v m)) /\
   (0 <= Model.time m -> 0 < Model.dt m -> Model.time m' <> lit 0.0)) /\
  (forall mp,
   Model.spinup_streamfunction dgetrf dgetrs m = Normal mp ->
   let mt := Model.tendency mp in
   let solved := Model.calc_zvor dgtsv (Model.x mt) (Model.dt m) (Model.v mp) in
   let m' := Model.advance_clock
               (Model.zonal_total (Model.zonal_update dgtsv mt)) in
   fst (Model.spinup_iter dgetrf dgetrs dgtsv m) = Normal m' /\
   (l1z (Model.x mt) = zmean (l1t (Model.x mt)) /\
    l3z (Model.x mt) = zmean (l3t (Model.x mt))) /\
   (Model.time m = lit 0.0 ->
    l1z (Model.v m') = scale1 (lit 0.5) (l1z (Model.x mt)) /\
    l3z (Model.v m') = scale1 (lit 0.5) (l3z (Model.x mt)) /\
    Model.vm m' = Model.vm m /\
    forall dgtsv', fst (Model.spinup_iter dgetrf dgetrs dgtsv' m) = Normal m') /\
   (Model.time m <> lit 0.0 ->
    l1z (Model.v m') = l1z solved /\ l3z (Model.v m') = l3z solved /\
    Model.vm m' = settot (Model.vm m) (Model.v m)) /\
   (0 <= Model.time m -> 0 < Model.dt m -> Model.time m' <> lit 0.0)).
Proof.
  intros Hs. split.
  - intros mt solved m'.
    pose proof (step_streamfunction_frame dgetrf dgetrs m) as F. cbv zeta in F.
    rewrite Hs in F. cbn [data] in F. destruct F as (Fv & Fvm & Fx & Ft & Fd).
    destruct (zonal_stage dgtsv Model.anomaly_update m ms step_finish_frame
                Fv Fvm Ft Fd) as (Z & First & Later & Clock).
    fold mt in Z, First, Later, Clock. fold solved in Later.
    fold m' in First, Later, Clock.
    assert (Core : forall d, Model.step_core dgetrf dgetrs d m =
                     Normal (Model.advance_clock
                               (Model.anomaly_update (Model.zonal_update d mt)))).
    { intros d. unfold Model.step_core. rewrite Hs. reflexivity. }
    split; [apply Core|]. split; [exact Z|].
    split; [|split; [exact Later | exact Clock]].
    intros H0. destruct (First H0) as (A1 & A3 & Avm & Any).
    split; [exact A1|]. split; [exact A3|]. split; [exact Avm|].
    intros d. rewrite Core, Any. reflexivity.
  - intros mp Hp mt solved m'.
    pose proof (spinup_streamfunction_frame dgetrf dgetrs m) as F. cbv zeta in F.
    rewrite Hp in F. cbn [data] in F. destruct F as (Fv & Fvm & Fx & Ft & Fd).
    destruct (zonal_stage dgtsv Model.zonal_total m mp spinup_finish_frame
                Fv Fvm Ft Fd) as (Z & First & Later & Clock).
    fold mt in Z, First, Later, Clock. fold solved in Later.
    fold m' in First, Later, Clock.
    assert (Iter : forall d, fst (Model.spinup_iter dgetrf dgetrs d m) =
                     Normal (Model.advance_clock
                               (Model.zonal_total (Model.zonal_update d mt)))).
    { intros d. unfold Model.spinup_iter. rewrite Hp. reflexivity. }
    split; [apply Iter|]. split; [exact Z|].
    split; [|split; [exact Later | exact Clock]].
    intros H0. destruct (First H0) as (A1 & A3 & Avm & Any).
    split; [exact A1|]. split; [exact A3|]. split; [exact Avm|].
    intros d. rewrite Iter, Any. reflexivity.
Qed.

Lemma zonal_forward_step_from_rest_witness :
  let ms := data (Model.step_streamfunction ref_dgetrf ref_dgetrs Model.init) in
  let mp := data (Model.spinup_streamfunction ref_dgetrf ref_dgetrs Model.init) in
  let m1 := Model.advance_clock
              (Model.anomaly_update (Model.zonal_update ref_dgtsv (Model.tendency ms))) in
  let m2 := Model.advance_clock
              (Model.zonal_total (Model.zonal_update ref_dgtsv (Model.tendency mp))) in
  Model.step_streamfunction ref_dgetrf ref_dgetrs Model.init = Normal ms /\
  Model.spinup_streamfunction ref_dgetrf ref_dgetrs Model.init = Normal mp /\
  Model.step_core ref_dgetrf ref_dgetrs ref_dgtsv Model.init = Normal m1 /\
  l1z (Model.v m1) = scale1 (lit 0.5) (l1z (Model.x (Model.tendency ms))) /\
  Model.vm m1 = Model.vm Model.init /\
  fst (Model.spinup_iter ref_dgetrf ref_dgetrs ref_dgtsv Model.init) = Normal m2 /\
  l1z (Model.v m2) = scale1 (lit 0.5) (l1z (Model.x (Model.tendency mp))) /\
  Model.vm m2 = Model.vm Model.init.
Proof.
  intros ms mp m1 m2.
  assert (Hs : Model.step_streamfunction ref_dgetrf ref_dgetrs Model.init = Normal ms).
  { assert (R : raised (Model.step_streamfunction ref_dgetrf ref_dgetrs Model.init) = None)
      by (vm_compute; reflexivity).
    exact (outcome_normal _ R). }
  assert (Hp : Model.spinup_streamfunction ref_dgetrf ref_dgetrs Model.init = Normal mp).
  { assert (R : raised (Model.spinup_streamfunction ref_dgetrf ref_dgetrs Model.init) = None)
      by (vm_compute; reflexivity).
    exact (outcome_normal _ R). }
  split; [exact Hs|]. split; [exact Hp|].
  pose proof (zonal_forward_step_from_rest ref_dgetrf ref_dgetrs ref_dgtsv
              Model.init ms Hs) as T.
  destruct T as [(Core & _ & First & _) Spin].
  destruct (Spin mp Hp) as (Iter & _ & First' & _).
  destruct (First (eq_sym lit_zero)) as (A1 & _ & Avm & _).
  destruct (First' (eq_sym lit_zero)) as (B1 & _ & Bvm & _).
  split; [exact Core|]. split; [exact A1|]. split; [exact Avm|].
  split; [exact Iter|]. split; [exact B1 | exact Bvm].
Defined.

(** * Further properties of the code *)

(** ** Fixed points and the frame of [relax1_nb] *)

Lemma upd_nth_id {A} (l : list A) n d : upd l n (nth n l d) = l.
Proof.
  revert n. induction l as [|h t IH]; intros [|n]; simpl; try reflexivity.
  now rewrite IH.
Qed.

Lemma aset_get_id a i j : aset a i j (get a i j) = a.
Proof. unfold aset, get. now rewrite !upd_nth_id. Qed.

Lemma Qcdiv_0_l (d : Qc) : 0 / d = 0.
Proof. unfold Qcdiv. ring. Qed.

Lemma pymax_0_abs0 : pymax 0 (Qcabs 0) = 0.
Proof. apply Qc_is_canon. reflexivity. Qed.

(** A visit at a point where both residuals vanish changes nothing. *)
Lemma relax1_nb_point_fixed v1 v3 nx epsq gamma j i s1 s3 it :
  relax1_resid v1 nx epsq gamma s1 s3 i j = 0 ->
  relax1_resid v3 nx epsq gamma s3 s1 i j = 0 ->
  relax1_nb_point v1 v3 nx epsq gamma j i (mkRelax1 s1 s3 it 0 0) =
  mkRelax1 s1 s3 it 0 0.
Proof.
  unfold relax1_resid. intros E1 E3.
  unfold relax1_nb_point. cbv zeta. cbn [r1_s1 r1_s3 r1_iter r1_change r1_maxdiff].
  rewrite E1. rewrite !Qcdiv_0_l.
  replace (get s1 i j + 0) with (get s1 i j) by ring.
  rewrite aset_get_id. rewrite E3. rewrite !Qcdiv_0_l.
  replace (get s3 i j + 0) with (get s3 i j) by ring.
  rewrite aset_get_id.
  replace (sq 0) with 0 by (unfold sq; ring).
  rewrite !pymax_0_abs0.
  replace (0 + 0 + 0) with 0 by ring.
  reflexivity.
Qed.

Lemma relax1_threshold_pos : Qcltb 0 relax1_threshold = true.
Proof. vm_compute. reflexivity. Qed.

Lemma relax1_sweep_fixed v1 v3 nx epsq gamma order s1 s3 it st :
  (forall p, In p order ->
     relax1_resid v1 nx epsq gamma s1 s3 (snd p) (fst p) = 0 /\
     relax1_resid v3 nx epsq gamma s3 s1 (snd p) (fst p) = 0) ->
  r1_s1 st = s1 -> r1_s3 st = s3 ->
  relax1_sweep (relax1_nb_point v1 v3 nx epsq gamma) order it st =
  mkRelax1 s1 s3 it 0 0.
Proof.
  intros H E1 E3. unfold relax1_sweep. rewrite E1, E3.
  apply fold_left_inv with (I := fun s => s = mkRelax1 s1 s3 it 0 0).
  - reflexivity.
  - intros s p Hp ->. destruct (H p Hp) as [R1 R3].
    now apply relax1_nb_point_fixed.
Qed.

Lemma for_break_first {St : Type} (body : nat -> St -> St * bool) i rest s :
  snd (body i s) = true -> for_break body (i :: rest) s = fst (body i s).
Proof. intros H. cbn [for_break]. destruct (body i s) as [s' stop]. cbn in *. now subst. Qed.

Lemma relax1_loop_fixed (v1 v3 s1 s3 : arr2) (nx ny : nat) (epsq gamma : Qc) :
  (forall i j, is_interior nx ny i j ->
     relax1_resid v1 nx epsq gamma s1 s3 i j = 0 /\
     relax1_resid v3 nx epsq gamma s3 s1 i j = 0) ->
  relax1_loop (relax1_nb_point v1 v3 nx epsq gamma) nx ny s1 s3 =
    mkRelax1 s1 s3 0 0 0.
Proof.
  intros H.
  assert (B : relax1_body (relax1_nb_point v1 v3 nx epsq gamma) nx ny 0
                (mkRelax1 s1 s3 0 0 0) = (mkRelax1 s1 s3 0 0 0, true)).
  { rewrite relax1_body_eq.
    rewrite (relax1_sweep_fixed v1 v3 nx epsq gamma (interior nx ny) s1 s3);
      [|intros [j i] Hp; apply in_interior in Hp; now apply H|reflexivity|reflexivity].
    cbn [r1_maxdiff]. now rewrite relax1_threshold_pos. }
  unfold relax1_loop. change (seq 0 100) with (0%nat :: seq 1 99).
  rewrite for_break_first; now rewrite B.
Qed.



(** ** [calcvor] and [relax1_nb] *)

(** A loop that assigns at each visited point a value given by the point
    alone. *)
Lemma fold_aset2_spec (F1 F3 : nat -> nat -> Qc) n m order (w : arr2 * arr2) :
  shape n m (fst w) -> shape n m (snd w) ->
  (forall p, In p order -> (snd p < n)%nat /\ (fst p < m)%nat) ->
  let w' := fold_left (fun w p =>
              (aset (fst w) (snd p) (fst p) (F1 (snd p) (fst p)),
               aset (snd w) (snd p) (fst p) (F3 (snd p) (fst p)))) order w in
  shape n m (fst w') /\ shape n m (snd w') /\
  forall i j,
    (In (j, i) order -> get (fst w') i j = F1 i j /\ get (snd w') i j = F3 i j) /\
    (~ In (j, i) order ->
       get (fst w') i j = get (fst w) i j /\ get (snd w') i j = get (snd w) i j).
Proof.
  revert w. induction order as [|[j0 i0] order IH]; intros w H1 H3 Hb; cbn [fold_left].
  - cbv zeta. splits; auto. intros i j. split; [intros []|auto].
  - cbn [fst snd].
    destruct (Hb (j0, i0) (or_introl eq_refl)) as [Hi0 Hj0]. cbn [fst snd] in Hi0, Hj0.
    specialize (IH (aset (fst w) i0 j0 (F1 i0 j0), aset (snd w) i0 j0 (F3 i0 j0))).
    cbn [fst snd] in IH.
    destruct IH as (S1 & S3 & G); [now apply shape_aset|now apply shape_aset| |].
    { intros p Hp. apply Hb. now right. }
    cbv zeta. split; [exact S1|]. split; [exact S3|].
    intros i j. destruct (G i j) as [Gin Gout].
    destruct (in_dec (fun p q : nat * nat =>
                        ltac:(decide equality; apply Nat.eq_dec) : {p = q} + {p <> q})
                (j, i) order) as [Hin|Hnin].
    + split; [intros _; now apply Gin|]. intros Hn. exfalso. apply Hn. now right.
    + destruct (Gout Hnin) as [E1 E3]. rewrite E1, E3. split.
      * intros [E|Hin]; [|contradiction]. inversion E; subst.
        split; eapply get_aset_same; eauto.
      * intros Hn.
        assert (Hne : (i0, j0) <> (i, j)).
        { intros E. inversion E; subst. apply Hn. now left. }
        now rewrite !get_aset_other.
Qed.

Lemma get_set_col_scalar_other a c x i j :
  c <> j -> get (set_col_scalar a c x) i j = get a i j.
Proof.
  intros Hne. unfold get, set_col_scalar.
  destruct (Nat.lt_ge_cases i (length a)) as [Hi|Hi].
  - rewrite (nth_map_lt _ _ _ _ []) by exact Hi. now apply nth_upd_neq.
  - rewrite !(nth_overflow _ []); [reflexivity|exact Hi|now rewrite length_map].
Qed.

Lemma get_end_rows_interior ny a i j :
  (1 <= j <= ny - 1)%nat -> get (end_rows ny a) i j = get a i j.
Proof.
  intros Hj. unfold end_rows. cbv zeta.
  rewrite !get_set_col_scalar_other by lia. reflexivity.
Qed.

Lemma calcvor_interior (s v0 : Var) i j :
  shape (Grid.nx + 1) (Grid.ny + 1) (l1t v0) ->
  shape (Grid.nx + 1) (Grid.ny + 1) (l3t v0) ->
  is_interior Grid.nx Grid.ny i j ->
  get (l1t (Model.calcvor s v0)) i j = calcvor_value1 s i j /\
  get (l3t (Model.calcvor s v0)) i j = calcvor_value3 s i j.
Proof.
  intros H1 H3 Hij. unfold Model.calcvor. cbv zeta.
  cbn [Model.with_l1t_l3t l1t l3t].
  rewrite !get_end_rows_interior by (destruct Hij; assumption).
  rewrite for_range_nest.
  destruct (fold_aset2_spec (calcvor_value1 s) (calcvor_value3 s)
              (Grid.nx + 1) (Grid.ny + 1) (interior Grid.nx Grid.ny) (l1t v0, l3t v0)
              H1 H3) as (_ & _ & G).
  { intros p Hp. now apply interior_in_bounds. }
  apply (G i j). now apply in_interior.
Qed.

Lemma lit_2 : lit 2 = 1 + 1.
Proof. apply Qc_is_canon. reflexivity. Qed.

Lemma lit_2_0 : lit 2.0 = 1 + 1.
Proof. apply Qc_is_canon. reflexivity. Qed.

(** [calcvor] and [relax1_nb] use the same discrete equations.  In exact
    arithmetic the vorticity that [calcvor] computes from a streamfunction
    makes every residual of [relax1_nb] vanish at that streamfunction, so
    that [relax1_nb], given the streamfunction as its first guess, leaves
    after one pass and returns it unchanged: a fixed point.  (From another
    first guess the relaxation only approaches the streamfunction, and with
    rounding the residuals are small, not zero.) *)
Theorem relax1_nb_fixed_on_calcvor (s v0 : Var) :
  shape (Grid.nx + 1) (Grid.ny + 1) (l1t v0) ->
  shape (Grid.nx + 1) (Grid.ny + 1) (l3t v0) ->
  let v := Model.calcvor s v0 in
  relax1_nb (l1t v) (l3t v) (l1t s) (l3t s) Grid.nx Grid.ny Model.epsq Model.gamma =
  Normal (l1t s, l3t s).
Proof.
  intros H1 H3 v. rewrite relax1_nb_normal, relax1_loop_fixed; [reflexivity|].
  intros i j Hij.
  destruct (calcvor_interior s v0 i j H1 H3 Hij) as [E1 E3].
  unfold relax1_resid. fold v in E1, E3. rewrite E1, E3.
  unfold calcvor_value1, calcvor_value3. rewrite lit_2, lit_2_0.
  split; ring.
Qed.

Lemma relax1_nb_fixed_on_calcvor_witness :
  relax1_nb (l1t (Model.calcvor Model.noise new_Var))
            (l3t (Model.calcvor Model.noise new_Var))
            (l1t Model.noise) (l3t Model.noise)
            Grid.nx Grid.ny Model.epsq Model.gamma =
  Normal (l1t Model.noise, l3t Model.noise).
Proof.
  apply (relax1_nb_fixed_on_calcvor Model.noise new_Var); apply shape_zeros.
Defined.

(** ** What [relax1_nb] leaves alone *)

Lemma relax1_nb_point_other v1 v3 nx epsq gamma j0 i0 st i j :
  (i0, j0) <> (i, j) ->
  get (r1_s1 (relax1_nb_point v1 v3 nx epsq gamma j0 i0 st)) i j = get (r1_s1 st) i j /\
  get (r1_s3 (relax1_nb_point v1 v3 nx epsq gamma j0 i0 st)) i j = get (r1_s3 st) i j.
Proof.
  intros Hne. unfold relax1_nb_point. cbv zeta. cbn [r1_s1 r1_s3].
  split; now apply get_aset_other.
Qed.

Lemma relax1_passes_frame v1 v3 nx ny epsq gamma s1 s3 i j k :
  ~ is_interior nx ny i j ->
  let st := passes (relax1_body (relax1_nb_point v1 v3 nx epsq gamma) nx ny) k
                   (mkRelax1 s1 s3 0 0 0) in
  get (r1_s1 st) i j = get s1 i j /\ get (r1_s3 st) i j = get s3 i j.
Proof.
  intros Hout. induction k as [|k IH]; [cbn; auto|].
  cbv zeta in *. rewrite relax1_passes_S. unfold relax1_sweep.
  apply fold_left_inv with
    (I := fun st => get (r1_s1 st) i j = get s1 i j /\ get (r1_s3 st) i j = get s3 i j).
  - exact IH.
  - intros st [j0 i0] Hin [E1 E3]. apply in_interior in Hin. cbn [fst snd].
    assert (Hne : (i0, j0) <> (i, j)) by (intros E; inversion E; subst; tauto).
    destruct (relax1_nb_point_other v1 v3 nx epsq gamma j0 i0 st i j Hne) as [F1 F3].
    now rewrite F1, F3.
Qed.

(** [relax1_nb] writes interior points only: whatever it is given, the
    rows [j = 0] and [j = ny] and every entry with [i = 0] or [i > nx] of
    both arrays come back as they were. *)
Theorem relax1_nb_keeps_boundary (v1 v3 s1 s3 : arr2) (nx ny : nat) (epsq gamma : Qc)
    (i j : nat) :
  ~ is_interior nx ny i j ->
  let r := data (relax1_nb v1 v3 s1 s3 nx ny epsq gamma) in
  get (fst r) i j = get s1 i j /\ get (snd r) i j = get s3 i j.
Proof.
  intros Hout. cbv zeta. rewrite relax1_nb_normal. cbn [data fst snd].
  unfold relax1_loop.
  destruct (for_break_range (relax1_body (relax1_nb_point v1 v3 nx epsq gamma) nx ny)
              (mkRelax1 s1 s3 0 0 0) 100) as (n & _ & E & _); [lia|].
  rewrite E. now apply relax1_passes_frame.
Qed.

Lemma relax1_nb_keeps_boundary_witness :
  let r := data (relax1_nb strong_forcing strong_forcing
                   (zeros 17 17) (zeros 17 17) Grid.nx Grid.ny Model.epsq Model.gamma) in
  get (fst r) 3 0 = get (zeros 17 17) 3 0 /\ get (snd r) 3 0 = get (zeros 17 17) 3 0.
Proof.
  apply (relax1_nb_keeps_boundary strong_forcing strong_forcing (zeros 17 17) (zeros 17 17)
           Grid.nx Grid.ny Model.epsq Model.gamma 3 0).
  unfold is_interior. lia.
Defined.

(** ** The interpolation of [vm] to a new time step *)





(** ** The energies of [calc_energy] *)

Lemma sum_nonneg (l : list Qc) : Forall nonneg l -> 0 <= sum l.
Proof.
  induction 1 as [|h t Hh Ht IH]; [apply Qcle_refl|].
  rewrite sum_cons. unfold nonneg in Hh. qc2q. lra.
Qed.

Lemma Forall_map2 {A B C} (P : A -> Prop) (Q : B -> Prop) (R : C -> Prop)
    (f : A -> B -> C) l l' :
  (forall p q, P p -> Q q -> R (f p q)) ->
  Forall P l -> Forall Q l' -> Forall R (map2 f l l').
Proof.
  intros Hf Hl. revert l'. induction Hl as [|h t Hh Ht IH]; intros l' Hl'; [constructor|].
  destruct Hl' as [|h' t' Hh' Ht']; cbn [map2]; constructor; auto.
Qed.

Lemma Forall_map2_diag {A C} (R : C -> Prop) (f : A -> A -> C) l :
  (forall p, R (f p p)) -> Forall R (map2 f l l).
Proof. intros Hf. induction l as [|h t IH]; cbn [map2]; constructor; auto. Qed.

Lemma nonneg_plus p q : nonneg p -> nonneg q -> nonneg (p + q).
Proof. unfold nonneg. intros Hp Hq. qc2q. lra. Qed.

Lemma nonneg_square p : nonneg (p * p).
Proof. apply (sq_nonneg p). Qed.

Lemma nonneg2_squares (a : arr2) : Forall (Forall nonneg) (map (map sq) a).
Proof.
  apply Forall_map, Forall_forall. intros r _.
  apply Forall_map, Forall_forall. intros p _. apply sq_nonneg.
Qed.

Lemma nonneg2_add2 (a b : arr2) :
  Forall (Forall nonneg) a -> Forall (Forall nonneg) b ->
  Forall (Forall nonneg) (add2 a b).
Proof.
  intros Ha Hb. unfold add2.
  apply (Forall_map2 (Forall nonneg) (Forall nonneg)); [|assumption|assumption].
  intros r r' Hr Hr'. apply (Forall_map2 nonneg nonneg); [|assumption|assumption].
  apply nonneg_plus.
Qed.

Lemma sum2_nonneg (a : arr2) : Forall (Forall nonneg) a -> 0 <= Model.sum2 a.
Proof.
  intros H. unfold Model.sum2. apply sum_nonneg.
  induction H as [|r t Hr Ht IH]; cbn [concat]; [constructor|].
  apply Forall_app. split; assumption.
Qed.

Lemma Qcinv_pos (d : Qc) : 0 < d -> 0 < / d.
Proof. intros H. qc2q. now apply Qinv_lt_0_compat. Qed.

Lemma scaled_nonneg (c p d : Qc) : 0 <= c -> 0 <= p -> 0 < d -> 0 <= c * p / d.
Proof.
  intros Hc Hp Hd. unfold Qcdiv. apply Qcmult_nonneg.
  - now apply Qcmult_nonneg.
  - apply Qclt_le_weak. now apply Qcinv_pos.
Qed.

Lemma energy_scale_2ny : 0 < of_nat (2 * Grid.ny).
Proof. apply Qcltb_lt. vm_compute. reflexivity. Qed.

Lemma energy_scale_2nynx : 0 < of_nat (2 * Grid.ny * Grid.nx).
Proof. apply Qcltb_lt. vm_compute. reflexivity. Qed.

Lemma energy_scale_ny : 0 < of_nat Grid.ny.
Proof. apply Qcltb_lt. vm_compute. reflexivity. Qed.

Lemma energy_scale_nxny : 0 < of_nat (Grid.nx * Grid.ny).
Proof. apply Qcltb_lt. vm_compute. reflexivity. Qed.

Lemma energy_factor_ke : 0 <= lit 10.0.
Proof. apply Qcltb_ge. vm_compute. reflexivity. Qed.

Lemma energy_factor_pe : 0 <= lit 5 * Model.lambdasq.
Proof. apply Qcltb_ge. vm_compute. reflexivity. Qed.

(** The four energies [calc_energy] returns are sums of squares with
    positive weights: none of them is negative, whatever the fields. *)
Theorem calc_energy_nonneg (s u v : Var) :
  let e := Model.calc_energy s u v in
  0 <= fst (fst (fst e)) /\ 0 <= snd (fst (fst e)) /\
  0 <= snd (fst e) /\ 0 <= snd e.
Proof.
  unfold Model.calc_energy. cbv zeta. cbn [fst snd]. splits.
  - apply scaled_nonneg; [apply energy_factor_ke| |apply energy_scale_2ny].
    apply sum_nonneg. apply (Forall_map2 nonneg nonneg).
    + apply nonneg_plus.
    + apply Forall_map2_diag, nonneg_square.
    + apply Forall_map2_diag, nonneg_square.
  - apply scaled_nonneg; [apply energy_factor_ke| |apply energy_scale_2nynx].
    apply sum2_nonneg. repeat apply nonneg2_add2; apply nonneg2_squares.
  - apply scaled_nonneg; [apply energy_factor_pe| |apply energy_scale_ny].
    apply sum_nonneg, Forall_map, Forall_forall. intros p _. apply sq_nonneg.
  - apply scaled_nonneg; [apply energy_factor_pe| |apply energy_scale_nxny].
    apply sum2_nonneg, nonneg2_squares.
Qed.

(** ** The stability criterion *)

Lemma for_range_inv {St : Type} (I : St -> Prop) lo hi (body : nat -> St -> St) s :
  I s -> (forall i s, (lo <= i < hi)%nat -> I s -> I (body i s)) ->
  I (for_range lo hi body s).
Proof.
  intros Hs Hb. unfold for_range. apply fold_left_inv; [exact Hs|].
  intros s' i Hin. apply in_seq in Hin. apply Hb. lia.
Qed.

Lemma lit_zero_int : lit 0 = 0.
Proof. apply Qc_is_canon. reflexivity. Qed.

Lemma pymax_nonneg (p q : Qc) : 0 <= p -> 0 <= pymax p q.
Proof. intros H. eapply Qcle_trans; [exact H|apply pymax_l]. Qed.

Lemma stability_scale_pos : 0 < Grid.dx * Grid.dy.
Proof. apply Qcltb_lt. vm_compute. reflexivity. Qed.

Lemma lit_0_5_nonneg : 0 <= lit 0.5.
Proof. apply Qcltb_ge. vm_compute. reflexivity. Qed.

(** The criterion is a multiple of the largest of the sums of absolute
    differences, which is not negative. *)
Lemma stability_criterion_smax (s : Var) :
  exists smax, 0 <= smax /\
    forall dt, Model.stability_criterion dt s =
               lit 0.5 * dt * smax / (Grid.dx * Grid.dy).
Proof.
  unfold Model.stability_criterion. cbv zeta.
  eexists. split; [|intros dt; reflexivity].
  apply for_range_inv.
  - rewrite lit_zero_int. apply Qcle_refl.
  - intros i x _ Hx. apply for_range_inv; [exact Hx|].
    intros j y _ Hy. now apply pymax_nonneg, pymax_nonneg.
Qed.

(** [stability_criterion] is never negative for a time step that is not
    negative, whatever the streamfunction: it scales the largest of the
    sums of absolute differences, a maximum that starts at zero, by
    nonnegative factors. *)
Theorem stability_criterion_nonneg (dt : Qc) (s : Var) :
  0 <= dt ->
  0 <= Model.stability_criterion dt s.
Proof.
  intros Hdt. destruct (stability_criterion_smax s) as (smax & Hs & E).
  rewrite E.
  unfold Qcdiv. apply Qcmult_nonneg; [|apply Qclt_le_weak, Qcinv_pos, stability_scale_pos].
  apply Qcmult_nonneg; [|exact Hs].
  apply Qcmult_nonneg; [apply lit_0_5_nonneg|exact Hdt].
Qed.

Lemma stability_criterion_nonneg_witness :
  0 <= Model.stability_criterion Model.dt2 Model.noise.
Proof.
  apply (stability_criterion_nonneg Model.dt2 Model.noise).
  apply Qcltb_ge. vm_compute. reflexivity.
Defined.

(** ** The meridional wind of a zonal flow *)

Lemma nth_repeat_lt {A} (x d : A) n i : (i < n)%nat -> nth i (repeat x n) d = x.
Proof.
  revert i. induction n as [|n IH]; intros [|i] H; simpl; try lia; [reflexivity|].
  apply IH. lia.
Qed.

Lemma map2_diag_zero (d : Qc) (r : arr1) :
  map2 (fun p q => (p - q) / d) r r = zeros1 (length r).
Proof.
  induction r as [|h t IH]; cbn [map2 length zeros1 repeat]; [reflexivity|].
  f_equal; [unfold Qcdiv; ring|exact IH].
Qed.

Lemma wrap_m_range nx i : (1 <= i <= nx)%nat -> (1 <= wrap_m nx i <= nx)%nat.
Proof.
  intros H. unfold wrap_m. cbv zeta.
  destruct (Nat.eqb_spec (i - 1) 0); lia.
Qed.

Lemma calc_v_level_zonal (st : arr2) (r : arr1) :
  length r = (Grid.ny + 1)%nat ->
  (forall i, (1 <= i <= Grid.nx)%nat -> nth i st [] = r) ->
  Model.calc_v_level st = zeros (Grid.nx + 1) (Grid.ny + 1).
Proof.
  intros Hr Hrows. unfold Model.calc_v_level.
  apply for_range_inv with (I := fun w => w = zeros (Grid.nx + 1) (Grid.ny + 1));
    [reflexivity|].
  intros i w Hi ->. cbv zeta.
  rewrite (Hrows i) by lia.
  rewrite (Hrows (wrap_m Grid.nx i)) by (apply wrap_m_range; lia).
  rewrite map2_diag_zero, Hr.
  replace (zeros1 (Grid.ny + 1)) with (nth i (zeros (Grid.nx + 1) (Grid.ny + 1)) [])
    by (unfold zeros; apply nth_repeat_lt; lia).
  apply upd_nth_id.
Qed.

(** A streamfunction whose rows [1..nx] are all the same has no meridional
    wind: [calc_v] returns zero at every point of both levels. *)
Theorem calc_v_zonal_flow (s : Var) (r1 r3 : arr1) :
  length r1 = (Grid.ny + 1)%nat -> length r3 = (Grid.ny + 1)%nat ->
  (forall i, (1 <= i <= Grid.nx)%nat -> nth i (l1t s) [] = r1) ->
  (forall i, (1 <= i <= Grid.nx)%nat -> nth i (l3t s) [] = r3) ->
  l1t (Model.calc_v s) = zeros (Grid.nx + 1) (Grid.ny + 1) /\
  l3t (Model.calc_v s) = zeros (Grid.nx + 1) (Grid.ny + 1).
Proof.
  intros H1 H3 R1 R3. unfold Model.calc_v. cbn [Model.with_l1t_l3t l1t l3t].
  split; [apply (calc_v_level_zonal _ r1)|apply (calc_v_level_zonal _ r3)]; assumption.
Qed.

Lemma calc_v_zonal_flow_witness :
  l1t (Model.calc_v zonal_ramp) = zeros (Grid.nx + 1) (Grid.ny + 1) /\
  l3t (Model.calc_v zonal_ramp) = zeros (Grid.nx + 1) (Grid.ny + 1).
Proof.
  apply (calc_v_zonal_flow zonal_ramp
           (map of_nat (seq 0 (Grid.ny + 1)))
           (scale1 (lit 2) (map of_nat (seq 0 (Grid.ny + 1))))).
  - reflexivity.
  - reflexivity.
  - intros i Hi. apply nth_repeat_lt. lia.
  - intros i Hi. apply nth_repeat_lt. lia.
Defined.

(** ** The clock *)

Section Clock.

Variable dgetrf : arr2 -> arr2 * list Z.
Variable dgetrs : arr2 -> list Z -> arr1 -> arr1.
Variable dgtsv : arr1 -> arr1 -> arr1 -> arr1 -> arr1.

Lemma calc_zonstream_clock (m : Model.State) :
  let m' := data (Model.calc_zonstream dgetrf dgetrs m) in
  Model.time m' = Model.time m /\ Model.day m' = Model.day m /\
  Model.dt m' = Model.dt m.
Proof.
  unfold Model.calc_zonstream. cbv zeta.
  destruct (Model.first_step m).
  - cbn [Model.lu Model.with_lu].
    destruct (dgetrf (tail_block Model.zonstream_amat)) as [f piv].
    cbn [data Model.with_s Model.with_lu Model.time Model.day Model.dt].
    repeat split.
  - destruct (Model.lu m) as [[f piv]|];
      cbn [data Model.with_s Model.time Model.day Model.dt];
      repeat split.
Qed.

(** With a factorisation at hand [calc_zonstream] returns normally, and it
    leaves one behind. *)
Lemma calc_zonstream_ready (m : Model.State) :
  solver_ready m ->
  exists m', Model.calc_zonstream dgetrf dgetrs m = Normal m' /\ Model.lu m' <> None /\
             Model.vm m' = Model.vm m.
Proof.
  intros Hr. unfold Model.calc_zonstream. cbv zeta.
  destruct (Model.first_step m) eqn:Ef.
  - cbn [Model.lu Model.with_lu].
    destruct (dgetrf (tail_block Model.zonstream_amat)) as [f piv].
    eexists. split; [reflexivity|].
    cbn [Model.with_s Model.with_lu Model.lu Model.vm]. split; [discriminate|reflexivity].
  - destruct Hr as [Hr|Hr]; [congruence|].
    destruct (Model.lu m) as [[f piv]|] eqn:El; [|contradiction].
    eexists. split; [reflexivity|].
    cbn [Model.with_s Model.lu Model.vm]. rewrite El. split; [discriminate|reflexivity].
Qed.

Lemma step_streamfunction_clock (m : Model.State) :
  let m' := data (Model.step_streamfunction dgetrf dgetrs m) in
  Model.time m' = Model.time m /\ Model.day m' = Model.day m /\
  Model.dt m' = Model.dt m.
Proof.
  unfold Model.step_streamfunction.
  pose proof (calc_zonstream_clock (Model.with_v m (split (Model.v m)))) as F.
  cbv zeta in F.
  destruct (Model.calc_zonstream dgetrf dgetrs (Model.with_v m (split (Model.v m))))
    as [mz | e mz]; cbn [data Model.obind] in *.
  - cbn [Model.with_v Model.time Model.day Model.dt] in F.
    destruct (relax1_nb _ _ _ _ _ _ _ _) as [[s1 s3] | e [s1 s3]]; cbn [Model.obind data].
    + cbn [Model.with_s Model.time].
      destruct (is_multiple (Model.time mz) Model.diag_freq).
      * unfold Model.diag.
        destruct (Model.calc_energy _ _ _) as [[[zke eke] zpe] epe].
        destruct (Qcltb (lit 1e5) eke);
          cbn [data Model.with_s Model.time Model.day Model.dt]; exact F.
      * cbn [data Model.with_s Model.time Model.day Model.dt]. exact F.
    + cbn [data Model.with_s Model.time Model.day Model.dt]. exact F.
  - exact F.
Qed.

Lemma step_update_clock (m : Model.State) :
  let m' := Model.adapt_step (Model.advance_clock
              (Model.anomaly_update (Model.zonal_update dgtsv (Model.tendency m)))) in
  Model.time m' = Model.time m + Model.dt m /\
  Model.day m' = Model.time m' / lit 86400.0.
Proof.
  cbv zeta. unfold Model.adapt_step.
  set (mc := Model.advance_clock _).
  assert (T : Model.time mc = Model.time m + Model.dt m /\
              Model.day mc = Model.time mc / lit 86400.0).
  { unfold mc, Model.advance_clock, Model.anomaly_update, Model.zonal_update,
      Model.tendency. cbv zeta.
    cbn [Model.with_x Model.with_v Model.time Model.dt].
    destruct (Qc_eq_bool (Model.time m) (lit 0.0)); split; reflexivity. }
  clearbody mc. cbv zeta.
  destruct (_ && _ && _); [|exact T].
  destruct (Qcltb _ _); exact T.
Qed.

Lemma step_clock (m : Model.State) :
  match Model.step dgetrf dgetrs dgtsv m with
  | Normal m' =>
      Model.time m' = Model.time m + Model.dt m /\
      Model.day m' = Model.time m' / lit 86400.0
  | Raised _ m' => Model.time m' = Model.time m /\ Model.day m' = Model.day m
  end.
Proof.
  unfold Model.step, Model.step_core.
  pose proof (step_streamfunction_clock m) as F. cbv zeta in F.
  destruct (Model.step_streamfunction dgetrf dgetrs m) as [ms | e ms];
    cbn [data Model.obind] in *.
  - destruct F as (Ft & Fd & Fdt).
    destruct (step_update_clock ms) as [T D]. rewrite T, Ft, Fdt in *.
    split; [reflexivity|exact D].
  - destruct F as (Ft & Fd & _). split; assumption.
Qed.

End Clock.

(** A call of [step] that returns has advanced the clock by the time step
    it was called with, strictly when that step is positive, and set the day
    to the clock over 86400; a call that raises has left both as they
    were. *)
Theorem step_advances_clock
    (dgetrf : arr2 -> arr2 * list Z)
    (dgetrs : arr2 -> list Z -> arr1 -> arr1)
    (dgtsv : arr1 -> arr1 -> arr1 -> arr1 -> arr1)
    (m : Model.State) :
  match Model.step dgetrf dgetrs dgtsv m with
  | Normal m' =>
      Model.time m' = Model.time m + Model.dt m /\
      Model.day m' = Model.time m' / lit 86400.0 /\
      (0 < Model.dt m -> Model.time m < Model.time m')
  | Raised _ m' => Model.time m' = Model.time m /\ Model.day m' = Model.day m
  end.
Proof.
  pose proof (step_clock dgetrf dgetrs dgtsv m) as C.
  destruct (Model.step dgetrf dgetrs dgtsv m) as [m' | e m']; [|exact C].
  destruct C as [Ct Cd]. split; [exact Ct|]. split; [exact Cd|].
  intros Hdt. rewrite Ct.
  generalize dependent (Model.time m). generalize dependent (Model.dt m).
  intros. qc2q. lra.
Qed.

(** ** The passes of [spinup] *)

Lemma of_nat_S (n : nat) : of_nat (S n) = of_nat n + 1.
Proof.
  unfold of_nat, of_Z. rewrite Nat2Z.inj_succ. unfold Z.succ.
  apply Qc_is_canon. cbn [this Qcplus Q2Qc]. rewrite !Qred_correct.
  rewrite inject_Z_plus. reflexivity.
Qed.

Lemma of_nat_ltb (n k : nat) : Qcltb (of_nat n) (of_nat k) = (n <? k)%nat.
Proof.
  destruct (Nat.ltb_spec n k) as [H|H].
  - apply Qcltb_lt. unfold of_nat, of_Z, Qclt. cbn [this Q2Qc].
    rewrite !Qred_correct. rewrite <- Zlt_Qlt. lia.
  - apply Qcltb_ge. unfold of_nat, of_Z, Qcle. cbn [this Q2Qc].
    rewrite !Qred_correct. rewrite <- Zle_Qle. lia.
Qed.

Lemma day1_of_nat : Model.day1 = of_nat 131.
Proof. apply Qc_is_canon. reflexivity. Qed.

Lemma spinup_next_day (t : Qc) :
  (t * Model.dt1 + Model.dt1) / lit 86400.0 = t + 1.
Proof.
  replace Model.dt1 with (lit 86400.0) by (apply Qc_is_canon; reflexivity).
  field. intros H. apply (f_equal this) in H. vm_compute in H. discriminate H.
Qed.

Section Spinup.

Variable dgetrf : arr2 -> arr2 * list Z.
Variable dgetrs : arr2 -> list Z -> arr1 -> arr1.
Variable dgtsv : arr1 -> arr1 -> arr1 -> arr1 -> arr1.

Lemma zonal_update_fields (m : Model.State) :
  let m' := Model.zonal_update dgtsv m in
  Model.time m' = Model.time m /\ Model.dt m' = Model.dt m /\
  Model.lu m' = Model.lu m.
Proof.
  unfold Model.zonal_update. cbv zeta.
  destruct (Qc_eq_bool _ _); repeat split.
Qed.

Lemma spinup_pass_fields (m : Model.State) :
  let m' := Model.advance_clock
              (Model.zonal_total (Model.zonal_update dgtsv (Model.tendency m))) in
  Model.time m' = Model.time m + Model.dt m /\
  Model.day m' = Model.time m' / lit 86400.0 /\
  Model.dt m' = Model.dt m /\ Model.lu m' = Model.lu m.
Proof.
  destruct (zonal_update_fields (Model.tendency m)) as (Zt & Zd & Zl).
  cbv zeta. unfold Model.advance_clock, Model.zonal_total. cbv zeta.
  cbn [Model.with_clock Model.with_v Model.time Model.day Model.dt Model.lu].
  rewrite Zt, Zd, Zl. repeat split.
Qed.

Lemma spinup_iter_ok (m : Model.State) :
  solver_ready m ->
  exists m',
    Model.spinup_iter dgetrf dgetrs dgtsv m =
      (Normal m', negb (Qcltb (Model.day m') Model.day1)) /\
    solver_ready m' /\
    Model.time m' = Model.time m + Model.dt m /\
    Model.day m' = Model.time m' / lit 86400.0 /\
    Model.dt m' = Model.dt m.
Proof.
  intros Hr. unfold Model.spinup_iter, Model.spinup_streamfunction.
  pose proof (calc_zonstream_clock dgetrf dgetrs (Model.with_v m (split (Model.v m)))) as C.
  destruct (calc_zonstream_ready dgetrf dgetrs (Model.with_v m (split (Model.v m))))
    as (mz & E & Hlu & _); [exact Hr|].
  cbv zeta in C. rewrite E in *. cbn [data Model.obind] in *.
  cbn [Model.with_v Model.time Model.day Model.dt] in C. destruct C as (Ct & _ & Cd).
  eexists. split; [reflexivity|].
  match goal with |- context [Model.tendency ?a] => set (ms := a) end.
  assert (Ms : Model.time ms = Model.time m /\ Model.dt ms = Model.dt m /\
               Model.lu ms = Model.lu mz).
  { unfold ms. cbn [Model.with_s Model.time Model.dt Model.lu]. auto. }
  clearbody ms. destruct Ms as (Mt & Md & Ml).
  destruct (spinup_pass_fields ms) as (Pt & Pd & Pdt & Pl).
  split; [right; rewrite Pl, Ml; exact Hlu|].
  rewrite Pd, Pt, Pdt, Mt, Md. repeat split.
Qed.

Lemma spinup_from (fuel n : nat) (m : Model.State) :
  spinup_state n m -> (n < 131)%nat ->
  exists m', Model.spinup dgetrf dgetrs dgtsv fuel m = Normal m' /\
             spinup_state (Nat.min (n + fuel) 131) m'.
Proof.
  revert n m. induction fuel as [|fuel IH]; intros n m Hst Hn.
  - exists m. split; [reflexivity|]. now replace (Nat.min (n + 0) 131) with n by lia.
  - destruct Hst as (Hr & Ht & Hd & Hdt).
    destruct (spinup_iter_ok m Hr) as (m1 & E & Hr1 & Ht1 & Hd1 & Hdt1).
    assert (St1 : spinup_state (S n) m1).
    { rewrite Ht, Hdt in Ht1. rewrite Ht1, spinup_next_day in Hd1.
      rewrite <- of_nat_S in Hd1.
      split; [exact Hr1|]. split; [|split; [exact Hd1|congruence]].
      rewrite Ht1, of_nat_S. ring. }
    cbn [Model.spinup]. rewrite E.
    pose proof St1 as (_ & _ & Hday & _).
    rewrite Hday, day1_of_nat, of_nat_ltb.
    destruct (Nat.ltb_spec (S n) 131) as [Hlt|Hge]; cbn [negb].
    + destruct (IH (S n) m1 St1 Hlt) as (m' & E' & St').
      exists m'. split; [exact E'|].
      now replace (Nat.min (n + S fuel) 131) with (Nat.min (S n + fuel) 131) by lia.
    + exists m1. split; [reflexivity|].
      now replace (Nat.min (n + S fuel) 131) with (S n) by lia.
Qed.

Lemma spinup_state_init : spinup_state 0 Model.init.
Proof.
  split; [left; reflexivity|]. split; [|split; reflexivity].
  apply Qc_is_canon. reflexivity.
Qed.

End Spinup.

(** The loop of [spinup] on a new model ends with the 131st pass, whatever
    the solvers return: bounded to [fuel] passes it has made [min fuel 131]
    of them, each a day long, and the time step is still that of the
    spin-up.  No statement of [spinup] raises on this path ([calc_zonstream]
    finds [first_step] set and computes the factorisation it needs); the
    floating-point traps of [np.seterr], which the arithmetic of a pass and
    of the diagnostic [zonal_diag] could set off on huge values, are outside
    the model. *)
Theorem spinup_runs_131_passes
    (dgetrf : arr2 -> arr2 * list Z)
    (dgetrs : arr2 -> list Z -> arr1 -> arr1)
    (dgtsv : arr1 -> arr1 -> arr1 -> arr1 -> arr1)
    (fuel : nat) :
  exists m',
    Model.spinup dgetrf dgetrs dgtsv fuel Model.init = Normal m' /\
    Model.day m' = of_nat (Nat.min fuel 131) /\
    Model.time m' = of_nat (Nat.min fuel 131) * Model.dt1 /\
    Model.dt m' = Model.dt1.
Proof.
  destruct (spinup_from dgetrf dgetrs dgtsv fuel 0 Model.init (spinup_state_init))
    as (m' & E & _ & Ht & Hd & Hdt); [lia|].
  exists m'. cbn [Nat.add] in *. auto.
Qed.

(** ** The loop of [main] *)

Lemma day_reached (t : Qc) :
  Model.day2 * lit 86400.0 - t <= 0 -> Model.day2 <= t / lit 86400.0.
Proof.
  intros H.
  assert (E : Model.day2 = Model.day2 * lit 86400.0 / lit 86400.0).
  { field. intros C. apply (f_equal this) in C. vm_compute in C. discriminate C. }
  rewrite E. unfold Qcdiv. apply Qcmult_le_compat_r.
  - qc2q. lra.
  - apply Qcltb_ge. vm_compute. reflexivity.
Qed.

Section RunLoop.

Variable dgetrf : arr2 -> arr2 * list Z.
Variable dgetrs : arr2 -> list Z -> arr1 -> arr1.
Variable dgtsv : arr1 -> arr1 -> arr1 -> arr1 -> arr1.

(** A step that returns keeps [run_state] and uses up at least [min_dt]
    of the time left. *)
Lemma step_run_state (m m' : Model.State) :
  run_state m -> Model.step dgetrf dgetrs dgtsv m = Normal m' ->
  run_state m' /\ Model.time m + Model.min_dt <= Model.time m'.
Proof.
  intros [Hl Hd] E.
  pose proof (step_clock dgetrf dgetrs dgtsv m) as C. rewrite E in C.
  destruct C as [Ct Cd].
  pose proof (step_dt_cases dgetrf dgetrs dgtsv m) as D. cbv zeta in D.
  rewrite E in D. cbn [data] in D.
  split; [split; [|exact Cd]|].
  - destruct D as [D | (D & Hlt & _)]; rewrite D; [exact Hl|].
    now apply dt_levels_step.
  - rewrite Ct. apply dt_levels_floor in Hl.
    generalize dependent (Model.time m). generalize dependent (Model.dt m).
    intros. qc2q. lra.
Qed.

Lemma run_loop_bound (B : nat) :
  forall (fuel : nat) (m : Model.State),
  run_state m ->
  Model.day2 * lit 86400.0 - Model.time m <= of_nat B * Model.min_dt ->
  (B <= fuel)%nat ->
  run_loop dgetrf dgetrs dgtsv fuel m = run_loop dgetrf dgetrs dgtsv B m /\
  (raised (run_loop dgetrf dgetrs dgtsv B m) <> None \/
   Model.day2 <= Model.day (data (run_loop dgetrf dgetrs dgtsv B m))).
Proof.
  induction B as [|B IH]; intros fuel m Hst Hrem Hfuel.
  - assert (Hday : Model.day2 <= Model.day m).
    { destruct Hst as [_ ->]. apply day_reached.
      replace (of_nat 0 * Model.min_dt) with 0 in Hrem
        by (apply Qc_is_canon; reflexivity).
      exact Hrem. }
    cbn [run_loop data]. split; [|right; exact Hday].
    destruct fuel as [|fuel]; [reflexivity|]. cbn [run_loop].
    now rewrite (proj2 (Qcltb_ge _ _) Hday).
  - destruct fuel as [|fuel]; [lia|]. cbn [run_loop].
    destruct (Qcltb (Model.day m) Model.day2) eqn:El.
    + destruct (Model.step dgetrf dgetrs dgtsv m) as [m' | e m'] eqn:E;
        cbn [Model.obind].
      * destruct (step_run_state m m' Hst E) as [Hst' Hadv].
        apply IH; [exact Hst'| |lia].
        rewrite of_nat_S in Hrem.
        generalize dependent (Model.time m'). generalize dependent (Model.time m).
        generalize dependent (of_nat B). generalize dependent Model.min_dt.
        generalize dependent (Model.day2 * lit 86400.0).
        intros. qc2q. nra.
      * split; [reflexivity|]. left. cbn [raised]. discriminate.
    + split; [reflexivity|]. right. cbn [data]. now apply Qcltb_ge.
Qed.

End RunLoop.

(** The loop [while m.day < m.day2: m.step()] ends: from a state whose time
    step is one of [dt_levels] and whose day is the clock over 86400, once
    the bound on the number of steps covers the time left at [min_dt] a
    step, a larger bound changes nothing, and the loop has ended with an
    exception raised by a step or with the day at [day2] or later. *)
Theorem run_loop_terminates
    (dgetrf : arr2 -> arr2 * list Z)
    (dgetrs : arr2 -> list Z -> arr1 -> arr1)
    (dgtsv : arr1 -> arr1 -> arr1 -> arr1 -> arr1)
    (B fuel : nat) (m : Model.State) :
  In (Model.dt m) dt_levels ->
  Model.day m = Model.time m / lit 86400.0 ->
  Model.day2 * lit 86400.0 - Model.time m <= of_nat B * Model.min_dt ->
  (B <= fuel)%nat ->
  run_loop dgetrf dgetrs dgtsv fuel m = run_loop dgetrf dgetrs dgtsv B m /\
  (raised (run_loop dgetrf dgetrs dgtsv B m) <> None \/
   Model.day2 <= Model.day (data (run_loop dgetrf dgetrs dgtsv B m))).
Proof.
  intros Hl Hd Hrem Hfuel. apply run_loop_bound; [split| |]; assumption.
Qed.

Lemma run_loop_terminates_witness :
  run_loop ref_dgetrf ref_dgetrs ref_dgtsv 2000 run_start =
  run_loop ref_dgetrf ref_dgetrs ref_dgtsv 1656 run_start.
Proof.
  refine (proj1 (run_loop_terminates ref_dgetrf ref_dgetrs ref_dgtsv 1656 2000 run_start
                   _ _ _ _)).
  - left. reflexivity.
  - apply Qc_is_canon. vm_compute. reflexivity.
  - apply Qcltb_ge. vm_compute. reflexivity.
  - lia.
Defined.

(** ** The generator away from its regular inputs *)

(** [msq_rand] is defined on every integer: the result lies in
    [0, 10^10), it is the same for [x] and [-x], and every [x] with
    [|x| <= 316] is sent to 0, where the generator stays. *)
Theorem msq_rand_any_integer (x : Z) :
  (0 <= msq_rand x < 10 ^ 10)%Z /\
  msq_rand (- x) = msq_rand x /\
  ((Z.abs x <= 316)%Z -> msq_rand x = 0%Z) /\
  msq_rand 0 = 0%Z.
Proof.
  split; [apply msq_rand_range|]. split; [|split; [|reflexivity]].
  - unfold msq_rand. now rewrite Z.mul_opp_opp.
  - intros H. unfold msq_rand.
    rewrite Z.div_small; [reflexivity|]. nia.
Qed.

(** ** The anomaly of [split] and the way back from [compose] *)

Lemma sum_map_minus_const {A} (f : A -> Qc) (c : Qc) (l : list A) :
  sum (map (fun a => f a - c) l) = sum (map f l) - of_nat (length l) * c.
Proof.
  induction l as [|a l IH].
  - cbn [map length]. rewrite sum_nil.
    replace (of_nat 0) with 0 by (apply Qc_is_canon; reflexivity). ring.
  - cbn [map length]. rewrite !sum_cons, IH, of_nat_S. ring.
Qed.

Lemma sum_map_plus_const {A} (f : A -> Qc) (c : Qc) (l : list A) :
  sum (map (fun a => f a + c) l) = sum (map f l) + of_nat (length l) * c.
Proof.
  induction l as [|a l IH].
  - cbn [map length]. rewrite sum_nil.
    replace (of_nat 0) with 0 by (apply Qc_is_canon; reflexivity). ring.
  - cbn [map length]. rewrite !sum_cons, IH, of_nat_S. ring.
Qed.

Lemma of_nat_nx_nonzero : of_nat Grid.nx <> 0.
Proof. intros H. apply (f_equal this) in H. vm_compute in H. discriminate H. Qed.

Lemma mean_removed (S n : Qc) : n <> 0 -> (S - n * (S / n)) / n = 0.
Proof. intros H. field. exact H. Qed.

Lemma mean_shifted (S n z : Qc) : n <> 0 -> (S + n * z) / n = S / n + z.
Proof. intros H. field. exact H. Qed.

(** The zonal mean of a field less its zonal mean is zero. *)
Lemma zmean_sub_bcast (t : arr2) (j : nat) :
  shape (Grid.nx + 1) (Grid.ny + 1) t -> (j <= Grid.ny)%nat ->
  get1 (zmean (sub_bcast t (zmean t))) j = 0.
Proof.
  intros Ht Hj.
  assert (Hs : shape (Grid.nx + 1) (Grid.ny + 1) (sub_bcast t (zmean t)))
    by (apply shape_sub_bcast; [exact Ht|apply zmean_length]).
  rewrite get1_zmean by (apply (shape_length _ _ _ Hs) || exact Hj).
  rewrite (map_ext_in _ (fun i => get t i j - get1 (zmean t) j)).
  - rewrite sum_map_minus_const, length_seq.
    rewrite (get1_zmean t j) by (apply (shape_length _ _ _ Ht) || exact Hj).
    apply mean_removed, of_nat_nx_nonzero.
  - intros i Hi. apply in_seq in Hi.
    apply (get_sub_bcast (Grid.nx + 1) (Grid.ny + 1));
      [exact Ht|apply zmean_length|lia|lia].
Qed.

Lemma shape_split (u : Var) :
  shape (Grid.nx + 1) (Grid.ny + 1) (l1t u) ->
  shape (Grid.nx + 1) (Grid.ny + 1) (l3t u) ->
  shape (Grid.nx + 1) (Grid.ny + 1) (l1t (split u)) /\
  shape (Grid.nx + 1) (Grid.ny + 1) (l3t (split u)) /\
  shape (Grid.nx + 1) (Grid.ny + 1) (l1 (split u)) /\
  shape (Grid.nx + 1) (Grid.ny + 1) (l3 (split u)) /\
  length (l1z (split u)) = (Grid.ny + 1)%nat /\
  length (l3z (split u)) = (Grid.ny + 1)%nat.
Proof.
  intros H1 H3. splits; try assumption; try apply zmean_length;
    (apply shape_sub_bcast; [assumption|apply zmean_length]).
Qed.

Lemma split_zero_mean (u : Var) (j : nat) :
  shape (Grid.nx + 1) (Grid.ny + 1) (l1t u) ->
  shape (Grid.nx + 1) (Grid.ny + 1) (l3t u) ->
  (j <= Grid.ny)%nat ->
  get1 (zmean (l1 (split u))) j = 0 /\ get1 (zmean (l3 (split u))) j = 0.
Proof. intros H1 H3 Hj. split; now apply zmean_sub_bcast. Qed.

(** In exact arithmetic, the anomalies have no zonal mean left after
    [split]: at every latitude the mean over the longitudes [1..nx] of [l1]
    and of [l3] is zero (with rounding, zero up to the last digits). *)
Theorem split_anomaly_zero_mean (u : Var) (j : nat) :
  shape (Grid.nx + 1) (Grid.ny + 1) (l1t u) ->
  shape (Grid.nx + 1) (Grid.ny + 1) (l3t u) ->
  (j <= Grid.ny)%nat ->
  get1 (zmean (l1 (split u))) j = 0 /\ get1 (zmean (l3 (split u))) j = 0 /\
  sum (map (fun i => get (l1 (split u)) i j) (seq 1 Grid.nx)) = 0 /\
  sum (map (fun i => get (l3 (split u)) i j) (seq 1 Grid.nx)) = 0.
Proof.
  intros H1 H3 Hj.
  assert (Z1 : get1 (zmean (l1 (split u))) j = 0) by now apply zmean_sub_bcast.
  assert (Z3 : get1 (zmean (l3 (split u))) j = 0) by now apply zmean_sub_bcast.
  split; [exact Z1|]. split; [exact Z3|].
  assert (L1 : length (l1 (split u)) = (Grid.nx + 1)%nat).
  { apply (shape_length _ (Grid.ny + 1)), shape_sub_bcast; [exact H1|apply zmean_length]. }
  assert (L3 : length (l3 (split u)) = (Grid.nx + 1)%nat).
  { apply (shape_length _ (Grid.ny + 1)), shape_sub_bcast; [exact H3|apply zmean_length]. }
  rewrite get1_zmean in Z1, Z3 by assumption.
  split.
  - rewrite <- (Qcmult_div_r _ _ of_nat_nx_nonzero), Z1. ring.
  - rewrite <- (Qcmult_div_r _ _ of_nat_nx_nonzero), Z3. ring.
Qed.

Lemma split_anomaly_zero_mean_witness :
  get1 (zmean (l1 (split Model.noise))) 5 = 0.
Proof.
  refine (proj1 (split_anomaly_zero_mean Model.noise 5 _ _ _)).
  - apply shapeb_shape. vm_compute. reflexivity.
  - apply shapeb_shape. vm_compute. reflexivity.
  - unfold Grid.ny. lia.
Defined.

Lemma nth_ext_get1 (a b : arr1) n :
  length a = n -> length b = n ->
  (forall j, (j < n)%nat -> get1 a j = get1 b j) -> a = b.
Proof.
  intros Ha Hb H. apply (nth_ext a b 0 0); [congruence|].
  intros j Hj. apply H. lia.
Qed.

(** The zonal mean of a recomposed field is the zonal mean of the anomaly
    plus the zonal mean it was recomposed with. *)
Lemma zmean_compose_level (t a : arr2) (z : arr1) (j : nat) :
  shape (Grid.nx + 1) (Grid.ny + 1) t -> length a = (Grid.nx + 1)%nat ->
  (j <= Grid.ny)%nat ->
  get1 (zmean (compose_level t a z)) j = get1 (zmean a) j + get1 z j.
Proof.
  intros Ht Ha Hj.
  assert (Lc : length (compose_level t a z) = (Grid.nx + 1)%nat)
    by (apply (shape_length _ (Grid.ny + 1)), shape_compose_level; assumption).
  rewrite get1_zmean by assumption.
  rewrite (map_ext_in _ (fun i => get a i j + get1 z j)).
  - rewrite sum_map_plus_const, length_seq, (get1_zmean a j) by assumption.
    apply mean_shifted, of_nat_nx_nonzero.
  - intros i Hi. apply in_seq in Hi. apply get_compose_level; [assumption|assumption|lia|lia].
Qed.

Lemma compose_level_then_split (t a : arr2) (z : arr1) :
  shape (Grid.nx + 1) (Grid.ny + 1) t ->
  shape (Grid.nx + 1) (Grid.ny + 1) a ->
  length z = (Grid.ny + 1)%nat ->
  (forall j, (j <= Grid.ny)%nat -> get1 (zmean a) j = 0) ->
  zmean (compose_level t a z) = z /\
  sub_bcast (compose_level t a z) (zmean (compose_level t a z)) = a.
Proof.
  intros Ht Ha Hz H0.
  assert (La : length a = (Grid.nx + 1)%nat) by apply (shape_length _ _ _ Ha).
  assert (Ez : zmean (compose_level t a z) = z).
  { apply (nth_ext_get1 _ _ (Grid.ny + 1)); [apply zmean_length|exact Hz|].
    intros j Hj. rewrite zmean_compose_level by (assumption || lia).
    rewrite H0 by lia. ring. }
  split; [exact Ez|]. rewrite Ez.
  assert (Hc : shape (Grid.nx + 1) (Grid.ny + 1) (compose_level t a z))
    by now apply shape_compose_level.
  apply (shape_ext (Grid.nx + 1) (Grid.ny + 1)); [now apply shape_sub_bcast|exact Ha|].
  intros i j Hi Hj.
  rewrite (get_sub_bcast (Grid.nx + 1) (Grid.ny + 1)) by assumption.
  rewrite get_compose_level by (assumption || lia). ring.
Qed.

(** The way back, in exact arithmetic: recomposing the totals from
    anomalies that have no zonal mean and then splitting them gives back
    those anomalies and zonal means, so that [split] changes nothing after
    [compose]. *)
Theorem compose_split_roundtrip (u : Var) :
  shape (Grid.nx + 1) (Grid.ny + 1) (l1t u) ->
  shape (Grid.nx + 1) (Grid.ny + 1) (l3t u) ->
  shape (Grid.nx + 1) (Grid.ny + 1) (l1 u) ->
  shape (Grid.nx + 1) (Grid.ny + 1) (l3 u) ->
  length (l1z u) = (Grid.ny + 1)%nat ->
  length (l3z u) = (Grid.ny + 1)%nat ->
  (forall j, (j <= Grid.ny)%nat ->
     get1 (zmean (l1 u)) j = 0 /\ get1 (zmean (l3 u)) j = 0) ->
  split (compose u) = compose u /\
  l1 (split (compose u)) = l1 u /\ l3 (split (compose u)) = l3 u /\
  l1z (split (compose u)) = l1z u /\ l3z (split (compose u)) = l3z u.
Proof.
  intros T1 T3 A1 A3 Z1 Z3 H0.
  destruct (compose_level_then_split (l1t u) (l1 u) (l1z u) T1 A1 Z1) as [E1z E1];
    [intros j Hj; apply H0, Hj|].
  destruct (compose_level_then_split (l3t u) (l3 u) (l3z u) T3 A3 Z3) as [E3z E3];
    [intros j Hj; apply H0, Hj|].
  assert (E : split (compose u) = compose u).
  { unfold split, calc_zmean, compose. cbv zeta. cbn [l1t l3t l1 l3 l1z l3z].
    rewrite E1, E3, E1z, E3z. reflexivity. }
  rewrite E. cbn [compose l1 l3 l1z l3z]. auto.
Qed.

Lemma compose_split_roundtrip_witness :
  split (compose (split Model.noise)) = compose (split Model.noise).
Proof.
  assert (N1 : shape (Grid.nx + 1) (Grid.ny + 1) (l1t Model.noise))
    by (apply shapeb_shape; vm_compute; reflexivity).
  assert (N3 : shape (Grid.nx + 1) (Grid.ny + 1) (l3t Model.noise))
    by (apply shapeb_shape; vm_compute; reflexivity).
  destruct (shape_split Model.noise N1 N3) as (S1 & S3 & A1 & A3 & Z1 & Z3).
  refine (proj1 (compose_split_roundtrip (split Model.noise) S1 S3 A1 A3 Z1 Z3 _)).
  intros j Hj. now apply split_zero_mean.
Defined.

(** ** The end rows (boundary condition A17) *)

Lemma get_set_col_scalar_same n m a c x i :
  shape n m a -> (i < n)%nat -> (c < m)%nat -> get (set_col_scalar a c x) i c = x.
Proof.
  intros Ha Hi Hc. unfold get, set_col_scalar.
  rewrite (nth_map_lt _ _ _ _ []) by (rewrite (shape_length _ _ _ Ha); exact Hi).
  apply nth_upd_eq. now rewrite (shape_row _ _ _ _ Ha Hi).
Qed.

Lemma col_set_col_scalar_other a c x j :
  c <> j -> col (set_col_scalar a c x) j = col a j.
Proof.
  intros Hne. unfold col, set_col_scalar. rewrite map_map.
  apply map_ext. intros r. now apply nth_upd_neq.
Qed.

Lemma col_as_map n a j :
  length a = n -> col a j = map (fun i => get a i j) (seq 0 n).
Proof.
  intros Hn. apply (nth_ext _ _ 0 0).
  - now rewrite col_length, length_map, length_seq.
  - intros i Hi. rewrite col_length in Hi. rewrite nth_col.
    rewrite (nth_map_lt _ _ _ _ 0%nat) by (rewrite length_seq; lia).
    now rewrite seq_nth by lia.
Qed.

(** What [end_rows] leaves: both end rows hold the mean of the row next to
    them, taken over all [n] entries of that row. *)
Lemma end_rows_spec n ny a i :
  shape n (ny + 1) a -> (2 <= ny)%nat -> (i < n)%nat ->
  get (end_rows ny a) i 0 = mean (col a 1) /\
  get (end_rows ny a) i ny = mean (col a (ny - 1)) /\
  col (end_rows ny a) 1 = col a 1 /\
  col (end_rows ny a) (ny - 1) = col a (ny - 1).
Proof.
  intros Ha Hny Hi. unfold end_rows. cbv zeta.
  assert (Hs : shape n (ny + 1) (set_col_scalar a 0 (mean (col a 1))))
    by now apply shape_set_col_scalar.
  splits.
  - rewrite get_set_col_scalar_other by lia.
    apply (get_set_col_scalar_same n (ny + 1)); [assumption|assumption|lia].
  - rewrite (get_set_col_scalar_same n (ny + 1)) by (assumption || lia).
    now rewrite col_set_col_scalar_other by lia.
  - now rewrite !col_set_col_scalar_other by lia.
  - now rewrite !col_set_col_scalar_other by lia.
Qed.

Lemma calcvor_loop_spec (s v0 : Var) :
  shape (Grid.nx + 1) (Grid.ny + 1) (l1t v0) ->
  shape (Grid.nx + 1) (Grid.ny + 1) (l3t v0) ->
  exists w1 w3,
    l1t (Model.calcvor s v0) = end_rows Grid.ny w1 /\
    l3t (Model.calcvor s v0) = end_rows Grid.ny w3 /\
    shape (Grid.nx + 1) (Grid.ny + 1) w1 /\ shape (Grid.nx + 1) (Grid.ny + 1) w3 /\
    forall i j,
      (is_interior Grid.nx Grid.ny i j ->
         get w1 i j = calcvor_value1 s i j /\ get w3 i j = calcvor_value3 s i j) /\
      (~ is_interior Grid.nx Grid.ny i j ->
         get w1 i j = get (l1t v0) i j /\ get w3 i j = get (l3t v0) i j).
Proof.
  intros H1 H3. unfold Model.calcvor. cbv zeta.
  cbn [Model.with_l1t_l3t l1t l3t]. rewrite for_range_nest.
  destruct (fold_aset2_spec (calcvor_value1 s) (calcvor_value3 s)
              (Grid.nx + 1) (Grid.ny + 1) (interior Grid.nx Grid.ny) (l1t v0, l3t v0)
              H1 H3) as (S1 & S3 & G).
  { intros p Hp. now apply interior_in_bounds. }
  eexists. eexists. split; [reflexivity|]. split; [reflexivity|].
  split; [exact S1|]. split; [exact S3|].
  intros i j. destruct (G i j) as [Gin Gout]. split.
  - intros Hij. apply Gin. now apply in_interior.
  - intros Hij. apply Gout. intros Hin. apply Hij. now apply in_interior.
Qed.

Lemma not_interior_i0 nx ny j : ~ is_interior nx ny 0 j.
Proof. unfold is_interior. lia. Qed.

Lemma calcvor_row_mean (F : nat -> Qc) (w : arr2) (p0 : Qc) (j : nat) :
  shape (Grid.nx + 1) (Grid.ny + 1) w ->
  get w 0 j = p0 ->
  (forall i, (1 <= i <= Grid.nx)%nat -> get w i j = F i) ->
  mean (col w j) = (p0 + sum (map F (seq 1 Grid.nx))) / of_nat (Grid.nx + 1).
Proof.
  intros Hw H0 Hi. unfold mean.
  rewrite col_length, (shape_length _ _ _ Hw).
  rewrite (col_as_map (Grid.nx + 1)) by apply (shape_length _ _ _ Hw).
  replace (Grid.nx + 1)%nat with (S Grid.nx) at 1 by lia.
  cbn [seq map]. rewrite sum_cons, H0.
  rewrite (map_ext_in _ F); [reflexivity|].
  intros i Hin. apply in_seq in Hin. apply Hi. lia.
Qed.

(** The end rows that [calcvor] sets: at every longitude index, row 0 holds
    the sum of the values computed for row 1 plus the entry [v[0,1]] that
    the call found in the array, divided by [nx + 1], and row [ny] the same
    of row [ny - 1]: the mean runs over the whole row of [nx + 1] entries,
    the entry with index 0 included, which the loops do not assign. *)
Theorem calcvor_end_rows (s v0 : Var) (i : nat) :
  shape (Grid.nx + 1) (Grid.ny + 1) (l1t v0) ->
  shape (Grid.nx + 1) (Grid.ny + 1) (l3t v0) ->
  (i <= Grid.nx)%nat ->
  let v := Model.calcvor s v0 in
  get (l1t v) i 0 =
    (get (l1t v0) 0 1 + sum (map (fun i' => calcvor_value1 s i' 1) (seq 1 Grid.nx)))
    / of_nat (Grid.nx + 1) /\
  get (l1t v) i Grid.ny =
    (get (l1t v0) 0 (Grid.ny - 1) +
     sum (map (fun i' => calcvor_value1 s i' (Grid.ny - 1)) (seq 1 Grid.nx)))
    / of_nat (Grid.nx + 1) /\
  get (l3t v) i 0 =
    (get (l3t v0) 0 1 + sum (map (fun i' => calcvor_value3 s i' 1) (seq 1 Grid.nx)))
    / of_nat (Grid.nx + 1) /\
  get (l3t v) i Grid.ny =
    (get (l3t v0) 0 (Grid.ny - 1) +
     sum (map (fun i' => calcvor_value3 s i' (Grid.ny - 1)) (seq 1 Grid.nx)))
    / of_nat (Grid.nx + 1).
Proof.
  intros H1 H3 Hi v.
  destruct (calcvor_loop_spec s v0 H1 H3) as (w1 & w3 & E1 & E3 & S1 & S3 & G).
  fold v in E1, E3. rewrite E1, E3.
  assert (Hny : (2 <= Grid.ny)%nat) by (unfold Grid.ny; lia).
  assert (Hi' : (i < Grid.nx + 1)%nat) by lia.
  destruct (end_rows_spec _ _ _ i S1 Hny Hi') as (A0 & An & _ & _).
  destruct (end_rows_spec _ _ _ i S3 Hny Hi') as (B0 & Bn & _ & _).
  rewrite A0, An, B0, Bn.
  assert (In1 : forall i', (1 <= i' <= Grid.nx)%nat -> is_interior Grid.nx Grid.ny i' 1)
    by (unfold is_interior, Grid.ny; lia).
  assert (Inn : forall i', (1 <= i' <= Grid.nx)%nat ->
                  is_interior Grid.nx Grid.ny i' (Grid.ny - 1))
    by (unfold is_interior, Grid.ny; lia).
  splits; apply calcvor_row_mean; try assumption;
    try (apply (proj2 (G 0%nat _)), not_interior_i0);
    intros i' Hi''.
  - apply (proj1 (G i' 1%nat)), In1, Hi''.
  - apply (proj1 (G i' (Grid.ny - 1)%nat)), Inn, Hi''.
  - apply (proj1 (G i' 1%nat)), In1, Hi''.
  - apply (proj1 (G i' (Grid.ny - 1)%nat)), Inn, Hi''.
Qed.

Lemma calcvor_end_rows_witness :
  get (l1t (Model.calcvor Model.noise new_Var)) 3 0 =
  (get (l1t new_Var) 0 1 +
   sum (map (fun i' => calcvor_value1 Model.noise i' 1) (seq 1 Grid.nx)))
  / of_nat (Grid.nx + 1).
Proof.
  refine (proj1 (calcvor_end_rows Model.noise new_Var 3 _ _ _)).
  - apply shape_zeros.
  - apply shape_zeros.
  - unfold Grid.nx. lia.
Defined.

Lemma get_assign_interior_rows n ny v temp i j :
  (1 <= ny)%nat -> shape n (ny + 1) v -> shape n (ny + 1) temp ->
  (i < n)%nat -> (j <= ny)%nat ->
  get (assign_interior_rows ny v temp) i j =
  if ((1 <=? j) && (j <=? ny - 1))%nat then get temp i j else get v i j.
Proof.
  intros Hny Hv Ht Hi Hj. unfold get, assign_interior_rows.
  rewrite (nth_map2 _ _ _ _ [] [])
    by (rewrite ?(shape_length _ _ _ Hv), ?(shape_length _ _ _ Ht); lia).
  pose proof (shape_row _ _ _ _ Hv Hi) as Lv.
  pose proof (shape_row _ _ _ _ Ht Hi) as Lt.
  set (rv := nth i v []) in *. set (rt := nth i temp []) in *.
  assert (L1 : length (firstn 1 rv) = 1%nat) by (rewrite length_firstn; lia).
  assert (L2 : length (firstn (ny - 1) (skipn 1 rt)) = (ny - 1)%nat)
    by (rewrite length_firstn, length_skipn; lia).
  destruct (Nat.leb_spec 1 j) as [H1|H1]; cbn [andb].
  - rewrite app_nth2 by lia. rewrite L1.
    destruct (Nat.leb_spec j (ny - 1)) as [H2|H2].
    + rewrite app_nth1 by lia. rewrite nth_firstn.
      destruct (Nat.ltb_spec (j - 1) (ny - 1)) as [_|]; [|lia].
      rewrite nth_skipn. f_equal. lia.
    + rewrite app_nth2 by lia. rewrite L2, nth_skipn. f_equal. lia.
  - rewrite app_nth1 by lia. rewrite nth_firstn.
    destruct (Nat.ltb_spec j 1) as [_|]; [reflexivity|lia].
Qed.

Section Relax2Result.

Variables (x1 x3 : arr2) (dt : Qc) (nx ny : nat) (alpha epsq k : Qc).
Variables (v1 v3 : arr2).
Hypothesis Hny : (2 <= ny)%nat.
Hypothesis Hv1 : shape (nx + 1) (ny + 1) v1.
Hypothesis Hv3 : shape (nx + 1) (ny + 1) v3.

(** No pass writes the entries of [temp1] and [temp3] outside the
    interior, which stay at the zero they were created with. *)
Lemma relax2_passes_temp_outside n i j :
  ~ is_interior nx ny i j ->
  let st := passes (relax2_body (relax2_nb_point x1 x3 dt nx alpha epsq k) nx ny) n
                   (relax2_init nx ny v1 v3) in
  get (r2_temp1 st) i j = 0 /\ get (r2_temp3 st) i j = 0.
Proof.
  intros Hout. induction n as [|n IH].
  - cbn [passes relax2_init r2_temp1 r2_temp3]. now rewrite !get_zeros.
  - cbv zeta in *. cbn [passes]. rewrite relax2_body_eq. cbv zeta. cbn [fst r2_temp1 r2_temp3].
    destruct (relax2_passes_shape x1 x3 dt nx ny alpha epsq k v1 v3) with (n := n)
      as (_ & _ & T1 & T3); [lia|exact Hv1|exact Hv3|].
    match goal with |- context [relax2_sweep ?p ?o ?s] =>
      destruct (relax2_sweep_spec x1 x3 dt nx alpha epsq k (nx + 1) (ny + 1) o s)
        as (_ & _ & _ & _ & _ & _ & Gout) end.
    + exact T1.
    + exact T3.
    + intros p Hp. now apply interior_in_bounds.
    + destruct (Gout i j) as [G1 G3].
      { intros Hin. apply Hout. now apply in_interior. }
      cbn [r2_temp1 r2_temp3] in G1, G3. rewrite G1, G3. exact IH.
Qed.

Lemma relax2_result_spec :
  exists n a1 a3,
    relax2_nb v1 v3 x1 x3 dt nx ny alpha epsq k = (end_rows ny a1, end_rows ny a3) /\
    shape (nx + 1) (ny + 1) a1 /\ shape (nx + 1) (ny + 1) a3 /\
    (forall j, (1 <= j <= ny - 1)%nat -> get a1 0 j = 0 /\ get a3 0 j = 0) /\
    (n < 100)%nat.
Proof.
  destruct (relax2_loop_spec x1 x3 dt nx ny alpha epsq k v1 v3) as (n & Hn & E & _).
  unfold relax2_nb. cbv zeta. rewrite E. cbn [passes]. rewrite relax2_body_eq.
  cbv zeta. cbn [fst r2_v1 r2_v3].
  destruct (relax2_passes_shape x1 x3 dt nx ny alpha epsq k v1 v3) with (n := n)
    as (S1 & S3 & T1 & T3); [lia|exact Hv1|exact Hv3|].
  pose proof (relax2_passes_temp_outside (S n)) as Out.
  cbv zeta in Out. cbn [passes] in Out. rewrite relax2_body_eq in Out.
  cbv zeta in Out. cbn [fst r2_temp1 r2_temp3] in Out.
  match goal with |- context [relax2_sweep ?p ?o ?s] =>
    destruct (relax2_sweep_shape x1 x3 dt nx alpha epsq k (nx + 1) (ny + 1) o s)
      as (U1 & U3); [exact T1|exact T3|];
    set (st1 := relax2_sweep p o s) in *
  end.
  exists n. eexists. eexists. split; [reflexivity|].
  split; [apply shape_assign_interior_rows; (lia || assumption)|].
  split; [apply shape_assign_interior_rows; (lia || assumption)|].
  split; [|exact Hn]. intros j Hj.
  rewrite !(get_assign_interior_rows (nx + 1) ny) by (lia || assumption).
  destruct (Nat.leb_spec 1 j) as [_|]; [|lia].
  destruct (Nat.leb_spec j (ny - 1)) as [_|]; [|lia]. cbn [andb].
  apply Out. apply not_interior_i0.
Qed.

End Relax2Result.

Lemma end_row_mean_padded n0 (a : arr2) (j : nat) :
  length a = (n0 + 1)%nat -> get a 0 j = 0 ->
  mean (col a j) = sum (map (fun i => get a i j) (seq 1 n0)) / of_nat (n0 + 1).
Proof.
  intros Ha H0. unfold mean.
  rewrite col_length, Ha, (col_as_map (n0 + 1)) by exact Ha.
  replace (n0 + 1)%nat with (S n0) at 1 by lia.
  cbn [seq map]. rewrite sum_cons, H0. f_equal. ring.
Qed.

Lemma end_rows_padded nx ny (a : arr2) (i : nat) :
  (2 <= ny)%nat -> shape (nx + 1) (ny + 1) a -> (i <= nx)%nat ->
  (forall j, (1 <= j <= ny - 1)%nat -> get a 0 j = 0) ->
  let r := end_rows ny a in
  get r i 0 = sum (map (fun i' => get r i' 1) (seq 1 nx)) / of_nat (nx + 1) /\
  get r i ny = sum (map (fun i' => get r i' (ny - 1)) (seq 1 nx)) / of_nat (nx + 1) /\
  (forall j, (1 <= j <= ny - 1)%nat -> get r 0 j = 0).
Proof.
  intros Hny Ha Hi H0 r. unfold r.
  destruct (end_rows_spec (nx + 1) ny a i Ha Hny) as (A0 & An & _ & _); [lia|].
  rewrite A0, An.
  rewrite !(end_row_mean_padded nx) by (apply (shape_length _ _ _ Ha) || (apply H0; lia)).
  splits.
  - f_equal. f_equal. apply map_ext. intros i'. symmetry.
    apply get_end_rows_interior. lia.
  - f_equal. f_equal. apply map_ext. intros i'. symmetry.
    apply get_end_rows_interior. lia.
  - intros j Hj. rewrite get_end_rows_interior by exact Hj. now apply H0.
Qed.

(** What [relax2_nb] returns, for any input: at every longitude index the
    end rows [j = 0] and [j = ny] hold the sum over [i = 1..nx] of the
    neighbouring row divided by [nx + 1], since the mean is taken over the
    whole row and the entry with index 0 of an interior row is zero. *)
Theorem relax2_nb_end_rows
    (v1 v3 x1 x3 : arr2) (dt : Qc) (nx ny : nat) (alpha epsq k : Qc) (i : nat) :
  (2 <= ny)%nat ->
  shape (nx + 1) (ny + 1) v1 -> shape (nx + 1) (ny + 1) v3 ->
  (i <= nx)%nat ->
  let r := relax2_nb v1 v3 x1 x3 dt nx ny alpha epsq k in
  (get (fst r) i 0 =
     sum (map (fun i' => get (fst r) i' 1) (seq 1 nx)) / of_nat (nx + 1) /\
   get (fst r) i ny =
     sum (map (fun i' => get (fst r) i' (ny - 1)) (seq 1 nx)) / of_nat (nx + 1) /\
   (forall j, (1 <= j <= ny - 1)%nat -> get (fst r) 0 j = 0)) /\
  (get (snd r) i 0 =
     sum (map (fun i' => get (snd r) i' 1) (seq 1 nx)) / of_nat (nx + 1) /\
   get (snd r) i ny =
     sum (map (fun i' => get (snd r) i' (ny - 1)) (seq 1 nx)) / of_nat (nx + 1) /\
   (forall j, (1 <= j <= ny - 1)%nat -> get (snd r) 0 j = 0)).
Proof.
  intros Hny H1 H3 Hi r.
  destruct (relax2_result_spec x1 x3 dt nx ny alpha epsq k v1 v3 Hny H1 H3)
    as (n & a1 & a3 & E & S1 & S3 & Z & _).
  unfold r. rewrite E. cbn [fst snd].
  split; apply end_rows_padded; try assumption; intros j Hj; now apply Z.
Qed.

Lemma relax2_nb_end_rows_witness :
  let r := relax2_nb (l1 new_Var) (l3 new_Var) (l1t Model.noise) (l3t Model.noise)
             Model.dt2 Grid.nx Grid.ny (Model.a * Model.dt2 / sq Grid.dx)
             Model.epsq Model.k in
  get (fst r) 3 0 =
    sum (map (fun i' => get (fst r) i' 1) (seq 1 Grid.nx)) / of_nat (Grid.nx + 1).
Proof.
  refine (proj1 (proj1 (relax2_nb_end_rows (l1 new_Var) (l3 new_Var)
                          (l1t Model.noise) (l3t Model.noise) Model.dt2 Grid.nx Grid.ny
                          (Model.a * Model.dt2 / sq Grid.dx) Model.epsq Model.k 3
                          _ _ _ _))).
  - unfold Grid.ny. lia.
  - apply shape_zeros.
  - apply shape_zeros.
  - unfold Grid.nx. lia.
Defined.

(** ** The zonal streamfunction *)

Lemma list_of_length_17 (l : arr1) :
  length l = 17%nat ->
  exists a0 a1 a2 a3 a4 a5 a6 a7 a8 a9 a10 a11 a12 a13 a14 a15 a16,
    l = [a0; a1; a2; a3; a4; a5; a6; a7; a8; a9; a10; a11; a12; a13; a14; a15; a16].
Proof.
  intros H.
  do 17 (destruct l as [|? l]; [discriminate H|]).
  destruct l; [|discriminate H].
  repeat eexists.
Qed.

Lemma list_of_length_29 (l : arr1) :
  length l = 29%nat ->
  exists a0 a1 a2 a3 a4 a5 a6 a7 a8 a9 a10 a11 a12 a13 a14 a15 a16 a17 a18 a19
         a20 a21 a22 a23 a24 a25 a26 a27 a28,
    l = [a0; a1; a2; a3; a4; a5; a6; a7; a8; a9; a10; a11; a12; a13; a14; a15; a16;
         a17; a18; a19; a20; a21; a22; a23; a24; a25; a26; a27; a28].
Proof.
  intros H.
  do 29 (destruct l as [|? l]; [discriminate H|]).
  destruct l; [|discriminate H].
  repeat eexists.
Qed.

(** [calc_zonstream] with a factorisation at hand, on fields of the size of
    the grid and with a solver that returns as many values as it is given:
    the right-hand side is the zonal mean vorticity of level 1 at
    [j = 1..ny-1] followed by that of level 3 at [j = 2..ny-1]; the solution
    is stored in the same layout, [s.l3z[1]] and [s.l3z[0]] are set to zero,
    and the other end values repeat their neighbours.  Nothing else of the
    model changes, but for the factorisation kept on the first call. *)
Theorem calc_zonstream_solution
    (dgetrf : arr2 -> arr2 * list Z)
    (dgetrs : arr2 -> list Z -> arr1 -> arr1)
    (m : Model.State) (f : arr2) (piv : list Z) :
  factorisation dgetrf m = Some (f, piv) ->
  length (l1z (Model.v m)) = (Grid.ny + 1)%nat ->
  length (l3z (Model.v m)) = (Grid.ny + 1)%nat ->
  length (l1z (Model.s m)) = (Grid.ny + 1)%nat ->
  length (l3z (Model.s m)) = (Grid.ny + 1)%nat ->
  let rhs := slice 1 Grid.ny (l1z (Model.v m)) ++ slice 2 Grid.ny (l3z (Model.v m)) in
  let sol := dgetrs f piv rhs in
  length sol = (2 * Grid.ny - 3)%nat ->
  exists m',
    Model.calc_zonstream dgetrf dgetrs m = Normal m' /\
    l1z (Model.s m') =
      nth 0 sol 0 :: slice 0 (Grid.ny - 1) sol ++ [nth (Grid.ny - 2) sol 0] /\
    l3z (Model.s m') =
      lit 0.0 :: lit 0.0 :: slice (Grid.ny - 1) (2 * Grid.ny - 3) sol ++
      [nth (2 * Grid.ny - 4) sol 0] /\
    l1t (Model.s m') = l1t (Model.s m) /\ l3t (Model.s m') = l3t (Model.s m) /\
    l1 (Model.s m') = l1 (Model.s m) /\ l3 (Model.s m') = l3 (Model.s m) /\
    Model.v m' = Model.v m /\ Model.vm m' = Model.vm m /\ Model.x m' = Model.x m /\
    Model.lu m' = Some (f, piv) /\ Model.first_step m' = false.
Proof.
  intros Hf Hv1 Hv3 Hs1 Hs3 rhs sol Hsol.
  destruct (list_of_length_17 _ Hv1) as
    (a0&a1&a2&a3&a4&a5&a6&a7&a8&a9&a10&a11&a12&a13&a14&a15&a16&Ea).
  destruct (list_of_length_17 _ Hv3) as
    (b0&b1&b2&b3&b4&b5&b6&b7&b8&b9&b10&b11&b12&b13&b14&b15&b16&Eb).
  destruct (list_of_length_17 _ Hs1) as
    (c0&c1&c2&c3&c4&c5&c6&c7&c8&c9&c10&c11&c12&c13&c14&c15&c16&Ec).
  destruct (list_of_length_17 _ Hs3) as
    (d0&d1&d2&d3&d4&d5&d6&d7&d8&d9&d10&d11&d12&d13&d14&d15&d16&Ed).
  destruct (list_of_length_29 _ Hsol) as
    (u0&u1&u2&u3&u4&u5&u6&u7&u8&u9&u10&u11&u12&u13&u14&u15&u16&u17&u18&u19&
     u20&u21&u22&u23&u24&u25&u26&u27&u28&Eu).
  assert (Er : rhs = [a1; a2; a3; a4; a5; a6; a7; a8; a9; a10; a11; a12; a13; a14; a15;
                      b2; b3; b4; b5; b6; b7; b8; b9; b10; b11; b12; b13; b14; b15])
    by (unfold rhs; rewrite Ea, Eb; reflexivity).
  unfold factorisation in Hf. unfold Model.calc_zonstream. cbv zeta.
  assert (Hm : exists m0, (if Model.first_step m
                           then Model.with_lu m (dgetrf (tail_block Model.zonstream_amat))
                           else m) = m0 /\
                 Model.lu m0 = Some (f, piv) /\ Model.v m0 = Model.v m /\
                 Model.s m0 = Model.s m /\ Model.vm m0 = Model.vm m /\
                 Model.x m0 = Model.x m /\
                 (Model.first_step m0 = false \/ m0 = m /\ Model.first_step m = false)).
  { destruct (Model.first_step m) eqn:Ef.
    - injection Hf as Hf. eexists. split; [reflexivity|].
      cbn [Model.with_lu Model.lu Model.v Model.s Model.vm Model.x Model.first_step].
      rewrite Hf. splits; auto.
    - exists m. splits; auto. }
  destruct Hm as (m0 & -> & Hlu & Hv & Hs & Hvm & Hx & Hfs).
  rewrite Hlu, Hv, Hs, Ea, Eb, Ec, Ed.
  match goal with |- context [dgetrs f piv ?r] =>
    replace r with rhs by (rewrite Er; vm_compute; reflexivity) end.
  fold sol. rewrite Eu.
  eexists. split; [reflexivity|].
  cbn [Model.with_s Model.with_l1z_l3z Model.s Model.v Model.vm Model.x Model.lu
       Model.first_step l1t l3t l1 l3 l1z l3z].
  rewrite ?Hs, ?Ec, ?Ed. cbn [l1t l3t l1 l3].
  split; [vm_compute; reflexivity|]. split; [vm_compute; reflexivity|].
  splits; auto.
  destruct Hfs as [Hfs | [-> Hfs]]; exact Hfs.
Qed.

Lemma calc_zonstream_solution_witness :
  exists m',
    Model.calc_zonstream ref_dgetrf ref_dgetrs Model.init = Normal m' /\
    Model.lu m' = Some (tail_block Model.zonstream_amat, []) /\
    Model.first_step m' = false.
Proof.
  destruct (calc_zonstream_solution ref_dgetrf ref_dgetrs Model.init
              (tail_block Model.zonstream_amat) [])
    as (m' & E & _ & _ & _ & _ & _ & _ & _ & _ & _ & Hlu & Hfs).
  - reflexivity.
  - reflexivity.
  - reflexivity.
  - reflexivity.
  - reflexivity.
  - vm_compute. reflexivity.
  - exists m'. split; [exact E|]. split; [exact Hlu|exact Hfs].
Defined.

(** ** The zonal mean vorticity *)

Lemma list_of_length_15 (l : arr1) :
  length l = 15%nat ->
  exists a0 a1 a2 a3 a4 a5 a6 a7 a8 a9 a10 a11 a12 a13 a14,
    l = [a0; a1; a2; a3; a4; a5; a6; a7; a8; a9; a10; a11; a12; a13; a14].
Proof.
  intros H.
  do 15 (destruct l as [|? l]; [discriminate H|]).
  destruct l; [|discriminate H].
  repeat eexists.
Qed.

(** [calc_zvor] solves two tridiagonal systems of [ny - 1] unknowns, the
    zonal mean vorticity at [j = 1..ny-1] of each level, against minus the
    zonal mean tendency: the off-diagonals are [alpha*epsq], the diagonal is
    [-2*alpha*epsq - 1] but [-alpha*epsq - 1] in the first and last row, and
    level 3 has [1.5*k*dt] taken off its diagonal.  The end values
    [j = 0] and [j = ny] repeat their neighbours, and nothing else of [v]
    changes. *)
Theorem calc_zvor_solution
    (dgtsv : arr1 -> arr1 -> arr1 -> arr1 -> arr1) (x : Var) (dt : Qc) (v : Var) :
  length (l1z x) = (Grid.ny + 1)%nat -> length (l3z x) = (Grid.ny + 1)%nat ->
  length (l1z v) = (Grid.ny + 1)%nat -> length (l3z v) = (Grid.ny + 1)%nat ->
  let alpha := Model.a * dt / sq Grid.dx in
  let off := repeat (alpha * Model.epsq) (Grid.ny - 2) in
  let inner := - lit 2.0 * alpha * Model.epsq - lit 1 in
  let edge := - alpha * Model.epsq - lit 1 in
  let diag1 := edge :: repeat inner (Grid.ny - 3) ++ [edge] in
  let diag3 := map (fun c => c - lit 1.5 * Model.k * dt) diag1 in
  let u1 := dgtsv off diag1 off (map Qcopp (slice 1 Grid.ny (l1z x))) in
  let u3 := dgtsv off diag3 off (map Qcopp (slice 1 Grid.ny (l3z x))) in
  length u1 = (Grid.ny - 1)%nat -> length u3 = (Grid.ny - 1)%nat ->
  let v' := Model.calc_zvor dgtsv x dt v in
  l1z v' = nth 0 u1 0 :: u1 ++ [nth (Grid.ny - 2) u1 0] /\
  l3z v' = nth 0 u3 0 :: u3 ++ [nth (Grid.ny - 2) u3 0] /\
  l1t v' = l1t v /\ l3t v' = l3t v /\ l1 v' = l1 v /\ l3 v' = l3 v.
Proof.
  intros Hx1 Hx3 Hv1 Hv3 alpha off inner edge diag1 diag3 u1 u3 Hu1 Hu3 v'.
  destruct (list_of_length_17 _ Hv1) as
    (c0&c1&c2&c3&c4&c5&c6&c7&c8&c9&c10&c11&c12&c13&c14&c15&c16&Ec).
  destruct (list_of_length_17 _ Hv3) as
    (d0&d1&d2&d3&d4&d5&d6&d7&d8&d9&d10&d11&d12&d13&d14&d15&d16&Ed).
  destruct (list_of_length_15 _ Hu1) as
    (p0&p1&p2&p3&p4&p5&p6&p7&p8&p9&p10&p11&p12&p13&p14&Ep).
  destruct (list_of_length_15 _ Hu3) as
    (q0&q1&q2&q3&q4&q5&q6&q7&q8&q9&q10&q11&q12&q13&q14&Eq).
  assert (E : v' = Model.with_l1z_l3z v
                     (let z := set_slice 1 Grid.ny (l1z v) u1 in
                      let z := upd z 0 (get1 z 1) in
                      upd z Grid.ny (get1 z (Grid.ny - 1)))
                     (let z := set_slice 1 Grid.ny (l3z v) u3 in
                      let z := upd z 0 (get1 z 1) in
                      upd z Grid.ny (get1 z (Grid.ny - 1)))).
  { reflexivity. }
  rewrite E, Ec, Ed, Ep, Eq. cbn [Model.with_l1z_l3z l1t l3t l1 l3 l1z l3z].
  splits; reflexivity.
Qed.

Lemma calc_zvor_solution_witness :
  let u1 := ref_dgtsv
              (repeat (Model.a * Model.dt2 / sq Grid.dx * Model.epsq) (Grid.ny - 2))
              ((- (Model.a * Model.dt2 / sq Grid.dx) * Model.epsq - lit 1) ::
               repeat (- lit 2.0 * (Model.a * Model.dt2 / sq Grid.dx) * Model.epsq - lit 1)
                      (Grid.ny - 3) ++
               [- (Model.a * Model.dt2 / sq Grid.dx) * Model.epsq - lit 1])
              (repeat (Model.a * Model.dt2 / sq Grid.dx * Model.epsq) (Grid.ny - 2))
              (map Qcopp (slice 1 Grid.ny (l1z Model.noise))) in
  l1z (Model.calc_zvor ref_dgtsv Model.noise Model.dt2 new_Var) =
  nth 0 u1 0 :: u1 ++ [nth (Grid.ny - 2) u1 0].
Proof.
  refine (proj1 (calc_zvor_solution ref_dgtsv Model.noise Model.dt2 new_Var _ _ _ _ _ _)).
  - reflexivity.
  - reflexivity.
  - reflexivity.
  - reflexivity.
  - vm_compute. reflexivity.
  - vm_compute. reflexivity.
Defined.

(** ** The factorisation across steps *)

Section Factorisation.

Variable dgetrf : arr2 -> arr2 * list Z.
Variable dgetrs : arr2 -> list Z -> arr1 -> arr1.
Variable dgtsv : arr1 -> arr1 -> arr1 -> arr1 -> arr1.

Lemma calc_zonstream_lu (m : Model.State) (fp : arr2 * list Z) :
  factorisation dgetrf m = Some fp ->
  exists m', Model.calc_zonstream dgetrf dgetrs m = Normal m' /\
             Model.lu m' = Some fp /\ Model.first_step m' = false.
Proof.
  unfold factorisation, Model.calc_zonstream. cbv zeta. intros Hf.
  destruct (Model.first_step m) eqn:Ef.
  - injection Hf as Hf. cbn [Model.lu Model.with_lu]. rewrite Hf.
    destruct fp as [f piv]. eexists. split; [reflexivity|].
    cbn [Model.with_s Model.with_lu Model.lu Model.first_step]. auto.
  - rewrite Hf. destruct fp as [f piv]. eexists. split; [reflexivity|].
    cbn [Model.with_s Model.lu Model.first_step]. auto.
Qed.

Lemma calc_zonstream_missing (m : Model.State) :
  factorisation dgetrf m = None ->
  Model.calc_zonstream dgetrf dgetrs m = Raised AttributeError_lu m.
Proof.
  unfold factorisation, Model.calc_zonstream. cbv zeta. intros Hf.
  destruct (Model.first_step m) eqn:Ef; [discriminate Hf|]. now rewrite Hf.
Qed.

Lemma step_update_lu (m : Model.State) :
  let m' := Model.adapt_step (Model.advance_clock
              (Model.anomaly_update (Model.zonal_update dgtsv (Model.tendency m)))) in
  Model.lu m' = Model.lu m /\ Model.first_step m' = Model.first_step m.
Proof.
  cbv zeta. unfold Model.adapt_step.
  set (mc := Model.advance_clock _).
  assert (T : Model.lu mc = Model.lu m /\ Model.first_step mc = Model.first_step m).
  { unfold mc, Model.advance_clock, Model.anomaly_update, Model.zonal_update,
      Model.tendency. cbv zeta.
    cbn [Model.with_x Model.with_v Model.time Model.dt].
    destruct (Qc_eq_bool (Model.time m) (lit 0.0)); split; reflexivity. }
  clearbody mc. cbv zeta.
  destruct (_ && _ && _); [|exact T].
  destruct (Qcltb _ _); exact T.
Qed.

Lemma step_factorisation (m : Model.State) (fp : arr2 * list Z) :
  factorisation dgetrf m = Some fp ->
  Model.lu (data (Model.step dgetrf dgetrs dgtsv m)) = Some fp /\
  Model.first_step (data (Model.step dgetrf dgetrs dgtsv m)) = false.
Proof.
  intros Hf. unfold Model.step, Model.step_core, Model.step_streamfunction.
  destruct (calc_zonstream_lu (Model.with_v m (split (Model.v m))) fp Hf)
    as (mz & E & Hlu & Hfs).
  rewrite E. cbn [Model.obind].
  destruct (relax1_nb _ _ _ _ _ _ _ _) as [[s1 s3] | e [s1 s3]]; cbn [Model.obind data].
  - cbn [Model.with_s Model.time].
    match goal with |- context [if ?c then Model.diag ?a else Normal ?a] =>
      assert (D : exists o, (if c then Model.diag a else Normal a) = o /\
                            Model.lu (data o) = Some fp /\
                            Model.first_step (data o) = false)
    end.
    { eexists. split; [reflexivity|].
      destruct (is_multiple _ _); [|cbn [data Model.with_s Model.lu Model.first_step]; auto].
      unfold Model.diag. destruct (Model.calc_energy _ _ _) as [[[zke eke] zpe] epe].
      destruct (Qcltb _ _); cbn [data Model.with_s Model.lu Model.first_step]; auto. }
    destruct D as (o & -> & Dl & Df).
    destruct o as [md | e md]; cbn [Model.obind data] in *.
    + destruct (step_update_lu md) as [Ul Uf]. rewrite Ul, Uf. auto.
    + auto.
  - cbn [Model.with_s Model.lu Model.first_step]. auto.
Qed.

Lemma steps_factorisation (m : Model.State) (fp : arr2 * list Z) (n : nat) :
  factorisation dgetrf m = Some fp ->
  Model.lu (Model.steps dgetrf dgetrs dgtsv (S n) m) = Some fp /\
  Model.first_step (Model.steps dgetrf dgetrs dgtsv (S n) m) = false.
Proof.
  intros Hf. induction n as [|n IH].
  - cbn [Model.steps]. now apply step_factorisation.
  - change (Model.steps dgetrf dgetrs dgtsv (S (S n)) m)
      with (data (Model.step dgetrf dgetrs dgtsv (Model.steps dgetrf dgetrs dgtsv (S n) m))).
    apply step_factorisation. unfold factorisation.
    destruct IH as [-> ->]. reflexivity.
Qed.

Lemma step_without_factorisation (m : Model.State) :
  factorisation dgetrf m = None ->
  Model.step dgetrf dgetrs dgtsv m =
  Raised AttributeError_lu (Model.with_v m (split (Model.v m))).
Proof.
  intros Hf. unfold Model.step, Model.step_core, Model.step_streamfunction.
  rewrite calc_zonstream_missing by exact Hf. reflexivity.
Qed.

End Factorisation.

(** The matrix of the zonal system is factorised once: whatever happens in
    the steps, also when one raises, every state after the first call of
    [step] holds the factorisation that call solved with, the one computed
    by [dgetrf] on the first call of [calc_zonstream] or the stored one, and
    [first_step] is off.  A model without a factorisation and with
    [first_step] off raises [AttributeError] in [step] after the split of
    [v]. *)
Theorem step_reuses_factorisation
    (dgetrf : arr2 -> arr2 * list Z)
    (dgetrs : arr2 -> list Z -> arr1 -> arr1)
    (dgtsv : arr1 -> arr1 -> arr1 -> arr1 -> arr1)
    (m : Model.State) :
  match factorisation dgetrf m with
  | Some fp =>
      forall n, Model.lu (Model.steps dgetrf dgetrs dgtsv (S n) m) = Some fp /\
                Model.first_step (Model.steps dgetrf dgetrs dgtsv (S n) m) = false
  | None =>
      Model.step dgetrf dgetrs dgtsv m =
      Raised AttributeError_lu (Model.with_v m (split (Model.v m)))
  end.
Proof.
  destruct (factorisation dgetrf m) as [fp|] eqn:Hf.
  - intros n. now apply steps_factorisation.
  - now apply step_without_factorisation.
Qed.

(** ** The matrix of the zonal system *)

Lemma symmetricb_sound n a :
  symmetricb n a = true ->
  forall i j, (i < n)%nat -> (j < n)%nat -> get a i j = get a j i.
Proof.
  unfold symmetricb. rewrite forallb_forall. intros H i j Hi Hj.
  assert (Hin : In i (seq 0 n)) by (apply in_seq; lia).
  specialize (H i Hin). rewrite forallb_forall in H.
  apply Qc_eq_bool_correct, H, in_seq. lia.
Qed.

(** The matrix that [calc_zonstream] builds and factorises is symmetric,
    and so is the block [amat[1:,1:]] handed to [dgetrf]. *)
Theorem zonstream_amat_symmetric (i j : nat) :
  get Model.zonstream_amat i j = get Model.zonstream_amat j i /\
  get (tail_block Model.zonstream_amat) i j = get (tail_block Model.zonstream_amat) j i.
Proof.
  assert (Ha : shape 30 30 Model.zonstream_amat)
    by (apply shapeb_shape; vm_compute; reflexivity).
  assert (Hb : shape 29 29 (tail_block Model.zonstream_amat))
    by (apply shapeb_shape; vm_compute; reflexivity).
  split.
  - destruct (Nat.lt_ge_cases i 30) as [Hi|Hi], (Nat.lt_ge_cases j 30) as [Hj|Hj].
    + apply (symmetricb_sound 30); [vm_compute; reflexivity|exact Hi|exact Hj].
    + rewrite !(get_oob 30 30) by (assumption || lia). reflexivity.
    + rewrite !(get_oob 30 30) by (assumption || lia). reflexivity.
    + rewrite !(get_oob 30 30) by (assumption || lia). reflexivity.
  - destruct (Nat.lt_ge_cases i 29) as [Hi|Hi], (Nat.lt_ge_cases j 29) as [Hj|Hj].
    + apply (symmetricb_sound 29); [vm_compute; reflexivity|exact Hi|exact Hj].
    + rewrite !(get_oob 29 29) by (assumption || lia). reflexivity.
    + rewrite !(get_oob 29 29) by (assumption || lia). reflexivity.
    + rewrite !(get_oob 29 29) by (assumption || lia). reflexivity.
Qed.

(** ** The tendency of [xcalc_nb] *)

Lemma upd_upd {A} (l : list A) n p q : upd (upd l n p) n q = upd l n q.
Proof.
  revert n. induction l as [|h t IH]; intros [|n]; simpl; try reflexivity.
  now rewrite IH.
Qed.

Lemma aset_aset n m a i j p q :
  shape n m a -> (i < n)%nat -> aset (aset a i j p) i j q = aset a i j q.
Proof.
  intros Ha Hi. unfold aset.
  rewrite nth_upd_eq by (rewrite (shape_length _ _ _ Ha); exact Hi).
  now rewrite !upd_upd.
Qed.

Lemma xcalc_nb_point_eq v1t v3t vm1t vm3t s1t s3t dt nx ny epsq alpha b c h k gamma
    n m j i (x : arr2 * arr2) :
  shape n m (snd x) -> (i < n)%nat -> (j < m)%nat ->
  xcalc_nb_point v1t v3t vm1t vm3t s1t s3t dt nx ny epsq alpha b c h k gamma j i x =
  (aset (fst x) i j (xcalc_value1 v1t vm1t s1t nx ny epsq alpha b c h i j),
   aset (snd x) i j (xcalc_value3 v1t v3t vm3t s1t s3t dt nx ny epsq alpha b c h k gamma
                                  i j)).
Proof.
  intros Hs Hi Hj. unfold xcalc_nb_point. cbv zeta.
  rewrite (get_aset_same n m) by assumption.
  rewrite (aset_aset n m) by assumption.
  reflexivity.
Qed.

Lemma xcalc_nb_interior v1t v3t vm1t vm3t s1t s3t x1t x3t dt nx ny
    epsq alpha b c h k gamma i j :
  shape (nx + 1) (ny + 1) x1t -> shape (nx + 1) (ny + 1) x3t ->
  is_interior nx ny i j ->
  let x' := xcalc_nb v1t v3t vm1t vm3t s1t s3t x1t x3t dt nx ny
                     epsq alpha b c h k gamma in
  get (fst x') i j = xcalc_value1 v1t vm1t s1t nx ny epsq alpha b c h i j /\
  get (snd x') i j =
    xcalc_value3 v1t v3t vm3t s1t s3t dt nx ny epsq alpha b c h k gamma i j.
Proof.
  intros H1 H3 Hij. unfold xcalc_nb. cbv zeta. rewrite for_range_nest.
  assert (F1 : shape (nx + 1) (ny + 1) (fill x1t (lit 0.0))) by now apply shape_fill.
  assert (F3 : shape (nx + 1) (ny + 1) (fill x3t (lit 0.0))) by now apply shape_fill.
  set (G1 := fun i j => xcalc_value1 v1t vm1t s1t nx ny epsq alpha b c h i j).
  set (G3 := fun i j =>
               xcalc_value3 v1t v3t vm3t s1t s3t dt nx ny epsq alpha b c h k gamma i j).
  assert (E : forall order (w : arr2 * arr2),
            shape (nx + 1) (ny + 1) (fst w) -> shape (nx + 1) (ny + 1) (snd w) ->
            (forall p, In p order -> (snd p < nx + 1)%nat /\ (fst p < ny + 1)%nat) ->
            fold_left (fun st p =>
                         xcalc_nb_point v1t v3t vm1t vm3t s1t s3t dt nx ny
                           epsq alpha b c h k gamma (fst p) (snd p) st) order w =
            fold_left (fun w p =>
                         (aset (fst w) (snd p) (fst p) (G1 (snd p) (fst p)),
                          aset (snd w) (snd p) (fst p) (G3 (snd p) (fst p)))) order w).
  { induction order as [|[j0 i0] order IH]; intros w W1 W3 Hb; cbn [fold_left];
      [reflexivity|].
    destruct (Hb (j0, i0) (or_introl eq_refl)) as [Hi0 Hj0]. cbn [fst snd] in *.
    rewrite (xcalc_nb_point_eq _ _ _ _ _ _ _ _ _ _ _ _ _ _ _ _ (nx + 1) (ny + 1))
      by assumption.
    apply IH; cbn [fst snd]; try (now apply shape_aset).
    intros p Hp. apply Hb. now right. }
  rewrite E by (cbn [fst snd]; assumption || (intros p Hp; now apply interior_in_bounds)).
  destruct (fold_aset2_spec G1 G3 (nx + 1) (ny + 1) (interior nx ny)
              (fill x1t (lit 0.0), fill x3t (lit 0.0)) F1 F3) as (_ & _ & G).
  { intros p Hp. now apply interior_in_bounds. }
  apply (G i j). now apply in_interior.
Qed.

(** The tendency of a model at rest is the heating alone: with [v], [vm]
    and [s] zero, [xcalc_nb] leaves [h*(2*j - ny)/ny] at every interior point
    of level 1 and the opposite at level 3, whatever the arrays [x1t], [x3t]
    held; the two levels cancel, and the heating vanishes on the middle row
    [2*j = ny]. *)
Theorem xcalc_nb_at_rest
    (x1t x3t : arr2) (dt : Qc) (nx ny : nat) (epsq alpha b c h k gamma : Qc) (i j : nat) :
  shape (nx + 1) (ny + 1) x1t -> shape (nx + 1) (ny + 1) x3t ->
  is_interior nx ny i j ->
  let z := zeros (nx + 1) (ny + 1) in
  let x' := xcalc_nb z z z z z z x1t x3t dt nx ny epsq alpha b c h k gamma in
  get (fst x') i j = h * of_Z (2 * Z.of_nat j - Z.of_nat ny) / of_nat ny /\
  get (snd x') i j = - (h * of_Z (2 * Z.of_nat j - Z.of_nat ny) / of_nat ny) /\
  get (fst x') i j + get (snd x') i j = 0 /\
  ((2 * j)%nat = ny -> get (fst x') i j = 0 /\ get (snd x') i j = 0).
Proof.
  intros H1 H3 Hij z x'.
  destruct (xcalc_nb_interior z z z z z z x1t x3t dt nx ny epsq alpha b c h k gamma i j
              H1 H3 Hij) as [E1 E3].
  fold x' in E1, E3.
  assert (V1 : get (fst x') i j = xcalc_heating ny h j).
  { rewrite E1. unfold xcalc_value1, xcalc_level, z. rewrite !get_zeros. ring. }
  assert (V3 : get (snd x') i j = - xcalc_heating ny h j).
  { rewrite E3. unfold xcalc_value3, xcalc_level, z. rewrite !get_zeros. ring. }
  rewrite V1, V3. unfold xcalc_heating. splits; try reflexivity; [ring|].
  intros Hmid.
  replace (2 * Z.of_nat j - Z.of_nat ny)%Z with 0%Z by lia.
  replace (of_Z 0) with 0 by (apply Qc_is_canon; reflexivity).
  unfold Qcdiv. split; ring.
Qed.

Lemma xcalc_nb_at_rest_witness :
  let z := zeros (Grid.nx + 1) (Grid.ny + 1) in
  let x' := xcalc_nb z z z z z z (l1t Model.noise) (l3t Model.noise) Model.dt2
              Grid.nx Grid.ny Model.epsq 1 1 1 1 Model.k Model.gamma in
  get (fst x') 3 8 + get (snd x') 3 8 = 0.
Proof.
  refine (proj1 (proj2 (proj2 (xcalc_nb_at_rest (l1t Model.noise) (l3t Model.noise)
                                 Model.dt2 Grid.nx Grid.ny Model.epsq 1 1 1 1
                                 Model.k Model.gamma 3 8 _ _ _)))).
  - apply shapeb_shape. vm_compute. reflexivity.
  - apply shapeb_shape. vm_compute. reflexivity.
  - unfold is_interior, Grid.nx, Grid.ny. lia.
Defined.

(** ** The zonal state of the spin-up *)

Lemma get_fold_set_col_scalar n m (f : nat -> Qc) js t i j :
  shape n m t -> (i < n)%nat -> (j < m)%nat ->
  get (fold_left (fun t j => set_col_scalar t j (f j)) js t) i j =
  if existsb (Nat.eqb j) js then f j else get t i j.
Proof.
  intros Ht Hi Hj. revert t Ht.
  induction js as [|j0 js IH]; intros t Ht; cbn [fold_left existsb]; [reflexivity|].
  rewrite IH by now apply shape_set_col_scalar.
  destruct (existsb (Nat.eqb j) js); [now rewrite orb_true_r|].
  rewrite orb_false_r.
  destruct (Nat.eqb_spec j j0) as [->|Hne].
  - now apply (get_set_col_scalar_same n m).
  - apply get_set_col_scalar_other. congruence.
Qed.

Lemma shape_fold_set_col_scalar n m (f : nat -> Qc) js t :
  shape n m t -> shape n m (fold_left (fun t j => set_col_scalar t j (f j)) js t).
Proof.
  intros Ht. apply fold_left_inv; [exact Ht|].
  intros s a _ Hs. now apply shape_set_col_scalar.
Qed.

Lemma sum_map_const {A} (c : Qc) (l : list A) :
  sum (map (fun _ => c) l) = of_nat (length l) * c.
Proof.
  induction l as [|a l IH].
  - cbn [map length]. rewrite sum_nil.
    replace (of_nat 0) with 0 by (apply Qc_is_canon; reflexivity). ring.
  - cbn [map length]. rewrite sum_cons, IH, of_nat_S. ring.
Qed.

Lemma mean_of_constant (n c : Qc) : n <> 0 -> n * c / n = c.
Proof. intros H. field. exact H. Qed.

(** The total that [spinup] rebuilds from the zonal mean alone. *)
Lemma zonal_level_spec (t : arr2) (z : arr1) :
  shape (Grid.nx + 1) (Grid.ny + 1) t -> length z = (Grid.ny + 1)%nat ->
  let t' := for_range 0 (Grid.ny + 1) (fun j t => set_col_scalar t j (get1 z j)) t in
  shape (Grid.nx + 1) (Grid.ny + 1) t' /\
  (forall i j, (i <= Grid.nx)%nat -> (j <= Grid.ny)%nat -> get t' i j = get1 z j) /\
  zmean t' = z /\
  sub_bcast t' (zmean t') = zeros (Grid.nx + 1) (Grid.ny + 1).
Proof.
  intros Ht Hz t'.
  assert (St : shape (Grid.nx + 1) (Grid.ny + 1) t')
    by (apply shape_fold_set_col_scalar; exact Ht).
  assert (G : forall i j, (i <= Grid.nx)%nat -> (j <= Grid.ny)%nat ->
                get t' i j = get1 z j).
  { intros i j Hi Hj. unfold t', for_range.
    rewrite (get_fold_set_col_scalar (Grid.nx + 1) (Grid.ny + 1)) by (assumption || lia).
    rewrite (proj2 (existsb_eqb_seq j 0 (Grid.ny + 1 - 0))) by lia. reflexivity. }
  assert (Z : zmean t' = z).
  { apply (nth_ext_get1 _ _ (Grid.ny + 1)); [apply zmean_length|exact Hz|].
    intros j Hj. rewrite get1_zmean by (apply (shape_length _ _ _ St) || lia).
    rewrite (map_ext_in _ (fun _ => get1 z j)).
    - rewrite sum_map_const, length_seq. apply mean_of_constant, of_nat_nx_nonzero.
    - intros i Hi. apply in_seq in Hi. apply G; lia. }
  split; [exact St|]. split; [exact G|]. split; [exact Z|].
  rewrite Z. apply (shape_ext (Grid.nx + 1) (Grid.ny + 1));
    [now apply shape_sub_bcast|apply shape_zeros|].
  intros i j Hi Hj.
  rewrite (get_sub_bcast (Grid.nx + 1) (Grid.ny + 1)) by assumption.
  rewrite G by lia. rewrite get_zeros. ring.
Qed.

(** A pass of [spinup] leaves a zonal vorticity: after [v.set(0.0)] and the
    loop that rebuilds the totals, every row of the totals of [v] holds the
    zonal mean and the anomalies are zero.  In exact arithmetic the [split]
    that opens the next pass finds the same zonal means and zero anomalies
    again (the mean of sixteen equal values is that value only up to
    rounding). *)
Theorem spinup_pass_is_zonal (m : Model.State) :
  shape (Grid.nx + 1) (Grid.ny + 1) (l1t (Model.v m)) ->
  shape (Grid.nx + 1) (Grid.ny + 1) (l3t (Model.v m)) ->
  shape (Grid.nx + 1) (Grid.ny + 1) (l1 (Model.v m)) ->
  shape (Grid.nx + 1) (Grid.ny + 1) (l3 (Model.v m)) ->
  length (l1z (Model.v m)) = (Grid.ny + 1)%nat ->
  length (l3z (Model.v m)) = (Grid.ny + 1)%nat ->
  let v' := Model.v (Model.zonal_total m) in
  (forall i j, (i <= Grid.nx)%nat -> (j <= Grid.ny)%nat ->
     get (l1t v') i j = get1 (l1z (Model.v m)) j /\
     get (l3t v') i j = get1 (l3z (Model.v m)) j) /\
  l1 v' = zeros (Grid.nx + 1) (Grid.ny + 1) /\
  l3 v' = zeros (Grid.nx + 1) (Grid.ny + 1) /\
  l1z v' = l1z (Model.v m) /\ l3z v' = l3z (Model.v m) /\
  split v' = v'.
Proof.
  intros T1 T3 A1 A3 Z1 Z3 v'.
  destruct (zonal_level_spec (l1t (Model.v m)) (l1z (Model.v m)) T1 Z1)
    as (S1 & G1 & M1 & B1).
  destruct (zonal_level_spec (l3t (Model.v m)) (l3z (Model.v m)) T3 Z3)
    as (S3 & G3 & M3 & B3).
  assert (E : v' = mkVar
            (for_range 0 (Grid.ny + 1)
               (fun j t => set_col_scalar t j (get1 (l1z (Model.v m)) j))
               (l1t (Model.v m)))
            (for_range 0 (Grid.ny + 1)
               (fun j t => set_col_scalar t j (get1 (l3z (Model.v m)) j))
               (l3t (Model.v m)))
            (fill (l1 (Model.v m)) (lit 0.0)) (fill (l3 (Model.v m)) (lit 0.0))
            (l1z (Model.v m)) (l3z (Model.v m))) by reflexivity.
  rewrite E. cbn [l1t l3t l1 l3 l1z l3z].
  rewrite (fill_zeros _ _ _ A1), (fill_zeros _ _ _ A3).
  split; [intros i j Hi Hj; split; [now apply G1|now apply G3]|].
  splits; try reflexivity.
  unfold split, calc_zmean. cbv zeta. cbn [l1t l3t l1 l3 l1z l3z].
  cbv zeta in M1, M3, B1, B3. rewrite B1, B3, M1, M3. reflexivity.
Qed.

Lemma spinup_pass_is_zonal_witness :
  let m := Model.with_v Model.init
             (Model.with_l1z_l3z new_Var (map of_nat (seq 0 (Grid.ny + 1)))
                                         (l3z new_Var)) in
  split (Model.v (Model.zonal_total m)) = Model.v (Model.zonal_total m).
Proof.
  intros m.
  refine (proj2 (proj2 (proj2 (proj2 (proj2 (spinup_pass_is_zonal m _ _ _ _ _ _)))))).
  - apply shape_zeros.
  - apply shape_zeros.
  - apply shape_zeros.
  - apply shape_zeros.
  - reflexivity.
  - reflexivity.
Defined.

(** ** [relax2_nb] without forcing *)









(** ** Zonal means under [calcvor] and [perturb] *)



(** A sum over all longitudes does not change when every term is taken at
    the neighbour to the east or to the west: the longitudes are
    periodic. *)
Lemma sum_wrap (f : nat -> Qc) :
  sum (map (fun i => f (wrap_p Grid.nx i)) (seq 1 Grid.nx)) =
    sum (map f (seq 1 Grid.nx)) /\
  sum (map (fun i => f (wrap_m Grid.nx i)) (seq 1 Grid.nx)) =
    sum (map f (seq 1 Grid.nx)).
Proof.
  unfold Grid.nx. cbn [seq map]. rewrite !sum_cons, !sum_nil.
  cbv [wrap_p wrap_m Nat.eqb Nat.add Nat.sub]. split; ring.
Qed.





Lemma sum_map_add {A} (f g : A -> Qc) (l : list A) :
  sum (map (fun i => f i + g i) l) = sum (map f l) + sum (map g l).
Proof.
  induction l as [|i l IH]; cbn [map].
  - rewrite !sum_nil. ring.
  - rewrite !sum_cons, IH. ring.
Qed.

Lemma zonal_sums_zerob_sound (nx ny : nat) (a : arr2) (j : nat) :
  zonal_sums_zerob nx ny a = true -> (j <= ny)%nat ->
  sum (map (fun i => get a i j) (seq 1 nx)) = 0.
Proof.
  unfold zonal_sums_zerob. rewrite forallb_forall. intros H Hj.
  apply Qc_eq_bool_correct, H, in_seq. lia.
Qed.

(** In exact arithmetic the field that [perturb] adds has no zonal mean:
    at every latitude, the end rows included, its sum over the longitudes
    [1..nx] is zero. *)
Lemma perturbation_zonal_sums (j : nat) :
  (j <= Grid.ny)%nat ->
  sum (map (fun i => get (l1t Model.perturbation) i j) (seq 1 Grid.nx)) = 0 /\
  sum (map (fun i => get (l3t Model.perturbation) i j) (seq 1 Grid.nx)) = 0.
Proof.
  intros Hj.
  split; apply (zonal_sums_zerob_sound Grid.nx Grid.ny); try assumption;
    vm_compute; reflexivity.
Qed.

Lemma zmean_add2 (a p : arr2) (j : nat) :
  shape (Grid.nx + 1) (Grid.ny + 1) a -> shape (Grid.nx + 1) (Grid.ny + 1) p ->
  (j <= Grid.ny)%nat ->
  sum (map (fun i => get p i j) (seq 1 Grid.nx)) = 0 ->
  get1 (zmean (add2 a p)) j = get1 (zmean a) j.
Proof.
  intros Ha Hp Hj Hz.
  rewrite !get1_zmean; try assumption.
  - rewrite (map_ext_in _ (fun i => get a i j + get p i j)).
    + now rewrite sum_map_add, Hz, Qcplus_0_r.
    + intros i Hi. apply in_seq in Hi.
      apply (get_add2 (Grid.nx + 1) (Grid.ny + 1)); auto; lia.
  - apply (shape_length _ _ _ Ha).
  - unfold add2. rewrite map2_length, (shape_length _ _ _ Ha), (shape_length _ _ _ Hp). lia.
Qed.

(** In exact arithmetic [perturb] leaves the zonal mean of the vorticity
    alone: at every latitude [0..ny] and on both levels, the zonal mean of
    [v] after [perturb] is the one before, and the zonal mean of [vm] is
    that of the interpolated [vm]. *)
Theorem perturb_keeps_zonal_mean (m : Model.State) (j : nat) :
  shape (Grid.nx + 1) (Grid.ny + 1) (l1t (Model.v m)) ->
  shape (Grid.nx + 1) (Grid.ny + 1) (l3t (Model.v m)) ->
  shape (Grid.nx + 1) (Grid.ny + 1) (l1t (Model.vm m)) ->
  shape (Grid.nx + 1) (Grid.ny + 1) (l3t (Model.vm m)) ->
  (j <= Grid.ny)%nat ->
  let mi := Model.perturb_interpolate m in
  let m' := Model.perturb m in
  get1 (zmean (l1t (Model.v m'))) j = get1 (zmean (l1t (Model.v m))) j /\
  get1 (zmean (l3t (Model.v m'))) j = get1 (zmean (l3t (Model.v m))) j /\
  get1 (zmean (l1t (Model.vm m'))) j = get1 (zmean (l1t (Model.vm mi))) j /\
  get1 (zmean (l3t (Model.vm m'))) j = get1 (zmean (l3t (Model.vm mi))) j.
Proof.
  intros Hv1 Hv3 Hm1 Hm3 Hj mi m'.
  destruct shape_perturbation as [Hp1 Hp3].
  destruct (perturbation_zonal_sums j Hj) as [Z1 Z3].
  assert (Hi1 : shape (Grid.nx + 1) (Grid.ny + 1) (l1t (Model.vm mi)))
    by (apply shape_interpolate_level; assumption).
  assert (Hi3 : shape (Grid.nx + 1) (Grid.ny + 1) (l3t (Model.vm mi)))
    by (apply shape_interpolate_level; assumption).
  splits.
  - exact (zmean_add2 _ _ j Hv1 Hp1 Hj Z1).
  - exact (zmean_add2 _ _ j Hv3 Hp3 Hj Z3).
  - exact (zmean_add2 _ _ j Hi1 Hp1 Hj Z1).
  - exact (zmean_add2 _ _ j Hi3 Hp3 Hj Z3).
Qed.

Lemma perturb_keeps_zonal_mean_witness :
  get1 (zmean (l1t (Model.v (Model.perturb Model.init)))) 3 =
  get1 (zmean (l1t (Model.v Model.init))) 3.
Proof.
  refine (proj1 (perturb_keeps_zonal_mean Model.init 3 _ _ _ _ _));
    try (apply shapeb_shape; vm_compute; reflexivity).
  unfold Grid.ny. lia.
Defined.

(** ** [relax2_nb] on a forcing without zonal mean *)

Lemma sum_relax2_terms (a b c d x : nat -> Qc) (alpha epsq D : Qc) (l : list nat) :
  sum (map (fun i => (alpha * (a i + b i + epsq * (c i + d i)) + x i) / D) l) =
  (alpha * (sum (map a l) + sum (map b l) + epsq * (sum (map c l) + sum (map d l))) +
   sum (map x l)) / D.
Proof.
  induction l as [|i l IH]; cbn [map].
  - rewrite !sum_nil. unfold Qcdiv. ring.
  - rewrite !sum_cons, IH. unfold Qcdiv. ring.
Qed.

Lemma zonal_sum_relax2 (v x : arr2) (alpha epsq D : Qc) (j : nat) :
  zonal_sum v j = 0 -> zonal_sum v (j + 1) = 0 -> zonal_sum v (j - 1) = 0 ->
  zonal_sum x j = 0 ->
  sum (map (fun i => (alpha * (get v (wrap_p Grid.nx i) j + get v (wrap_m Grid.nx i) j +
                               epsq * (get v i (j + 1) + get v i (j - 1))) +
                      get x i j) / D) (seq 1 Grid.nx)) = 0.
Proof.
  unfold zonal_sum. intros Z P M X.
  rewrite (sum_relax2_terms (fun i => get v (wrap_p Grid.nx i) j)
                            (fun i => get v (wrap_m Grid.nx i) j)
                            (fun i => get v i (j + 1)) (fun i => get v i (j - 1))
                            (fun i => get x i j)).
  rewrite (proj1 (sum_wrap (fun i => get v i j))), (proj2 (sum_wrap (fun i => get v i j))).
  rewrite Z, P, M, X. unfold Qcdiv. ring.
Qed.

(** Where the end row [ny] of the iterate agrees with that of [temp], the
    sum of the loop is the one over the interior points. *)
Lemma change_of_interior nx ny v temp :
  shape (nx + 1) (ny + 1) v -> shape (nx + 1) (ny + 1) temp ->
  (1 <= ny)%nat ->
  (forall i, (1 <= i <= nx)%nat -> get v i ny = get temp i ny) ->
  change_of v temp = change_interior nx ny v temp.
Proof.
  intros Hv Ht Hny He. rewrite (change_of_sum nx ny) by assumption.
  unfold change_interior. f_equal. apply map_ext_in. intros i Hi. apply in_seq in Hi.
  destruct ny as [|ny']; [lia|].
  replace (S ny' - 1)%nat with ny' by lia.
  rewrite seq_S, map_app, sum_app. cbn [map]. rewrite sum_cons, sum_nil.
  replace (1 + ny')%nat with (S ny') by lia.
  rewrite He by lia. unfold sq. ring.
Qed.

Section Relax2Pass.

Variables (x1 x3 : arr2) (dt : Qc) (nx ny : nat) (alpha epsq k : Qc) (v1 v3 : arr2).
Hypothesis Hny : (1 <= ny)%nat.
Hypothesis Hv1 : shape (nx + 1) (ny + 1) v1.
Hypothesis Hv3 : shape (nx + 1) (ny + 1) v3.

(** What pass [n] computes from the iterate it finds. *)
Lemma relax2_pass_spec n :
  let body := relax2_body (relax2_nb_point x1 x3 dt nx alpha epsq k) nx ny in
  let init := relax2_init nx ny v1 v3 in
  let st := passes body n init in
  let st' := passes body (S n) init in
  (forall i j, is_interior nx ny i j ->
     get (r2_temp1 st') i j = relax2_value1 (r2_v1 st) x1 nx alpha epsq i j /\
     get (r2_temp3 st') i j = relax2_value3 (r2_v3 st) x3 dt nx alpha epsq k i j) /\
  r2_v1 st' = end_rows ny (assign_interior_rows ny (r2_v1 st) (r2_temp1 st')) /\
  r2_v3 st' = end_rows ny (assign_interior_rows ny (r2_v3 st) (r2_temp3 st')).
Proof.
  cbv zeta. cbn [passes]. rewrite relax2_body_eq. cbv zeta.
  cbn [fst r2_v1 r2_v3 r2_temp1 r2_temp3].
  destruct (relax2_passes_shape x1 x3 dt nx ny alpha epsq k v1 v3) with (n := n)
    as (_ & _ & T1 & T3); [exact Hny|exact Hv1|exact Hv3|].
  match goal with |- context [relax2_sweep ?p ?o ?s] =>
    destruct (relax2_sweep_spec x1 x3 dt nx alpha epsq k (nx + 1) (ny + 1) o s)
      as (_ & _ & _ & _ & _ & Gin & _) end.
  - exact T1.
  - exact T3.
  - intros p Hp. now apply interior_in_bounds.
  - cbn [r2_v1 r2_v3] in Gin.
    split; [|split; reflexivity].
    intros i j Hij. apply Gin. now apply in_interior.
Qed.

End Relax2Pass.

Section Relax2Anomaly.

Variables (x1 x3 : arr2) (dt alpha epsq k : Qc) (v1 v3 : arr2).

Hypothesis Hv1 : shape (Grid.nx + 1) (Grid.ny + 1) v1.
Hypothesis Hv3 : shape (Grid.nx + 1) (Grid.ny + 1) v3.
Hypothesis Hx : forall j, (1 <= j <= Grid.ny - 1)%nat ->
  zonal_sum x1 j = 0 /\ zonal_sum x3 j = 0.

Let body := relax2_body (relax2_nb_point x1 x3 dt Grid.nx alpha epsq k) Grid.nx Grid.ny.
Let init := relax2_init Grid.nx Grid.ny v1 v3.

Lemma grid_ny_bounds : (2 <= Grid.ny)%nat.
Proof. unfold Grid.ny. lia. Qed.

(** Every iterate has rows without zonal mean and end rows that are
    zero. *)
Lemma relax2_anomaly_inv n :
  let st := passes body n init in
  (forall j, (j <= Grid.ny)%nat ->
     zonal_sum (r2_v1 st) j = 0 /\ zonal_sum (r2_v3 st) j = 0) /\
  (forall i, (i <= Grid.nx)%nat ->
     get (r2_v1 st) i 0 = 0 /\ get (r2_v1 st) i Grid.ny = 0 /\
     get (r2_v3 st) i 0 = 0 /\ get (r2_v3 st) i Grid.ny = 0).
Proof.
  pose proof grid_ny_bounds as Hny.
  induction n as [|n IH].
  - cbn [passes]. unfold init, relax2_init. cbn [r2_v1 r2_v3].
    rewrite (fill_zeros _ _ _ Hv1), (fill_zeros _ _ _ Hv3).
    split.
    + intros j _. unfold zonal_sum.
      rewrite (map_ext _ (fun _ => 0)) by (intros i; apply get_zeros).
      rewrite sum_map_const. split; ring.
    + intros i _. now rewrite !get_zeros.
  - cbv zeta in IH. destruct IH as [Zs _].
    destruct (relax2_pass_spec x1 x3 dt Grid.nx Grid.ny alpha epsq k v1 v3) with (n := n)
      as (Gin & E1 & E3); [lia|exact Hv1|exact Hv3|].
    fold body init in Gin, E1, E3.
    destruct (relax2_passes_shape x1 x3 dt Grid.nx Grid.ny alpha epsq k v1 v3) with (n := n)
      as (S1 & S3 & _ & _); [lia|exact Hv1|exact Hv3|].
    destruct (relax2_passes_shape x1 x3 dt Grid.nx Grid.ny alpha epsq k v1 v3)
      with (n := S n) as (_ & _ & T1 & T3); [lia|exact Hv1|exact Hv3|].
    fold body init in S1, S3, T1, T3.
    pose proof (fun i j => relax2_passes_temp_outside x1 x3 dt Grid.nx Grid.ny alpha epsq k
                             v1 v3 Hny Hv1 Hv3 (S n) i j) as Out.
    cbv zeta in Out. fold body init in Out.
    cbv zeta.
    set (st := passes body n init) in *.
    set (st' := passes body (S n) init) in *.
    clearbody st st'.
    set (a1 := assign_interior_rows Grid.ny (r2_v1 st) (r2_temp1 st')) in *.
    set (a3 := assign_interior_rows Grid.ny (r2_v3 st) (r2_temp3 st')) in *.
    assert (A1 : shape (Grid.nx + 1) (Grid.ny + 1) a1)
      by (apply shape_assign_interior_rows; (lia || assumption)).
    assert (A3 : shape (Grid.nx + 1) (Grid.ny + 1) a3)
      by (apply shape_assign_interior_rows; (lia || assumption)).
    (* the interior rows of the new iterate *)
    assert (In1 : forall i j, (1 <= i <= Grid.nx)%nat -> (1 <= j <= Grid.ny - 1)%nat ->
              get (r2_v1 st') i j = relax2_value1 (r2_v1 st) x1 Grid.nx alpha epsq i j /\
              get (r2_v3 st') i j = relax2_value3 (r2_v3 st) x3 dt Grid.nx alpha epsq k i j).
    { intros i j Hi Hj. rewrite E1, E3.
      rewrite !get_end_rows_interior by exact Hj. unfold a1, a3.
      rewrite !(get_assign_interior_rows (Grid.nx + 1) Grid.ny) by (lia || assumption).
      destruct (Nat.leb_spec 1 j) as [_|]; [|lia].
      destruct (Nat.leb_spec j (Grid.ny - 1)) as [_|]; [|lia]. cbn [andb].
      apply Gin. split; assumption. }
    assert (Zin : forall j, (1 <= j <= Grid.ny - 1)%nat ->
              zonal_sum (r2_v1 st') j = 0 /\ zonal_sum (r2_v3 st') j = 0).
    { intros j Hj. destruct (Hx j Hj) as [X1 X3].
      destruct (Zs j) as [Z1 Z3]; [lia|].
      destruct (Zs (j + 1)%nat) as [P1 P3]; [lia|].
      destruct (Zs (j - 1)%nat) as [M1 M3]; [lia|].
      unfold zonal_sum at 1 2.
      rewrite (map_ext_in _ (fun i => relax2_value1 (r2_v1 st) x1 Grid.nx alpha epsq i j))
        by (intros i Hi; apply in_seq in Hi; apply In1; lia).
      rewrite (map_ext_in (fun i => get (r2_v3 st') i j)
                 (fun i => relax2_value3 (r2_v3 st) x3 dt Grid.nx alpha epsq k i j))
        by (intros i Hi; apply in_seq in Hi; apply In1; lia).
      unfold relax2_value1, relax2_value3.
      split; now apply zonal_sum_relax2. }
    (* the padding entries of the interior rows *)
    assert (P0 : forall j, (1 <= j <= Grid.ny - 1)%nat -> get a1 0 j = 0 /\ get a3 0 j = 0).
    { intros j Hj. unfold a1, a3.
      rewrite !(get_assign_interior_rows (Grid.nx + 1) Grid.ny) by (lia || assumption).
      destruct (Nat.leb_spec 1 j) as [_|]; [|lia].
      destruct (Nat.leb_spec j (Grid.ny - 1)) as [_|]; [|lia]. cbn [andb].
      apply Out, not_interior_i0. }
    (* the end rows *)
    assert (End : forall i, (i <= Grid.nx)%nat ->
              get (r2_v1 st') i 0 = 0 /\ get (r2_v1 st') i Grid.ny = 0 /\
              get (r2_v3 st') i 0 = 0 /\ get (r2_v3 st') i Grid.ny = 0).
    { intros i Hi.
      destruct (end_rows_padded Grid.nx Grid.ny a1 i Hny A1 Hi (fun j Hj => proj1 (P0 j Hj)))
        as (B0 & Bn & _).
      destruct (end_rows_padded Grid.nx Grid.ny a3 i Hny A3 Hi (fun j Hj => proj2 (P0 j Hj)))
        as (C0 & Cn & _).
      rewrite <- E1 in B0, Bn. rewrite <- E3 in C0, Cn.
      destruct (Zin 1%nat) as [Z1 Z3]; [lia|].
      destruct (Zin (Grid.ny - 1)%nat) as [Y1 Y3]; [lia|].
      unfold zonal_sum in Z1, Z3, Y1, Y3.
      rewrite B0, Bn, C0, Cn, Z1, Z3, Y1, Y3. unfold Qcdiv. splits; ring. }
    split; [|exact End].
    intros j Hj.
    destruct (Nat.eq_dec j 0) as [->|Hj0];
      [|destruct (Nat.eq_dec j Grid.ny) as [->|Hjn]; [|apply Zin; lia]].
    + unfold zonal_sum.
      rewrite (map_ext_in _ (fun _ => 0))
        by (intros i Hi; apply in_seq in Hi; apply End; lia).
      rewrite (map_ext_in (fun i => get (r2_v3 st') i 0) (fun _ => 0))
        by (intros i Hi; apply in_seq in Hi; apply End; lia).
      rewrite sum_map_const. split; ring.
    + unfold zonal_sum.
      rewrite (map_ext_in _ (fun _ => 0))
        by (intros i Hi; apply in_seq in Hi; apply End; lia).
      rewrite (map_ext_in (fun i => get (r2_v3 st') i Grid.ny) (fun _ => 0))
        by (intros i Hi; apply in_seq in Hi; apply End; lia).
      rewrite sum_map_const. split; ring.
Qed.

(** The sums that the loop tests are then the sums over the interior
    points: the end row adds nothing. *)
Lemma relax2_anomaly_change n :
  change_of (r2_v1 (passes body n init)) (r2_temp1 (passes body (S n) init)) =
    change_interior Grid.nx Grid.ny (r2_v1 (passes body n init))
                                    (r2_temp1 (passes body (S n) init)) /\
  change_of (r2_v3 (passes body n init)) (r2_temp3 (passes body (S n) init)) =
    change_interior Grid.nx Grid.ny (r2_v3 (passes body n init))
                                    (r2_temp3 (passes body (S n) init)).
Proof.
  pose proof grid_ny_bounds as Hny.
  destruct (relax2_anomaly_inv n) as [_ End]. cbv zeta in End.
  destruct (relax2_passes_shape x1 x3 dt Grid.nx Grid.ny alpha epsq k v1 v3) with (n := n)
    as (S1 & S3 & _ & _); [lia|exact Hv1|exact Hv3|].
  destruct (relax2_passes_shape x1 x3 dt Grid.nx Grid.ny alpha epsq k v1 v3)
    with (n := S n) as (_ & _ & T1 & T3); [lia|exact Hv1|exact Hv3|].
  pose proof (fun i => relax2_passes_temp_outside x1 x3 dt Grid.nx Grid.ny alpha epsq k
                         v1 v3 Hny Hv1 Hv3 (S n) i Grid.ny) as Out.
  cbv zeta in Out.
  fold body init in S1, S3, T1, T3, Out.
  assert (Hout : forall i, ~ is_interior Grid.nx Grid.ny i Grid.ny)
    by (intros i; unfold is_interior; lia).
  split; apply change_of_interior; try assumption; try lia; intros i Hi.
  - destruct (End i) as (_ & -> & _); [lia|]. symmetry. apply Out, Hout.
  - destruct (End i) as (_ & _ & _ & ->); [lia|]. symmetry. apply Out, Hout.
Qed.

Lemma relax2_anomaly_stops n :
  stops body n init = true <->
  change_interior Grid.nx Grid.ny (r2_v1 (passes body n init))
                                  (r2_temp1 (passes body (S n) init)) < lit 1.0 /\
  change_interior Grid.nx Grid.ny (r2_v3 (passes body n init))
                                  (r2_temp3 (passes body (S n) init)) < lit 1.0.
Proof.
  unfold body, init. rewrite relax2_stops_eq. fold body init.
  destruct (relax2_anomaly_change n) as [-> ->].
  rewrite Qcltb_lt. apply pymax_lt.
Qed.

End Relax2Anomaly.

(** On a forcing without zonal mean, as [step] passes it after
    [x.split()], and in exact arithmetic, the end rows of every iterate of
    [relax2_nb] are zero and the sums tested by the loop are the sums of the
    squared changes over the interior points.  The loop then ends as soon
    as a pass has changed the interior by less than 1.0 in the sum of
    squares on both levels, or with the hundredth pass, and the result has
    zero end rows. *)
Theorem relax2_nb_on_anomaly_forcing
    (v1 v3 x1 x3 : arr2) (dt alpha epsq k : Qc) :
  lit 2 * alpha * (lit 1.0 + epsq) + lit 1.0 <> 0 ->
  lit 2 * alpha * (lit 1.0 + epsq) + lit 1.0 + lit 1.5 * k * dt <> 0 ->
  shape (Grid.nx + 1) (Grid.ny + 1) v1 -> shape (Grid.nx + 1) (Grid.ny + 1) v3 ->
  (forall j, (1 <= j <= Grid.ny - 1)%nat -> zonal_sum x1 j = 0 /\ zonal_sum x3 j = 0) ->
  let body := relax2_body (relax2_nb_point x1 x3 dt Grid.nx alpha epsq k)
                          Grid.nx Grid.ny in
  let init := relax2_init Grid.nx Grid.ny v1 v3 in
  let small n :=
    change_interior Grid.nx Grid.ny (r2_v1 (passes body n init))
                                    (r2_temp1 (passes body (S n) init)) < lit 1.0 /\
    change_interior Grid.nx Grid.ny (r2_v3 (passes body n init))
                                    (r2_temp3 (passes body (S n) init)) < lit 1.0 in
  let r := relax2_nb v1 v3 x1 x3 dt Grid.nx Grid.ny alpha epsq k in
  (exists n, (n < 100)%nat /\
     r = (r2_v1 (passes body (S n) init), r2_v3 (passes body (S n) init)) /\
     (forall j, (j < n)%nat -> ~ small j) /\
     ((n < 99)%nat -> small n)) /\
  (forall i, (i <= Grid.nx)%nat ->
     get (fst r) i 0 = 0 /\ get (fst r) i Grid.ny = 0 /\
     get (snd r) i 0 = 0 /\ get (snd r) i Grid.ny = 0).
Proof.
  intros _ _ H1 H3 Hx body init small r.
  destruct (relax2_loop_spec x1 x3 dt Grid.nx Grid.ny alpha epsq k v1 v3)
    as (n & Hn & E & Hbefore & Hstop).
  fold body init in E, Hbefore, Hstop.
  assert (Er : r = (r2_v1 (passes body (S n) init), r2_v3 (passes body (S n) init)))
    by (unfold r, relax2_nb; cbv zeta; now rewrite E).
  pose proof (relax2_anomaly_stops x1 x3 dt alpha epsq k v1 v3 H1 H3 Hx) as St.
  fold body init in St.
  split.
  - exists n. split; [exact Hn|]. split; [exact Er|]. split.
    + intros j Hj Hs. unfold small in Hs.
      pose proof (proj2 (St j) Hs) as Hs'.
      rewrite (Hbefore j Hj) in Hs'. discriminate Hs'.
    + intros Hlt. unfold small. exact (proj1 (St n) (Hstop Hlt)).
  - intros i Hi. rewrite Er. cbn [fst snd].
    pose proof (relax2_anomaly_inv x1 x3 dt alpha epsq k v1 v3 H1 H3 Hx (S n)) as Inv.
    cbv zeta in Inv. fold body init in Inv.
    exact (proj2 Inv i Hi).
Qed.

Lemma relax2_nb_on_anomaly_forcing_witness :
  let x := split Model.noise in
  let r := relax2_nb (l1 new_Var) (l3 new_Var) (l1 x) (l3 x) Model.dt2 Grid.nx Grid.ny
             (Model.a * Model.dt2 / sq Grid.dx) Model.epsq Model.k in
  get (fst r) 5 Grid.ny = 0.
Proof.
  intros x r.
  refine (proj1 (proj2 (proj2 (relax2_nb_on_anomaly_forcing (l1 new_Var) (l3 new_Var)
                   (l1 x) (l3 x) Model.dt2 (Model.a * Model.dt2 / sq Grid.dx)
                   Model.epsq Model.k _ _ _ _ _) 5%nat _))).
  - intros H; apply (f_equal this) in H; vm_compute in H; discriminate H.
  - intros H; apply (f_equal this) in H; vm_compute in H; discriminate H.
  - apply shape_zeros.
  - apply shape_zeros.
  - intros j Hj. unfold zonal_sum. split; apply zonal_sums_zerob_sound with (ny := Grid.ny);
      try lia; vm_compute; reflexivity.
  - unfold Grid.nx. lia.
Defined.
